(** * Port Daddy: port-assignment service and hierarchical changelog

    A shallow embedding of [server.js] (validation, the port registry,
    the claim / release / cleanup handlers) and of [lib/changelog.ts]
    (identity hierarchy, prefix queries, rollup), with the properties
    the specification states about them. The later sections add the
    other queries of the changelog, the limit of its listing routes
    ([routes/changelog.ts]) and the host names of the local DNS, with
    further properties of the code: invariants of every run, what each
    request can and cannot change, round trips and edge cases.

    Conventions of the embedding.
    - JavaScript values are the type [jsval]; numbers are integer valued.
      [JNum n] is the number that the literal [n] denotes: the double
      nearest to [n], which is [n] itself below 2^53. It prints as
      [Number::toString] prints that double: plain digits below 10^21,
      exponent notation from there on.
    - A string is a Rocq [string]; one [ascii] stands for one character.
    - The SQLite table [port_assignments] is a list of rows kept in
      ascending [port] order (the B-tree of an INTEGER PRIMARY KEY); the
      primary-key constraint is enforced by [stmt_insert], which raises.
    - Every interaction with the operating system (the clock, [ps] and
      [lsof] run through [spawnSync]) is answered by an oracle indexed by
      the number of OS calls made so far, so that two probes of the same
      pid or port may differ; the calls made are logged in the world.
    - The logger only writes to files and is not modelled. *)

From Stdlib Require Import ZArith List Bool Ascii String Lia Arith.
From Stdlib Require Import DecimalString Permutation.
Import ListNotations.

Local Open Scope string_scope.
Local Open Scope Z_scope.

#[local] Set Warnings "-register-all".

(* ================================================================== *)
(** ** JavaScript values *)
(* ================================================================== *)

Inductive jsval : Type :=
| JUndefined
| JNull
| JBool (b : bool)
| JNum (n : Z)
| JStr (s : string)
| JArr (l : list jsval)
| JObj (fields : list (string * jsval)).

(** A JSON object as sent by [res.json]: keys in source order. *)
Definition jsobject := list (string * jsval).

Fixpoint js_get (k : string) (o : jsobject) : option jsval :=
  match o with
  | [] => None
  | (k', v) :: o' => if String.eqb k k' then Some v else js_get k o'
  end.

Definition is_empty (s : string) : bool :=
  match s with EmptyString => true | String _ _ => false end.

(** [!v] is [negb (truthy v)]. *)
Definition truthy (v : jsval) : bool :=
  match v with
  | JUndefined | JNull => false
  | JBool b => b
  | JNum n => negb (n =? 0)
  | JStr s => negb (is_empty s)
  | JArr _ | JObj _ => true
  end.

Definition string_of_Z (n : Z) : string := NilZero.string_of_int (Z.to_int n).

Fixpoint join (sep : string) (l : list string) : string :=
  match l with
  | [] => EmptyString
  | [x] => x
  | x :: rest => x ++ sep ++ join sep rest
  end.

(** *** [Number::toString] on integer values

    Up to [Number.MAX_SAFE_INTEGER], 2^53 - 1, every integer is a double
    and prints as its decimal digits. From there on the literal is
    rounded to the nearest double
    (ties to the even significand), and the double prints with the
    fewest significant digits that still read back as this double; at
    22 digits and more it is written with an exponent. *)

Definition MAX_SAFE_INTEGER : Z := 9007199254740991.

(** The double nearest to [z], for [0 <= z]. *)
Definition round_double (z : Z) : Z :=
  if z <=? MAX_SAFE_INTEGER then z
  else
    let e := Z.log2 z - 52 in
    let q := Z.shiftr z e in
    let r := z - Z.shiftl q e in
    let half := Z.shiftl 1 (e - 1) in
    let q' := if (half <? r) || ((r =? half) && Z.odd q) then q + 1 else q in
    Z.shiftl q' e.

Definition digits_count (z : Z) : Z := Z.of_nat (String.length (string_of_Z z)).

(** The digits [s] and the power [m] of the shortest [s * 10^m] that
    rounds to the double [x], trying [k] significant digits, then
    [k + 1], and so on; 17 digits always suffice. Of two candidates the
    one nearer to [x] is taken, the even one when they are as near. *)
Fixpoint shortest_digits (fuel : nat) (k x : Z) : Z * Z :=
  match fuel with
  | O => (x, 0)
  | S fuel' =>
      let m := digits_count x - k in
      if m <=? 0 then (x, 0)
      else
        let lo := x / 10 ^ m in
        let hi := lo + 1 in
        let lo_ok := round_double (lo * 10 ^ m) =? x in
        let hi_ok := round_double (hi * 10 ^ m) =? x in
        let below := x - lo * 10 ^ m in
        let above := hi * 10 ^ m - x in
        if lo_ok && hi_ok then
          if below <? above then (lo, m)
          else if above <? below then (hi, m)
          else if Z.even lo then (lo, m) else (hi, m)
        else if lo_ok then (lo, m)
        else if hi_ok then (hi, m)
        else shortest_digits fuel' (k + 1) x
  end.

Fixpoint drop_zeros (fuel : nat) (s : Z) : Z :=
  match fuel with
  | O => s
  | S fuel' =>
      if (0 <? s) && (s mod 10 =? 0) then drop_zeros fuel' (s / 10) else s
  end.

Definition double_to_string (x : Z) : string :=
  let '(s, m) := shortest_digits 17 1 x in
  let v := s * 10 ^ m in
  if v <? 10 ^ 21 then string_of_Z v
  else
    let exponent := "e+" ++ string_of_Z (digits_count v - 1) in
    match string_of_Z (drop_zeros 20 s) with
    | String c EmptyString => String c exponent
    | String c rest => String c ("." ++ rest ++ exponent)
    | EmptyString => EmptyString
    end.

Definition magnitude_to_string (z : Z) : string :=
  if z <=? MAX_SAFE_INTEGER then string_of_Z z
  else
    let x := round_double z in
    if 2 ^ 1024 <=? x then "Infinity" else double_to_string x.

Definition number_to_string (n : Z) : string :=
  if n <? 0 then "-" ++ magnitude_to_string (- n) else magnitude_to_string n.

(** [String(v)], as used by [parseInt] and by template strings. *)
Fixpoint toString (v : jsval) : string :=
  match v with
  | JUndefined => "undefined"
  | JNull => "null"
  | JBool true => "true"
  | JBool false => "false"
  | JNum n => number_to_string n
  | JStr s => s
  | JArr l =>
      join "," (map (fun x => match x with
                              | JUndefined | JNull => EmptyString
                              | _ => toString x
                              end) l)
  | JObj _ => "[object Object]"
  end.

(** *** [parseInt(_, 10)] *)

Definition is_white (c : ascii) : bool :=
  let n := nat_of_ascii c in
  ((9 <=? n) && (n <=? 13) || (n =? 32) || (n =? 160))%nat.

Definition digit_of (c : ascii) : option Z :=
  let n := Z.of_nat (nat_of_ascii c) in
  if (48 <=? n) && (n <=? 57) then Some (n - 48) else None.

Fixpoint skip_white (s : string) : string :=
  match s with
  | String c r => if is_white c then skip_white r else s
  | EmptyString => s
  end.

(** Longest prefix of decimal digits, accumulated left to right;
    [seen] records whether at least one digit was read. *)
Fixpoint read_digits (s : string) (seen : bool) (acc : Z) : option Z :=
  match s with
  | String c r =>
      match digit_of c with
      | Some d => read_digits r true (10 * acc + d)
      | None => if seen then Some acc else None
      end
  | EmptyString => if seen then Some acc else None
  end.

(** [None] is [NaN]. The value is that of the digits read, where
    JavaScript gives the double nearest to it: the two agree up to
    [MAX_SAFE_INTEGER], and above it they lie on the same side of every
    bound that is itself a double, as those of ports and pids are. *)
Definition parseInt_string (s : string) : option Z :=
  match skip_white s with
  | String "-" r => option_map Z.opp (read_digits r false 0)
  | String "+" r => read_digits r false 0
  | r => read_digits r false 0
  end.

Definition parseInt (v : jsval) : option Z := parseInt_string (toString v).

(** *** [trim], [split] and the match of [/:(\d+)$/] *)

Fixpoint trim_end (s : string) : string :=
  match s with
  | EmptyString => EmptyString
  | String c r =>
      match trim_end r with
      | EmptyString => if is_white c then EmptyString else String c EmptyString
      | t => String c t
      end
  end.

Definition trim (s : string) : string := trim_end (skip_white s).

(** [s.split(c)] for a one-character separator. *)
Fixpoint split_char (sep : ascii) (s : string) : list string :=
  match s with
  | EmptyString => [EmptyString]
  | String c r =>
      if Ascii.eqb c sep then EmptyString :: split_char sep r
      else match split_char sep r with
           | piece :: pieces => String c piece :: pieces
           | [] => [String c EmptyString]
           end
  end.

(** [s.split(/\s+/)]: [cur] is the piece being read, [in_gap] tells that
    the last character was white space. *)
Fixpoint split_white (s : string) (cur : string) (in_gap : bool)
  : list string :=
  match s with
  | EmptyString => [cur]
  | String c r =>
      if is_white c then
        if in_gap then split_white r cur true
        else cur :: split_white r EmptyString true
      else split_white r (cur ++ String c EmptyString) false
  end.

(** The text after the last occurrence of [c]. *)
Fixpoint after_last (c : ascii) (s : string) : option string :=
  match s with
  | EmptyString => None
  | String d r =>
      match after_last c r with
      | Some t => Some t
      | None => if Ascii.eqb d c then Some r else None
      end
  end.

Fixpoint all_chars (p : ascii -> bool) (s : string) : bool :=
  match s with
  | EmptyString => true
  | String c r => p c && all_chars p r
  end.

Definition is_digit (c : ascii) : bool :=
  match digit_of c with Some _ => true | None => false end.

(** [name.match(/:(\d+)$/)] followed by [parseInt] of the group: digits
    up to the end can only follow the last colon. *)
Definition port_of_name (name : string) : option Z :=
  match after_last ":" name with
  | Some digits =>
      if negb (is_empty digits) && all_chars is_digit digits
      then read_digits digits false 0
      else None
  | None => None
  end.

(* ================================================================== *)
(** ** Configuration *)
(* ================================================================== *)

Record Config : Type := mkConfig {
  range_start : Z;
  range_end : Z;
  reserved : list Z;
  process_pid : Z
}.

(** The fallback of [server.js] when there is no [config.json]. *)
Definition default_config (self : Z) : Config :=
  {| range_start := 3100; range_end := 9999;
     reserved := [8080; 8000; 9876]; process_pid := self |}.

(* ================================================================== *)
(** ** Input validation *)
(* ================================================================== *)

Inductive validation (A : Type) : Type :=
| Valid (a : A)
| Invalid (error : string).
Arguments Valid {A} a.
Arguments Invalid {A} error.

Definition is_valid {A} (r : validation A) : bool :=
  match r with Valid _ => true | Invalid _ => false end.

Definition PROJECT_NAME_MAX_LENGTH : Z := 255.
Definition PID_MIN : Z := 1.
Definition PID_MAX : Z := 99999.

Definition in_range (lo hi : nat) (c : ascii) : bool :=
  let n := nat_of_ascii c in ((lo <=? n) && (n <=? hi))%nat.

(** The character class [[a-zA-Z0-9._-]]. *)
Definition project_char (c : ascii) : bool :=
  in_range 97 122 c || in_range 65 90 c || in_range 48 57 c
  || Ascii.eqb c "." || Ascii.eqb c "_" || Ascii.eqb c "-".

(** [PROJECT_NAME_REGEX.test(s)] for [/^[a-zA-Z0-9._-]+$/]. *)
Definition PROJECT_NAME_REGEX_test (s : string) : bool :=
  negb (is_empty s) && all_chars project_char s.

(** [typeof v === 'string'] *)
Definition is_string (v : jsval) : bool :=
  match v with JStr _ => true | _ => false end.

(** Past the first test [project] is a string, and [toString project]
    is that string. *)
Definition validateProjectName (project : jsval) : validation unit :=
  if negb (truthy project) || negb (is_string project) then
    Invalid "project name must be a non-empty string"
  else if Z.of_nat (String.length (toString project))
          >? PROJECT_NAME_MAX_LENGTH then
    Invalid ("project name too long (max "
             ++ string_of_Z PROJECT_NAME_MAX_LENGTH ++ " characters)")
  else if negb (PROJECT_NAME_REGEX_test (toString project)) then
    Invalid "project name contains invalid characters (use alphanumeric, dash, underscore, dot)"
  else Valid tt.

Definition validatePid (pidValue : jsval) : validation (option Z) :=
  match pidValue with
  | JUndefined | JNull => Valid None
  | _ =>
      match parseInt pidValue with
      | None => Invalid ("PID must be between " ++ string_of_Z PID_MIN
                         ++ " and " ++ string_of_Z PID_MAX)
      | Some pid =>
          if (pid <? PID_MIN) || (pid >? PID_MAX) then
            Invalid ("PID must be between " ++ string_of_Z PID_MIN
                     ++ " and " ++ string_of_Z PID_MAX)
          else Valid (Some pid)
      end
  end.

Definition validatePort (portValue : jsval) : validation (option Z) :=
  match portValue with
  | JUndefined | JNull => Valid None
  | _ =>
      match parseInt portValue with
      | None => Invalid "port must be between 1 and 65535"
      | Some port =>
          if (port <? 1) || (port >? 65535) then
            Invalid "port must be between 1 and 65535"
          else Valid (Some port)
      end
  end.

Definition includes (l : list Z) (x : Z) : bool := existsb (Z.eqb x) l.

Definition validatePreferredPort (portValue : jsval)
    (rangeStart rangeEnd : Z) (reservedPorts : list Z)
  : validation (option Z) :=
  match validatePort portValue with
  | Invalid e => Invalid e
  | Valid None => Valid None
  | Valid (Some port) =>
      if (port <? rangeStart) || (port >? rangeEnd) then
        Invalid ("preferred port must be in range " ++ string_of_Z rangeStart
                 ++ "-" ++ string_of_Z rangeEnd)
      else if includes reservedPorts port then
        Invalid "preferred port is reserved and cannot be assigned"
      else Valid (Some port)
  end.

(* ================================================================== *)
(** ** The world: database, cache, metrics and OS calls *)
(* ================================================================== *)

(** A row of [port_assignments]. *)
Record Row : Type := mkRow {
  r_port : Z;
  r_project : string;
  r_pid : Z;
  r_started : Z;
  r_last_seen : Z
}.

(** An entry of the parsed [lsof] listing. *)
Record SysPort : Type := mkSysPort {
  sp_port : Z;
  sp_pid : option Z;            (* [None] is [NaN] *)
  sp_command : string;
  sp_user : string
}.

(** What [spawnSync] returns; a [null] status (killed, timed out) counts
    as any status other than 0. *)
Record SpawnResult : Type := mkSpawnResult {
  sr_status : Z;
  sr_stdout : string
}.

Record Cache : Type := mkCache {
  data : option (list SysPort);
  timestamp : Z
}.

Record Metrics : Type := mkMetrics {
  total_assignments : Z;
  total_releases : Z;
  total_cleanups : Z;
  ports_freed_by_cleanup : Z;
  validation_failures : Z;
  race_condition_retries : Z;
  errors : Z
}.

Inductive os_call : Type :=
| CallNow
| CallPs (pid : Z)
| CallLsofListen
| CallLsofPort (port : Z).

Record World : Type := mkWorld {
  db : list Row;
  systemPortsCache : Cache;
  metrics : Metrics;
  calls : list os_call        (* most recent first *)
}.

(** What the operating system answers to the [n]-th call: the clock,
    and the three commands run through [spawnSync] ([ps -p pid],
    [lsof -i -P -n -sTCP:LISTEN], [lsof -i :port -P -n -sTCP:LISTEN]);
    [None] stands for a call that throws. *)
Record OS : Type := mkOS {
  os_now : nat -> Z;
  os_ps : nat -> Z -> option SpawnResult;
  os_lsof_listen : nat -> option SpawnResult;
  os_lsof_port : nat -> Z -> option SpawnResult
}.

(** [isProcessAlive] at the [t]-th call: [result.status === 0], [false]
    when the call throws. *)
Definition ps_alive (os : OS) (t : nat) (pid : Z) : bool :=
  match os_ps os t pid with
  | Some result => sr_status result =? 0
  | None => false
  end.

(** [isPortInUseOnSystem] at the [t]-th call:
    [result.status === 0 && result.stdout && result.stdout.trim().length > 0],
    [false] when the call throws. *)
Definition port_busy (os : OS) (t : nat) (port : Z) : bool :=
  match os_lsof_port os t port with
  | Some result =>
      (sr_status result =? 0)
      && negb (is_empty (sr_stdout result))
      && negb (is_empty (trim (sr_stdout result)))
  | None => false
  end.

Definition initial_world : World :=
  {| db := [];
     systemPortsCache := {| data := None; timestamp := 0 |};
     metrics := mkMetrics 0 0 0 0 0 0 0;
     calls := [] |}.

Definition tick (w : World) : nat := List.length (calls w).

Definition set_db (d : list Row) (w : World) : World :=
  mkWorld d (systemPortsCache w) (metrics w) (calls w).
Definition set_cache (c : Cache) (w : World) : World :=
  mkWorld (db w) c (metrics w) (calls w).
Definition set_metrics (m : Metrics) (w : World) : World :=
  mkWorld (db w) (systemPortsCache w) m (calls w).
Definition log_call (c : os_call) (w : World) : World :=
  mkWorld (db w) (systemPortsCache w) (metrics w) (c :: calls w).

(** *** Exceptions and the state-and-exception monad *)

Inductive error : Type :=
| SQLITE_CONSTRAINT_PRIMARYKEY
| Error (message : string).

Definition error_message (e : error) : string :=
  match e with
  | SQLITE_CONSTRAINT_PRIMARYKEY =>
      "UNIQUE constraint failed: port_assignments.port"
  | Error m => m
  end.

Inductive outcome (A : Type) : Type :=
| Return (a : A)
| Throw (e : error).
Arguments Return {A} a.
Arguments Throw {A} e.

Definition M (A : Type) : Type := World -> outcome A * World.

Definition ret {A} (a : A) : M A := fun w => (Return a, w).
Definition throw {A} (e : error) : M A := fun w => (Throw e, w).
Definition bind {A B} (m : M A) (k : A -> M B) : M B :=
  fun w => match m w with
           | (Return a, w') => k a w'
           | (Throw e, w') => (Throw e, w')
           end.
(** [try { m } catch (e) { h e }]: writes made before the throw stay. *)
Definition try_catch {A} (m : M A) (h : error -> M A) : M A :=
  fun w => match m w with
           | (Return a, w') => (Return a, w')
           | (Throw e, w') => h e w'
           end.
Definition modify (f : World -> World) : M unit := fun w => (Return tt, f w).
Definition gets {A} (f : World -> A) : M A := fun w => (Return (f w), w).

Declare Scope monad_scope.
Delimit Scope monad_scope with monad.
Notation "x <- m ;; k" := (bind m (fun x => k))
  (at level 61, m at next level, right associativity) : monad_scope.
Notation "m ;;; k" := (bind m (fun _ => k))
  (at level 61, right associativity) : monad_scope.
Local Open Scope monad_scope.

(** *** Prepared statements *)

(** The [WHERE] clauses. *)
Definition has_project (project : string) (r : Row) : bool :=
  String.eqb (r_project r) project.
Definition has_port (port : Z) (r : Row) : bool := r_port r =? port.

Definition stmt_getByProject (project : string) : M (option Row) :=
  gets (fun w => find (has_project project) (db w)).

Definition stmt_getByPort (port : Z) : M (option Row) :=
  gets (fun w => find (has_port port) (db w)).

Fixpoint insert_row (r : Row) (d : list Row) : list Row :=
  match d with
  | [] => [r]
  | x :: t => if r_port r <? r_port x then r :: x :: t else x :: insert_row r t
  end.

Definition stmt_insert (port : Z) (project : string) (pid started last_seen : Z)
  : M unit :=
  fun w =>
    if existsb (has_port port) (db w)
    then (Throw SQLITE_CONSTRAINT_PRIMARYKEY, w)
    else (Return tt,
          set_db (insert_row (mkRow port project pid started last_seen) (db w)) w).

Definition set_last_seen (last_seen : Z) (r : Row) : Row :=
  mkRow (r_port r) (r_project r) (r_pid r) (r_started r) last_seen.

Definition update_last_seen (last_seen port : Z) (d : list Row) : list Row :=
  map (fun r => if r_port r =? port then set_last_seen last_seen r else r) d.

Definition stmt_updateLastSeen (last_seen port : Z) : M unit :=
  modify (fun w => set_db (update_last_seen last_seen port (db w)) w).

Definition delete_where (hit : Row -> bool) (d : list Row) : list Row :=
  filter (fun r => negb (hit r)) d.

Definition stmt_deleteByPort (port : Z) : M unit :=
  modify (fun w => set_db (delete_where (has_port port) (db w)) w).

(** Returns [changes], the number of rows deleted. *)
Definition stmt_deleteByProject (project : string) : M Z :=
  fun w =>
    (Return (Z.of_nat (List.length (filter (has_project project) (db w)))),
     set_db (delete_where (has_project project) (db w)) w).

Definition stmt_getAllPorts : M (list Z) := gets (fun w => map r_port (db w)).
Definition stmt_getAll : M (list Row) := gets db.
Definition stmt_countAll : M Z := gets (fun w => Z.of_nat (List.length (db w))).

(** *** Metrics counters *)

Definition inc_total_assignments (m : Metrics) : Metrics :=
  mkMetrics (total_assignments m + 1) (total_releases m) (total_cleanups m)
    (ports_freed_by_cleanup m) (validation_failures m)
    (race_condition_retries m) (errors m).
Definition add_total_releases (n : Z) (m : Metrics) : Metrics :=
  mkMetrics (total_assignments m) (total_releases m + n) (total_cleanups m)
    (ports_freed_by_cleanup m) (validation_failures m)
    (race_condition_retries m) (errors m).
Definition note_cleanup (freed : Z) (m : Metrics) : Metrics :=
  mkMetrics (total_assignments m) (total_releases m) (total_cleanups m + 1)
    (ports_freed_by_cleanup m + freed) (validation_failures m)
    (race_condition_retries m) (errors m).
Definition inc_validation_failures (m : Metrics) : Metrics :=
  mkMetrics (total_assignments m) (total_releases m) (total_cleanups m)
    (ports_freed_by_cleanup m) (validation_failures m + 1)
    (race_condition_retries m) (errors m).
Definition inc_race_condition_retries (m : Metrics) : Metrics :=
  mkMetrics (total_assignments m) (total_releases m) (total_cleanups m)
    (ports_freed_by_cleanup m) (validation_failures m)
    (race_condition_retries m + 1) (errors m).
Definition inc_errors (m : Metrics) : Metrics :=
  mkMetrics (total_assignments m) (total_releases m) (total_cleanups m)
    (ports_freed_by_cleanup m) (validation_failures m)
    (race_condition_retries m) (errors m + 1).

Definition bump (f : Metrics -> Metrics) : M unit :=
  modify (fun w => set_metrics (f (metrics w)) w).

(** *** Sorting and deduplicating the [lsof] listing *)

Fixpoint dedupe (seen : list Z) (ports : list SysPort) : list SysPort :=
  match ports with
  | [] => []
  | p :: rest =>
      if includes seen (sp_port p) then dedupe seen rest
      else p :: dedupe (sp_port p :: seen) rest
  end.

Fixpoint sort_insert (p : SysPort) (l : list SysPort) : list SysPort :=
  match l with
  | [] => [p]
  | x :: t => if sp_port p <? sp_port x then p :: x :: t
              else x :: sort_insert p t
  end.

(** [.sort((a, b) => a.port - b.port)] on distinct ports. *)
Definition sort_by_port (l : list SysPort) : list SysPort :=
  fold_right sort_insert [] l.

Definition SYSTEM_PORTS_CACHE_TTL : Z := 2000.

Definition newline : ascii := ascii_of_nat 10.

(** One turn of the loop over the lines of the listing. *)
Definition parse_line (line : string) : option SysPort :=
  let parts := split_white line EmptyString false in
  if (List.length parts <? 9)%nat then None
  else
    let command := nth 0 parts EmptyString in
    let pid := parseInt_string (nth 1 parts EmptyString) in
    let user := nth 2 parts EmptyString in
    let name := nth 8 parts EmptyString in
    match port_of_name name with
    | Some port => Some (mkSysPort port pid command user)
    | None => None
    end.

Fixpoint parse_lines (lines : list string) : list SysPort :=
  match lines with
  | [] => []
  | line :: rest =>
      match parse_line line with
      | Some p => p :: parse_lines rest
      | None => parse_lines rest
      end
  end.

(** From [result.stdout] to the array [deduplicated]. *)
Definition listing_ports (stdout : string) : list SysPort :=
  let lines := tl (split_char newline (trim stdout)) in
  let maxLines := 1000%nat in
  let ports := parse_lines (firstn maxLines lines) in
  sort_by_port (dedupe [] ports).

Definition data_or_empty (c : Cache) : list SysPort :=
  match data c with
  | Some d => d
  | None => []
  end.

Definition truthyPort (p : option Z) : bool :=
  match p with
  | Some n => negb (n =? 0)
  | None => false
  end.

(* ================================================================== *)
(** ** The server *)
(* ================================================================== *)

Record Response : Type := mkResponse {
  status : Z;
  body : jsobject
}.

(** [res.json(o)] answers with status 200. *)
Definition res_json (o : jsobject) : Response := mkResponse 200 o.
Definition res_status_json (code : Z) (o : jsobject) : Response :=
  mkResponse code o.

Inductive attempt_result : Type :=
| Continue (preferredPort : option Z)
| Assigned (port : Z).

Section Server.
Variable cfg : Config.
Variable os : OS.

Definition PORT_RANGE_START : Z := range_start cfg.
Definition PORT_RANGE_END : Z := range_end cfg.
Definition RESERVED_PORTS : list Z := reserved cfg.

(** *** Operating-system calls *)

Definition Date_now : M Z :=
  fun w => (Return (os_now os (tick w)), log_call CallNow w).

Definition isProcessAlive (pid : Z) : M bool :=
  fun w => (Return (ps_alive os (tick w) pid), log_call (CallPs pid) w).

Definition spawn_lsof_listen : M (option SpawnResult) :=
  fun w => (Return (os_lsof_listen os (tick w)), log_call CallLsofListen w).

Definition isPortInUseOnSystem (port : Z) : M bool :=
  fun w => (Return (port_busy os (tick w) port),
            log_call (CallLsofPort port) w).

(** The part of [getSystemPorts] after the test of the cache. *)
Definition scan_system_ports (now : Z) : M (list SysPort) :=
  cache <- gets systemPortsCache ;;
  r <- spawn_lsof_listen ;;
  match r with
  | Some result =>
      if negb (sr_status result =? 0) || is_empty (sr_stdout result)
      then ret (data_or_empty cache)
      else
        let deduplicated := listing_ports (sr_stdout result) in
        modify (set_cache (mkCache (Some deduplicated) now)) ;;;
        ret deduplicated
  | None => ret (data_or_empty cache)
  end.

Definition getSystemPorts : M (list SysPort) :=
  now <- Date_now ;;
  cache <- gets systemPortsCache ;;
  match data cache with
  | Some d =>
      if now - timestamp cache <? SYSTEM_PORTS_CACHE_TTL then ret d
      else scan_system_ports now
  | None => scan_system_ports now
  end.

(** *** [cleanupStale] *)

Fixpoint cleanup_loop (entries : list Row) (freed : list Row)
  : M (list Row) :=
  match entries with
  | [] => ret freed
  | entry :: rest =>
      alive <- isProcessAlive (r_pid entry) ;;
      if negb alive then
        stmt_deleteByPort (r_port entry) ;;;
        cleanup_loop rest (freed ++ [entry])%list
      else cleanup_loop rest freed
  end.

(** Returns the freed rows; the source keeps their [port] and
    [project]. *)
Definition cleanupStale : M (list Row) :=
  entries <- stmt_getAll ;;
  freed <- cleanup_loop entries [] ;;
  (if (0 <? Z.of_nat (List.length freed))
   then bump (note_cleanup (Z.of_nat (List.length freed)))
   else ret tt) ;;;
  ret freed.

(** *** [findAvailablePort] *)

(** The [for] loop, with [n] iterations left. *)
Fixpoint scan_range (n : nat) (port : Z) (usedSet : list Z) : M Z :=
  match n with
  | O => throw (Error "No available ports in range")
  | S n' =>
      if includes usedSet port then scan_range n' (port + 1) usedSet
      else
        busy <- isPortInUseOnSystem port ;;
        if busy then scan_range n' (port + 1) usedSet else ret port
  end.

Definition findAvailablePort : M Z :=
  dbUsed <- stmt_getAllPorts ;;
  systemPorts <- getSystemPorts ;;
  let usedSet := (dbUsed ++ map sp_port systemPorts ++ RESERVED_PORTS)%list in
  scan_range (Z.to_nat (PORT_RANGE_END - PORT_RANGE_START + 1))
             PORT_RANGE_START usedSet.

(** *** [assignPortWithRetry] *)

Definition assignPortTransaction (port : Z) (project : string)
    (pid now : Z) : M bool :=
  stmt_insert port project pid now now ;;; ret true.

(** [preferredPort || findAvailablePort()] *)
Definition preferred_or_find (preferredPort : option Z) : M Z :=
  match preferredPort with
  | Some p => if truthyPort preferredPort then ret p else findAvailablePort
  | None => findAvailablePort
  end.

(** [if (preferredPort) { port = findAvailablePort(); preferredPort = null; }
    continue;] *)
Definition give_up_preferred (preferredPort : option Z) : M attempt_result :=
  if truthyPort preferredPort
  then _p <- findAvailablePort ;; ret (Continue None)
  else ret (Continue preferredPort).

(** From [if (isPortInUseOnSystem(port))] to the [return]. *)
Definition probe_and_insert (port : Z) (project : string)
    (preferredPort : option Z) (requestingPid now : Z) : M attempt_result :=
  busy <- isPortInUseOnSystem port ;;
  if busy then give_up_preferred preferredPort
  else
    assignPortTransaction port project requestingPid now ;;;
    ret (Assigned port).

(** The body of the [try] block of one attempt. *)
Definition attempt (project : string) (preferredPort : option Z)
    (requestingPid now : Z) : M attempt_result :=
  port <- preferred_or_find preferredPort ;;
  existing <- stmt_getByPort port ;;
  match existing with
  | Some e =>
      alive <- isProcessAlive (r_pid e) ;;
      if alive then give_up_preferred preferredPort
      else
        stmt_deleteByPort port ;;;
        probe_and_insert port project preferredPort requestingPid now
  | None => probe_and_insert port project preferredPort requestingPid now
  end.

(** The [catch] block of one attempt. *)
Definition attempt_catch (e : error) : M attempt_result :=
  match e with
  | SQLITE_CONSTRAINT_PRIMARYKEY =>
      bump inc_race_condition_retries ;;;
      ret (Continue None)
  | Error _ => throw e
  end.

(** The [for] loop over attempts, [fuel] attempts left, [n] done;
    returns [(port, retries)]. *)
Fixpoint attempts (fuel : nat) (n : Z) (project : string)
    (preferredPort : option Z) (requestingPid now : Z) : M (Z * Z) :=
  match fuel with
  | O => throw (Error "Failed to assign port after retries")
  | S fuel' =>
      r <- try_catch (attempt project preferredPort requestingPid now)
             attempt_catch ;;
      match r with
      | Assigned port => ret (port, n)
      | Continue preferredPort' =>
          attempts fuel' (n + 1) project preferredPort' requestingPid now
      end
  end.

Definition assignPortWithRetry (project : string) (preferredPort : option Z)
    (requestingPid : Z) (maxRetries : nat) : M (Z * Z) :=
  now <- Date_now ;;
  attempts maxRetries 0 project preferredPort requestingPid now.

(** *** Requests and handlers *)

Definition reject (code : Z) (msg : string) : M Response :=
  ret (res_status_json code [("error", JStr msg)]).

Definition validation_failed (msg : string) : M Response :=
  bump inc_validation_failures ;;; reject 400 msg.

(** The [catch] of every handler. *)
Definition on_error (e : error) : M Response :=
  bump inc_errors ;;;
  reject 500 (error_message e).

(** The renewal branch of a claim: [Some port] when the project has a
    row whose pid is alive, [None] otherwise (a stale row is deleted). *)
Definition renew_or_clear (project : string) (now : Z) : M (option Z) :=
  existing <- stmt_getByProject project ;;
  match existing with
  | Some e =>
      alive <- isProcessAlive (r_pid e) ;;
      if alive then
        stmt_updateLastSeen now (r_port e) ;;;
        ret (Some (r_port e))
      else stmt_deleteByPort (r_port e) ;;; ret None
  | None => ret None
  end.

(** [if (portToTry && isPortInUseOnSystem(portToTry)) portToTry = null] *)
Definition drop_if_busy (portToTry : option Z) : M (option Z) :=
  match portToTry with
  | Some p =>
      if truthyPort portToTry then
        busy <- isPortInUseOnSystem p ;;
        if busy then ret None else ret portToTry
      else ret portToTry
  | None => ret None
  end.

(** [portValidation.port && result.port === portValidation.port] *)
Definition got_preferred (validated : option Z) (port : Z) : bool :=
  match validated with
  | Some p => truthyPort validated && (port =? p)
  | None => false
  end.

(** [pidValidation.pid || process.pid] *)
Definition pid_or_self (pid : option Z) : Z :=
  match pid with
  | Some p => if truthyPort pid then p else process_pid cfg
  | None => process_pid cfg
  end.

(** [POST /ports/request] with body [{project, preferred}] and header
    [x-pid]. *)
Definition post_ports_request (project preferred x_pid : jsval)
  : M Response :=
  try_catch
    (match validateProjectName project with
     | Invalid e => validation_failed e
     | Valid _ =>
         let name := toString project in
         match validatePid x_pid with
         | Invalid e => validation_failed e
         | Valid pid =>
             let requestingPid := pid_or_self pid in
             match validatePreferredPort preferred PORT_RANGE_START
                     PORT_RANGE_END RESERVED_PORTS with
             | Invalid e => validation_failed e
             | Valid preferredPort =>
                 now <- Date_now ;;
                 renewed <- renew_or_clear name now ;;
                 match renewed with
                 | Some port =>
                     ret (res_json
                            [("port", JNum port);
                             ("message", JStr "existing assignment renewed");
                             ("existing", JBool true)])
                 | None =>
                     portToTry <- drop_if_busy preferredPort ;;
                     result <- assignPortWithRetry name portToTry
                                 requestingPid 3 ;;
                     bump inc_total_assignments ;;;
                     ret (res_json
                            [("port", JNum (fst result));
                             ("message",
                              JStr (if got_preferred preferredPort (fst result)
                                    then "assigned preferred port"
                                    else "port assigned successfully"))])
                 end
             end
         end
     end)
    on_error.

Definition is_undefined (v : jsval) : bool :=
  match v with JUndefined => true | _ => false end.

(** [DELETE /ports/release] with body [{port, project}]. A [null] port
    passes [validatePort]; bound as SQL NULL it matches no row. *)
Definition delete_ports_release (port project : jsval) : M Response :=
  try_catch
    (if negb (is_undefined port) then
       match validatePort port with
       | Invalid e => validation_failed e
       | Valid p =>
           _existing <- (match p with
                         | Some n => stmt_getByPort n
                         | None => ret None
                         end) ;;
           (match p with
            | Some n => stmt_deleteByPort n
            | None => ret tt
            end) ;;;
           bump (add_total_releases 1) ;;;
           ret (res_json
                  [("success", JBool true);
                   ("message",
                    JStr ("released port "
                          ++ match p with
                             | Some n => string_of_Z n
                             | None => "null"
                             end))])
       end
     else if negb (is_undefined project) then
       match validateProjectName project with
       | Invalid e => validation_failed e
       | Valid _ =>
           let name := toString project in
           changes <- stmt_deleteByProject name ;;
           bump (add_total_releases changes) ;;;
           ret (res_json
                  [("success", JBool true);
                   ("message",
                    JStr ("released " ++ string_of_Z changes
                          ++ " port(s) for project " ++ name))])
       end
     else reject 400 "port or project required")
    on_error.

Definition freed_json (r : Row) : jsval :=
  JObj [("port", JNum (r_port r)); ("project", JStr (r_project r))].

(** [POST /ports/cleanup]. *)
Definition post_ports_cleanup : M Response :=
  try_catch
    (freed <- cleanupStale ;;
     ret (res_json [("freed", JArr (map freed_json freed));
                    ("count", JNum (Z.of_nat (List.length freed)))]))
    on_error.

(** *** Requests reaching the server, one at a time

    Every handler is synchronous ([spawnSync], better-sqlite3), so the
    event loop runs each request, and each tick of the cleanup timer,
    to completion before the next. *)

Inductive request : Type :=
| PostPortsRequest (project preferred x_pid : jsval)
| DeletePortsRelease (port project : jsval)
| PostPortsCleanup
| CleanupTimer.

Definition handle (rq : request) (w : World) : option Response * World :=
  match rq with
  | PostPortsRequest project preferred x_pid =>
      match post_ports_request project preferred x_pid w with
      | (Return r, w') => (Some r, w')
      | (Throw _, w') => (None, w')
      end
  | DeletePortsRelease port project =>
      match delete_ports_release port project w with
      | (Return r, w') => (Some r, w')
      | (Throw _, w') => (None, w')
      end
  | PostPortsCleanup =>
      match post_ports_cleanup w with
      | (Return r, w') => (Some r, w')
      | (Throw _, w') => (None, w')
      end
  | CleanupTimer => (None, snd (cleanupStale w))
  end.

Fixpoint run (rqs : list request) (w : World) : World :=
  match rqs with
  | [] => w
  | rq :: rest => run rest (snd (handle rq w))
  end.

End Server.

(* ================================================================== *)
(** ** The hierarchical changelog ([lib/changelog.ts]) *)
(* ================================================================== *)

Module Changelog.

Record ChangelogRow : Type := mkChangelogRow {
  row_id : Z;
  row_identity : string;
  row_session_id : option string;
  row_agent_id : option string;
  row_type : string;
  row_summary : string;
  row_description : option string;
  row_metadata : option string;
  row_created_at : Z
}.

Record ChangelogEntry : Type := mkChangelogEntry {
  id : Z;
  identity : string;
  sessionId : option string;
  agentId : option string;
  type : string;
  summary : string;
  description : option string;
  metadata : option jsval;
  createdAt : Z
}.

Inductive RollupEntry : Type :=
| mkRollupEntry (identity : string) (entries : list ChangelogEntry)
                (children : list RollupEntry).

(** The table [changelog]: rows in [id] order and the AUTOINCREMENT
    counter. *)
Record Table : Type := mkTable {
  rows : list ChangelogRow;
  last_rowid : Z
}.

Definition empty_table : Table := mkTable [] 0.

(** *** SQL [LIKE], without ESCAPE: [%] matches any run of characters,
    [_] any one character, letters match without regard to case. *)

Definition to_lower (c : ascii) : ascii :=
  if in_range 65 90 c then ascii_of_nat (nat_of_ascii c + 32) else c.

Definition eqb_nocase (c d : ascii) : bool :=
  Ascii.eqb (to_lower c) (to_lower d).

Fixpoint like (pattern s : string) : bool :=
  match pattern with
  | EmptyString => is_empty s
  | String c p =>
      if Ascii.eqb c "%" then
        (fix star (t : string) : bool :=
           like p t || match t with
                       | EmptyString => false
                       | String _ t' => star t'
                       end) s
      else
        match s with
        | EmptyString => false
        | String d s' => (Ascii.eqb c "_" || eqb_nocase c d) && like p s'
        end
  end.

(** [ORDER BY created_at DESC] over rows scanned in [id] order; rows
    created in the same millisecond keep their [id] order. *)
Fixpoint insert_desc (r : ChangelogRow) (l : list ChangelogRow)
  : list ChangelogRow :=
  match l with
  | [] => [r]
  | x :: t => if row_created_at x <=? row_created_at r then r :: x :: t
              else x :: insert_desc r t
  end.

Definition order_by_created_desc (l : list ChangelogRow)
  : list ChangelogRow :=
  fold_right insert_desc [] l.

(** [LIMIT n]; a negative bound means no bound. *)
Definition sql_limit {A} (n : Z) (l : list A) : list A :=
  if n <? 0 then l else firstn (Z.to_nat n) l.

(** The bounds [LIMIT ?] takes. The number is bound as a REAL and must
    convert to a 64-bit integer without loss: it lies strictly between
    -2^63 and 2^63. With any other number the statement raises
    [SQLITE_MISMATCH], which [sql_limit] leaves out: what is stated of
    the answer of a listing is stated for the limits that bind. *)
Definition limit_binds (n : Z) : bool :=
  (- 9223372036854775808 <? n) && (n <? 9223372036854775808).

Definition stmt_listByIdentity (t : Table) (ident : string) (limit : Z)
  : list ChangelogRow :=
  sql_limit limit
    (order_by_created_desc
       (filter (fun r => String.eqb (row_identity r) ident) (rows t))).

Definition stmt_listByPrefix (t : Table) (pattern : string) (limit : Z)
  : list ChangelogRow :=
  sql_limit limit
    (order_by_created_desc
       (filter (fun r => like pattern (row_identity r)) (rows t))).

(** *** Identity hierarchy *)

Fixpoint lastIndexOf (c : ascii) (s : string) : option nat :=
  match s with
  | EmptyString => None
  | String d r =>
      match lastIndexOf c r with
      | Some i => Some (S i)
      | None => if Ascii.eqb d c then Some O else None
      end
  end.

Definition getParentIdentity (ident : string) : option string :=
  match lastIndexOf ":" ident with
  | None => None
  | Some lastColon => Some (substring 0 lastColon ident)
  end.

(** The [while (current)] loop; an empty string ends it like [null]. *)
Fixpoint ancestors_loop (fuel : nat) (current : option string)
  : list string :=
  match fuel, current with
  | S fuel', Some s =>
      if is_empty s then []
      else s :: ancestors_loop fuel' (getParentIdentity s)
  | _, _ => []
  end.

(** Every parent is strictly shorter, so the length of the identity
    bounds the number of iterations ([ancestors_loop_enough]). *)
Definition getAncestors (ident : string) : list string :=
  ancestors_loop (String.length ident) (getParentIdentity ident).

Fixpoint count_char (c : ascii) (s : string) : nat :=
  match s with
  | EmptyString => O
  | String d r => (if Ascii.eqb d c then 1 else 0) + count_char c r
  end%nat.

(** [identity.split(':').length] *)
Definition getDepth (ident : string) : nat := S (count_char ":" ident).

Section WithJSON.
(** [JSON.parse] and [JSON.stringify], used only on the [metadata]
    column. *)
Variable JSON_parse : string -> jsval.
Variable JSON_stringify : jsval -> string.

Definition formatEntry (row : ChangelogRow) : ChangelogEntry :=
  {| id := row_id row;
     identity := row_identity row;
     sessionId := row_session_id row;
     agentId := row_agent_id row;
     type := row_type row;
     summary := row_summary row;
     description := row_description row;
     metadata := match row_metadata row with
                 | Some m => if is_empty m then None
                             else Some (JSON_parse m)
                 | None => None
                 end;
     createdAt := row_created_at row |}.

Record AddOptions : Type := mkAddOptions {
  opt_identity : string;
  opt_summary : string;
  opt_type : option string;
  opt_description : option string;
  opt_sessionId : option string;
  opt_agentId : option string;
  opt_metadata : option jsval
}.

(** [x || null] on an optional string. *)
Definition or_null (x : option string) : option string :=
  match x with
  | Some s => if is_empty s then None else x
  | None => None
  end.

Record AddResult : Type := mkAddResult {
  add_success : bool;
  add_id : Z;
  add_identity : string;
  add_ancestors : list string
}.

(** [add(options)] at clock reading [now]. *)
Definition add (options : AddOptions) (now : Z) (t : Table)
  : AddResult * Table :=
  let rowid := last_rowid t + 1 in
  let row :=
    {| row_id := rowid;
       row_identity := opt_identity options;
       row_session_id := or_null (opt_sessionId options);
       row_agent_id := or_null (opt_agentId options);
       row_type := match or_null (opt_type options) with
                   | Some ty => ty
                   | None => "feature"
                   end;
       row_summary := opt_summary options;
       row_description := or_null (opt_description options);
       row_metadata := option_map JSON_stringify (opt_metadata options);
       row_created_at := now |} in
  ({| add_success := true; add_id := rowid;
      add_identity := opt_identity options;
      add_ancestors := getAncestors (opt_identity options) |},
   mkTable (rows t ++ [row])%list rowid).

Record ListResult : Type := mkListResult {
  list_success : bool;
  list_identity : string;
  list_entries : list ChangelogEntry;
  list_count : Z
}.

(** [list(identity, limit)] of the source: exact match. *)
Definition list_exact (t : Table) (ident : string) (limit : Z)
  : ListResult :=
  let rs := stmt_listByIdentity t ident limit in
  mkListResult true ident (map formatEntry rs) (Z.of_nat (List.length rs)).

Definition listTree (t : Table) (ident : string) (limit : Z)
  : ListResult :=
  let rs := stmt_listByPrefix t (ident ++ "%") limit in
  mkListResult true ident (map formatEntry rs) (Z.of_nat (List.length rs)).

Definition DEFAULT_TREE_LIMIT : Z := 100.

(** *** [rollup] *)

(** The [Map] from identity to entries, keys in first-insertion
    order. *)
Definition byIdentity_t := list (string * list ChangelogEntry).

Fixpoint map_get (m : byIdentity_t) (k : string)
  : option (list ChangelogEntry) :=
  match m with
  | [] => None
  | (k', v) :: m' => if String.eqb k' k then Some v else map_get m' k
  end.

Fixpoint map_set (m : byIdentity_t) (k : string)
    (v : list ChangelogEntry) : byIdentity_t :=
  match m with
  | [] => [(k, v)]
  | (k', v') :: m' =>
      if String.eqb k' k then (k', v) :: m' else (k', v') :: map_set m' k v
  end.

Definition group_entry (m : byIdentity_t) (entry : ChangelogEntry)
  : byIdentity_t :=
  let existing := match map_get m (identity entry) with
                  | Some es => es
                  | None => []
                  end in
  map_set m (identity entry) (existing ++ [entry])%list.

(** The keys one level below [ident]:
    [id.startsWith(prefix) && getDepth(id) === getDepth(identity) + 1]. *)
Definition childIdentities (byIdentity : byIdentity_t) (ident : string)
  : list string :=
  let pre := ident ++ ":" in
  filter (fun k => String.prefix pre k
                   && Nat.eqb (getDepth k) (getDepth ident + 1))
         (map fst byIdentity).

(** [fuel] bounds how many levels below [ident] are built. *)
Fixpoint buildNode (fuel : nat) (byIdentity : byIdentity_t)
    (ident : string) : RollupEntry :=
  let entries := match map_get byIdentity ident with
                 | Some es => es
                 | None => []
                 end in
  mkRollupEntry ident entries
    (match fuel with
     | O => []
     | S fuel' =>
         map (buildNode fuel' byIdentity) (childIdentities byIdentity ident)
     end).

Definition max_depth (m : byIdentity_t) : nat :=
  fold_right (fun kv acc => Nat.max (getDepth (fst kv)) acc) O m.

(** Children lie one level deeper than their parent and are keys of
    the map, so [max_depth] levels are all there is
    ([buildNode_enough]). *)
Definition rollup (t : Table) (rootIdentity : string) : RollupEntry :=
  let allRows := stmt_listByPrefix t (rootIdentity ++ "%") 1000 in
  let allEntries := map formatEntry allRows in
  let byIdentity := fold_left group_entry allEntries [] in
  buildNode (max_depth byIdentity) byIdentity rootIdentity.

(** All entries held anywhere in a rollup tree. *)
Fixpoint rollup_entries (n : RollupEntry) : list ChangelogEntry :=
  match n with
  | mkRollupEntry _ es cs => (es ++ flat_map rollup_entries cs)%list
  end.

End WithJSON.

End Changelog.

(* ================================================================== *)
(** ** The other queries of the changelog *)
(* ================================================================== *)

Module ChangelogQueries.
Import Changelog.

(** [session_id = ?] and [agent_id = ?]: a NULL column equals nothing. *)
Definition column_is (x : option string) (v : string) : bool :=
  match x with
  | Some s => String.eqb s v
  | None => false
  end.

Definition stmt_get (t : Table) (i : Z) : option ChangelogRow :=
  find (fun r => row_id r =? i) (rows t).

Definition stmt_listRecent (t : Table) (limit : Z) : list ChangelogRow :=
  sql_limit limit (order_by_created_desc (rows t)).

Definition stmt_listBySession (t : Table) (session : string)
  : list ChangelogRow :=
  order_by_created_desc
    (filter (fun r => column_is (row_session_id r) session) (rows t)).

Definition stmt_listByAgent (t : Table) (agent : string) (limit : Z)
  : list ChangelogRow :=
  sql_limit limit
    (order_by_created_desc
       (filter (fun r => column_is (row_agent_id r) agent) (rows t))).

Definition stmt_listSince (t : Table) (timestamp limit : Z)
  : list ChangelogRow :=
  sql_limit limit
    (order_by_created_desc
       (filter (fun r => timestamp <=? row_created_at r) (rows t))).

(** [SELECT DISTINCT identity ... ORDER BY identity]: the identities in
    the order of their character codes, each once. *)
Fixpoint insert_identity (s : string) (l : list string) : list string :=
  match l with
  | [] => [s]
  | x :: t =>
      match String.compare s x with
      | Lt => s :: x :: t
      | Eq => x :: t
      | Gt => x :: insert_identity s t
      end
  end.

Definition stmt_distinctIdentities (t : Table) : list string :=
  fold_right insert_identity [] (map row_identity (rows t)).

(** [DELETE FROM changelog WHERE created_at < ?]: [changes] and the
    table left; AUTOINCREMENT never takes the counter back. *)
Definition stmt_cleanup (t : Table) (cutoff : Z) : Z * Table :=
  (Z.of_nat (List.length
               (filter (fun r => row_created_at r <? cutoff) (rows t))),
   mkTable (filter (fun r => negb (row_created_at r <? cutoff)) (rows t))
           (last_rowid t)).

Inductive GetResult : Type :=
| Found (entry : ChangelogEntry)
| NotFound (error : string).

Record RecentResult : Type := mkRecentResult {
  recent_success : bool;
  recent_entries : list ChangelogEntry;
  recent_count : Z
}.

Record SessionResult : Type := mkSessionResult {
  session_success : bool;
  session_sessionId : string;
  session_entries : list ChangelogEntry;
  session_count : Z
}.

Record AgentResult : Type := mkAgentResult {
  agent_success : bool;
  agent_agentId : string;
  agent_entries : list ChangelogEntry;
  agent_count : Z
}.

Record SinceResult : Type := mkSinceResult {
  since_success : bool;
  since_since : Z;
  since_entries : list ChangelogEntry;
  since_count : Z
}.

Record IdentitiesResult : Type := mkIdentitiesResult {
  identities_success : bool;
  identities_list : list string;
  identities_count : Z
}.

Definition identities (t : Table) : IdentitiesResult :=
  let rs := stmt_distinctIdentities t in
  mkIdentitiesResult true rs (Z.of_nat (List.length rs)).

Definition DEFAULT_OLDER_THAN : Z := 90 * 24 * 60 * 60 * 1000.

(** [cleanup(olderThan)] at clock reading [now]; returns [cleaned]. *)
Definition cleanup (olderThan now : Z) (t : Table) : Z * Table :=
  let cutoff := now - olderThan in
  stmt_cleanup t cutoff.

Section WithJSON.
Variable JSON_parse : string -> jsval.

Definition get (t : Table) (i : Z) : GetResult :=
  match stmt_get t i with
  | None => NotFound "Entry not found"
  | Some row => Found (formatEntry JSON_parse row)
  end.

Definition recent (t : Table) (limit : Z) : RecentResult :=
  let rs := stmt_listRecent t limit in
  mkRecentResult true (map (formatEntry JSON_parse) rs)
    (Z.of_nat (List.length rs)).

Definition listBySession (t : Table) (session : string) : SessionResult :=
  let rs := stmt_listBySession t session in
  mkSessionResult true session (map (formatEntry JSON_parse) rs)
    (Z.of_nat (List.length rs)).

Definition listByAgent (t : Table) (agent : string) (limit : Z)
  : AgentResult :=
  let rs := stmt_listByAgent t agent limit in
  mkAgentResult true agent (map (formatEntry JSON_parse) rs)
    (Z.of_nat (List.length rs)).

Definition since (t : Table) (timestamp limit : Z) : SinceResult :=
  let rs := stmt_listSince t timestamp limit in
  mkSinceResult true timestamp (map (formatEntry JSON_parse) rs)
    (Z.of_nat (List.length rs)).

End WithJSON.

(** *** [exportKeepAChangelog] *)

Definition typeOrder : list string :=
  ["breaking"; "feature"; "fix"; "refactor"; "docs"; "chore"].

Definition typeLabels (ty : string) : option string :=
  if String.eqb ty "breaking" then Some "Breaking Changes"
  else if String.eqb ty "feature" then Some "Added"
  else if String.eqb ty "fix" then Some "Fixed"
  else if String.eqb ty "refactor" then Some "Changed"
  else if String.eqb ty "docs" then Some "Documentation"
  else if String.eqb ty "chore" then Some "Maintenance"
  else None.

(** One turn of the loop that fills the [Map] from type to entries. *)
Definition group_by_type (m : byIdentity_t) (entry : ChangelogEntry)
  : byIdentity_t :=
  let existing := match map_get m (type entry) with
                  | Some es => es
                  | None => []
                  end in
  map_set m (type entry) (existing ++ [entry])%list.

Definition entry_line (entry : ChangelogEntry) : string :=
  "- " ++ summary entry ++ " (`" ++ identity entry ++ "`)".

(** The lines one turn of the loop over [typeOrder] pushes. *)
Definition type_section (byType : byIdentity_t) (ty : string)
  : list string :=
  match map_get byType ty with
  | Some typeEntries =>
      if (0 <? List.length typeEntries)%nat then
        let heading := "### " ++ match typeLabels ty with
                                 | Some label => label
                                 | None => ty
                                 end in
        heading :: EmptyString
        :: (map entry_line typeEntries ++ [EmptyString])%list
      else []
  | None => []
  end.

Definition keepAChangelog_header : list string :=
  ["# Changelog";
   EmptyString;
   "All notable changes to this project are documented in this file.";
   EmptyString;
   "The format is based on [Keep a Changelog](https://keepachangelog.com/en/1.0.0/).";
   EmptyString].

(** The array [lines] before it is joined. *)
Definition keepAChangelog_lines (entries : list ChangelogEntry)
  : list string :=
  let byType := fold_left group_by_type entries [] in
  (keepAChangelog_header ++ flat_map (type_section byType) typeOrder)%list.

Definition exportKeepAChangelog (entries : list ChangelogEntry) : string :=
  join (String newline EmptyString) (keepAChangelog_lines entries).

End ChangelogQueries.

(* ================================================================== *)
(** ** The limit of the listing routes ([routes/changelog.ts]) *)
(* ================================================================== *)

Module ChangelogRoutes.

(** *** [parseInt(_)] without a radix: [0x] and [0X] announce
    hexadecimal digits, anything else is read in base 10. *)

Definition hex_digit_of (c : ascii) : option Z :=
  let n := Z.of_nat (nat_of_ascii c) in
  if (48 <=? n) && (n <=? 57) then Some (n - 48)
  else if (97 <=? n) && (n <=? 102) then Some (n - 87)
  else if (65 <=? n) && (n <=? 70) then Some (n - 55)
  else None.

Fixpoint read_hex_digits (s : string) (seen : bool) (acc : Z) : option Z :=
  match s with
  | String c r =>
      match hex_digit_of c with
      | Some d => read_hex_digits r true (16 * acc + d)
      | None => if seen then Some acc else None
      end
  | EmptyString => if seen then Some acc else None
  end.

Definition read_number (s : string) : option Z :=
  match s with
  | String "0" (String "x" r) => read_hex_digits r false 0
  | String "0" (String "X" r) => read_hex_digits r false 0
  | _ => read_digits s false 0
  end.

Definition parseInt_auto_string (s : string) : option Z :=
  match skip_white s with
  | String "-" r => option_map Z.opp (read_number r)
  | String "+" r => read_number r
  | r => read_number r
  end.

Definition parseInt_auto (v : jsval) : option Z :=
  parseInt_auto_string (toString v).

(** [Math.min(parseInt(req.query.limit) || 50, 500)], where the query
    value is [undefined] when the parameter is absent. *)
Definition route_limit (query_limit : jsval) : Z :=
  Z.min (match parseInt_auto query_limit with
         | Some n => if n =? 0 then 50 else n
         | None => 50
         end) 500.

End ChangelogRoutes.

(* ================================================================== *)
(** ** Host names of the local DNS *)
(* ================================================================== *)

Module Dns.

Fixpoint map_chars (f : ascii -> ascii) (s : string) : string :=
  match s with
  | EmptyString => EmptyString
  | String c r => String (f c) (map_chars f r)
  end.

Fixpoint keep_chars (p : ascii -> bool) (s : string) : string :=
  match s with
  | EmptyString => EmptyString
  | String c r => if p c then String c (keep_chars p r) else keep_chars p r
  end.

(** The character class [[a-zA-Z0-9-]]. *)
Definition hostname_char (c : ascii) : bool :=
  in_range 97 122 c || in_range 65 90 c || in_range 48 57 c
  || Ascii.eqb c "-".

Definition colon_to_dash (c : ascii) : ascii :=
  if Ascii.eqb c ":" then "-"%char else c.

(** [identity.replace(/:/g, '-').replace(/[^a-zA-Z0-9-]/g, '')
    .toLowerCase().slice(0, 63)]; past the second [replace] only ASCII
    letters, digits and dashes are left. *)
Definition identityToHostname (ident : string) : string :=
  substring 0 63
    (map_chars Changelog.to_lower
       (keep_chars hostname_char (map_chars colon_to_dash ident))).

End Dns.

(* ================================================================== *)
(** ** What the specification says, in its own words *)
(* ================================================================== *)

(** Segments of an identity: the pieces between colons. *)
Definition split_colon (s : string) : list string := split_char ":" s.

(** The identity shape of the specification:
    [^[A-Za-z0-9._-]+(:[A-Za-z0-9._-]+){0,2}$]. *)
Definition spec_identity_shape (s : string) : bool :=
  let segs := split_colon s in
  (List.length segs <=? 3)%nat && forallb PROJECT_NAME_REGEX_test segs.

(** The port rule of the specification: within [1024, 65535] and not
    reserved. *)
Definition spec_port_ok (reservedPorts : list Z) (port : Z) : bool :=
  (1024 <=? port) && (port <=? 65535) && negb (includes reservedPorts port).

(* ================================================================== *)
(** ** Vocabulary of the properties *)
(* ================================================================== *)

(** [hoare P m Q]: from a world satisfying [P], running [m] ends in an
    outcome and a world related by [Q]. *)
Definition hoare {A} (P : World -> Prop) (m : M A)
    (Q : outcome A -> World -> Prop) : Prop :=
  forall w, P w -> Q (fst (m w)) (snd (m w)).

(** [keeps J m]: [m] preserves [J], whether it returns or throws. *)
Definition keeps {A} (J : World -> Prop) (m : M A) : Prop :=
  hoare J m (fun _ w => J w).

(** A predicate on worlds that only looks at the database. *)
Definition on_db (I : list Row -> Prop) : World -> Prop := fun w => I (db w).

(** *** The table invariant *)

(** No two rows share a port, no two rows share a project. *)
Definition db_ok (d : list Row) : Prop :=
  NoDup (map r_port d) /\ NoDup (map r_project d).

(** The invariant, and no row at all for [project]. *)
Definition db_without (project : string) (d : list Row) : Prop :=
  db_ok d /\ ~ In project (map r_project d).

(** After an insert of [r]: the table is sound again and [r] is the row
    of its project, or the statement raised and nothing changed. *)
Definition insert_post {A} (r : Row) (o : outcome A) (w : World) : Prop :=
  match o with
  | Return _ =>
      db_ok (db w) /\ find (has_project (r_project r)) (db w) = Some r
  | Throw _ => db_without (r_project r) (db w)
  end.

(** After one attempt: a row for [project] only if the attempt
    assigned, and then it is the row just written. *)
Definition attempt_post (project : string) (pid now : Z)
    (o : outcome attempt_result) (w : World) : Prop :=
  match o with
  | Return (Assigned port) =>
      db_ok (db w)
      /\ find (has_project project) (db w)
         = Some (mkRow port project pid now now)
  | _ => db_without project (db w)
  end.

(** After [assignPortWithRetry]: the returned port is the port of the
    project's row, written with the caller's pid at time [now]; when it
    throws, the project has no row. *)
Definition assigned_post (project : string) (pid now : Z)
    (o : outcome (Z * Z)) (w : World) : Prop :=
  match o with
  | Return (port, _) =>
      db_ok (db w)
      /\ find (has_project project) (db w)
         = Some (mkRow port project pid now now)
  | Throw _ => db_without project (db w)
  end.

(** After the renewal branch: [Some port] leaves the table sound, [None]
    leaves no row for [project]. *)
Definition renew_post (project : string) (o : outcome (option Z))
    (w : World) : Prop :=
  match o with
  | Return None => db_without project (db w)
  | _ => db_ok (db w)
  end.

(** *** The port search *)

(** The scan of the specification: the first port among [n] consecutive
    ports from [port] that is not skipped. *)
Fixpoint first_free (n : nat) (port : Z) (skip : Z -> bool) : option Z :=
  match n with
  | O => None
  | S n' => if skip port then first_free n' (port + 1) skip else Some port
  end.

Definition spec_scan (cfg : Config) (skip : Z -> bool) : option Z :=
  first_free (Z.to_nat (range_end cfg - range_start cfg + 1))
             (range_start cfg) skip.

(** What [getSystemPorts] answers in world [w]: the ports the
    operating system is taken to be listening on. *)
Definition listening (os : OS) (w : World) : list Z :=
  match fst (getSystemPorts os w) with
  | Return l => map sp_port l
  | Throw _ => []
  end.


Definition no_ports : error := Error "No available ports in range".





(** *** Cleanup and answers *)

(** The rows a sweep over [entries] deletes, when [alive] tells the live
    pids. *)
Definition swept (alive : Z -> bool) (entries : list Row) (r : Row) : bool :=
  existsb (fun e => negb (alive (r_pid e)) && has_port (r_port e) r) entries.

(** A handler body that returns, returns status 200. *)
Definition answers_200 (o : outcome Response) (w : World) : Prop :=
  match o with
  | Return r => status r = 200
  | Throw _ => True
  end.

(** The precondition that asks nothing. *)
Definition anywhere (w : World) : Prop := True.

(** A request is rejected when it is answered with status 400. *)
Definition rejected (x : outcome Response * World) : Prop :=
  exists r, fst x = Return r /\ status r = 400.

(* ================================================================== *)
(** ** Concrete worlds used in examples *)
(* ================================================================== *)

Definition spawn_ok (stdout : string) : option SpawnResult :=
  Some (mkSpawnResult 0 stdout).
Definition spawn_failed : option SpawnResult :=
  Some (mkSpawnResult 1 EmptyString).

(** An operating system where pid 42 is the only live process, nothing
    listens ([lsof] exits with status 1), and the clock advances by one
    per call. *)
Definition os_quiet : OS :=
  mkOS (fun n => 1000 + Z.of_nat n)
       (fun _ pid => if pid =? 42 then spawn_ok EmptyString else spawn_failed)
       (fun _ => spawn_failed)
       (fun _ _ => spawn_failed).

Definition nl : string := String newline EmptyString.

(** A listing with two sockets on port 3100 and a line that is too
    short. *)
Definition lsof_listing : string :=
  "COMMAND PID USER FD TYPE DEVICE SIZE/OFF NODE NAME" ++ nl
  ++ "node 812 dev 22u IPv4 0x1f 0t0 TCP *:3100 (LISTEN)" ++ nl
  ++ "node 812 dev 23u IPv6 0x2a 0t0 TCP [::1]:3100 (LISTEN)" ++ nl
  ++ "lsof: short line" ++ nl.

(** As [os_quiet], but port 3100 is in the listing and the probe of
    port 3101 alone finds a listener. *)
Definition os_listening : OS :=
  mkOS (fun n => 1000 + Z.of_nat n)
       (fun _ pid => if pid =? 42 then spawn_ok EmptyString else spawn_failed)
       (fun _ => spawn_ok lsof_listing)
       (fun _ port => if port =? 3101 then spawn_ok "node 812 dev" else spawn_failed).

Definition cfg0 : Config := default_config 4242.

(** One row for [myapp], owned by the live pid 42, and the same row owned
    by the dead pid 7. *)
Definition w_live : World :=
  set_db [mkRow 3100 "myapp" 42 500 500] initial_world.
Definition w_stale : World :=
  set_db [mkRow 3100 "myapp" 7 500 500] initial_world.
Definition w_mixed : World :=
  set_db [mkRow 3100 "myapp" 42 500 500; mkRow 3101 "other" 7 600 600]
         initial_world.

(** The world after pid 42 claimed [myapp] in the empty world. *)
Definition w_claimed : World :=
  snd (post_ports_request cfg0 os_quiet (JStr "myapp") JUndefined
         (JStr "42") initial_world).

(** A row for another project on port 3102. *)
Definition w_other : World :=
  set_db [mkRow 3102 "other" 42 500 500] initial_world.

Module ChangelogExamples.
Import Changelog.

(** Stand-ins for [JSON.parse] and [JSON.stringify] in the examples,
    where no entry carries metadata. *)
Definition json_parse_stub (s : string) : jsval := JStr s.
Definition json_stringify_stub (v : jsval) : string := toString v.

Definition entry_options (ident summ : string) : AddOptions :=
  mkAddOptions ident summ None None None None None.

Definition add_entry (ident : string) (now : Z) (t : Table) : Table :=
  snd (add json_stringify_stub (entry_options ident "change") now t).

(** A table holding one entry, recorded under [a:b:c]. *)
Definition t_abc : Table := add_entry "a:b:c" 10 empty_table.

(** Entries for [myapp] and for [myapp2:api]. *)
Definition t_apps : Table :=
  add_entry "myapp2:api" 20 (add_entry "myapp" 10 empty_table).

Fixpoint add_many (n : nat) (ident : string) (t : Table) : Table :=
  match n with
  | O => t
  | S n' => add_many n' ident (add_entry ident (Z.of_nat n) t)
  end.

End ChangelogExamples.

(* ================================================================== *)
(** ** Vocabulary of the further properties of the registry *)
(* ================================================================== *)

(** A port the search may hand out over the table [d]: inside the
    configured range, not reserved, and not the port of a row. *)
Definition free_port (cfg : Config) (d : list Row) (p : Z) : Prop :=
  range_start cfg <= p <= range_end cfg
  /\ ~ In p (reserved cfg)
  /\ ~ In p (map r_port d).

(** The table attempts insert into: the table [d] they started from, or
    [d] without the rows on the preferred port. *)
Definition cleared (preferredPort : option Z) (d d1 : list Row) : Prop :=
  d1 = d
  \/ exists p, preferredPort = Some p /\ d1 = delete_where (has_port p) d.

(** What one attempt started in [w] can do. *)
Definition attempt_effect (cfg : Config) (project : string)
    (preferredPort : option Z) (pid now : Z) (w : World)
    (x : outcome attempt_result * World) : Prop :=
  metrics (snd x) = metrics w
  /\ exists d1,
       cleared preferredPort (db w) d1
       /\ match fst x with
          | Return (Continue preferredPort') =>
              db (snd x) = d1
              /\ (preferredPort' = preferredPort \/ preferredPort' = None)
          | Return (Assigned port) =>
              db (snd x) = insert_row (mkRow port project pid now now) d1
              /\ ~ In port (map r_port d1)
              /\ (preferredPort = Some port \/ free_port cfg (db w) port)
          | Throw e => e = no_ports /\ db (snd x) = d1
          end.

Definition out_of_retries : error :=
  Error "Failed to assign port after retries".

(** What the attempts of [assignPortWithRetry] started in [w] can do. *)
Definition attempts_effect (cfg : Config) (project : string)
    (preferredPort : option Z) (pid now : Z) (w : World)
    (x : outcome (Z * Z) * World) : Prop :=
  metrics (snd x) = metrics w
  /\ exists d1,
       cleared preferredPort (db w) d1
       /\ match fst x with
          | Return (port, _) =>
              db (snd x) = insert_row (mkRow port project pid now now) d1
              /\ ~ In port (map r_port d1)
              /\ (preferredPort = Some port \/ free_port cfg (db w) port)
          | Throw e =>
              (e = no_ports \/ e = out_of_retries) /\ db (snd x) = d1
          end.

(** What a claim that does not renew can do, once the project has no
    row in the table [d0]: answer 200 and insert a fresh row, stamped
    with the clock reading of [assignPortWithRetry], or answer 500 and
    insert nothing; [m] are the counters before the request. *)
Definition fresh_claim_effect (cfg : Config) (project : string)
    (preferredPort : option Z) (pid : Z) (d0 : list Row) (m : Metrics)
    (x : outcome Response * World) : Prop :=
  exists d1,
    cleared preferredPort d0 d1
    /\ ((exists port msg started,
           fst x = Return (mkResponse 200 [("port", JNum port);
                                           ("message", JStr msg)])
           /\ db (snd x)
              = insert_row (mkRow port project pid started started) d1
           /\ ~ In port (map r_port d1)
           /\ (preferredPort = Some port \/ free_port cfg d0 port)
           /\ metrics (snd x) = inc_total_assignments m)
        \/ (exists e,
              fst x = Return (mkResponse 500 [("error", JStr (error_message e))])
              /\ (e = no_ports \/ e = out_of_retries)
              /\ db (snd x) = d1
              /\ metrics (snd x) = inc_errors m)).

(** What a claim that passed validation can do in world [w]. *)
Definition valid_claim_effect (cfg : Config) (os : OS) (project : string)
    (preferredPort : option Z) (pid : Z) (w : World)
    (x : outcome Response * World) : Prop :=
  let now := os_now os (tick w) in
  match find (has_project project) (db w) with
  | Some e =>
      (fst x = Return (mkResponse 200
                         [("port", JNum (r_port e));
                          ("message", JStr "existing assignment renewed");
                          ("existing", JBool true)])
       /\ db (snd x) = update_last_seen now (r_port e) (db w)
       /\ metrics (snd x) = metrics w)
      \/ fresh_claim_effect cfg project preferredPort pid
           (delete_where (has_port (r_port e)) (db w)) (metrics w) x
  | None =>
      fresh_claim_effect cfg project preferredPort pid (db w) (metrics w) x
  end.

(** Every row sits on a port of the configured range that is not
    reserved. *)
Definition ports_in_range (cfg : Config) (d : list Row) : Prop :=
  forall r, In r d ->
    range_start cfg <= r_port r <= range_end cfg
    /\ ~ In (r_port r) (reserved cfg).

(** Strictly ascending ports: sorted, and no port twice. *)
Fixpoint ascending (l : list Z) : Prop :=
  match l with
  | [] => True
  | x :: t => (forall y, In y t -> x < y) /\ ascending t
  end.

(** The cache holds nothing, or a listing in strictly ascending port
    order. *)
Definition cache_sorted (w : World) : Prop :=
  ascending (map sp_port (data_or_empty (systemPortsCache w))).

(** *** The changelog *)

(** The table as [add] and [cleanup] keep it: no id above the
    AUTOINCREMENT counter, and no id twice. *)
Definition table_ok (t : Changelog.Table) : Prop :=
  (forall r, In r (Changelog.rows t) ->
             Changelog.row_id r <= Changelog.last_rowid t)
  /\ NoDup (map Changelog.row_id (Changelog.rows t)).

(** Timestamps from the latest to the earliest. *)
Fixpoint latest_first (l : list Z) : Prop :=
  match l with
  | [] => True
  | x :: t => (forall y, In y t -> y <= x) /\ latest_first t
  end.

(** Strings in strictly ascending order of their character codes. *)
Fixpoint strings_ascending (l : list string) : Prop :=
  match l with
  | [] => True
  | x :: t => (forall y, In y t -> String.compare x y = Lt)
              /\ strings_ascending t
  end.

(* ================================================================== *)
(** ** Reasoning about the monad *)
(* ================================================================== *)

Lemma hoare_ret {A} (P : World -> Prop) (Q : outcome A -> World -> Prop) a :
  (forall w, P w -> Q (Return a) w) -> hoare P (ret a) Q.
Proof. intros H w Hw. apply H, Hw. Qed.

Lemma hoare_throw {A} (P : World -> Prop) (Q : outcome A -> World -> Prop) e :
  (forall w, P w -> Q (Throw e) w) -> hoare P (throw e) Q.
Proof. intros H w Hw. apply H, Hw. Qed.

Lemma hoare_bind {A B} (P : World -> Prop) (m : M A) (k : A -> M B)
    (R : outcome A -> World -> Prop) (Q : outcome B -> World -> Prop) :
  hoare P m R ->
  (forall a, hoare (R (Return a)) (k a) Q) ->
  (forall e w, R (Throw e) w -> Q (Throw e) w) ->
  hoare P (bind m k) Q.
Proof.
  intros Hm Hk He w Hw. specialize (Hm w Hw). unfold bind.
  destruct (m w) as [[a | e] w1]; simpl in *.
  - apply Hk, Hm.
  - apply He, Hm.
Qed.

Lemma hoare_try_catch {A} (P : World -> Prop) (m : M A) (h : error -> M A)
    (R : outcome A -> World -> Prop) (Q : outcome A -> World -> Prop) :
  hoare P m R ->
  (forall a w, R (Return a) w -> Q (Return a) w) ->
  (forall e, hoare (R (Throw e)) (h e) Q) ->
  hoare P (try_catch m h) Q.
Proof.
  intros Hm Hr Hh w Hw. specialize (Hm w Hw). unfold try_catch.
  destruct (m w) as [[a | e] w1]; simpl in *.
  - apply Hr, Hm.
  - apply Hh, Hm.
Qed.

Lemma hoare_weaken {A} (P P' : World -> Prop) (m : M A)
    (Q Q' : outcome A -> World -> Prop) :
  hoare P m Q -> (forall w, P' w -> P w) ->
  (forall o w, Q o w -> Q' o w) -> hoare P' m Q'.
Proof. intros H HP HQ w Hw. apply HQ, H, HP, Hw. Qed.

Lemma keeps_ret {A} J (a : A) : keeps J (ret a).
Proof. intros w Hw. exact Hw. Qed.

Lemma keeps_throw {A} J e : keeps J (@throw A e).
Proof. intros w Hw. exact Hw. Qed.

Lemma keeps_gets {A} J (f : World -> A) : keeps J (gets f).
Proof. intros w Hw. exact Hw. Qed.

Lemma keeps_bind {A B} J (m : M A) (k : A -> M B) :
  keeps J m -> (forall a, keeps J (k a)) -> keeps J (bind m k).
Proof.
  intros Hm Hk. eapply hoare_bind; [exact Hm | exact Hk | auto].
Qed.

Lemma keeps_try_catch {A} J (m : M A) (h : error -> M A) :
  keeps J m -> (forall e, keeps J (h e)) -> keeps J (try_catch m h).
Proof.
  intros Hm Hh. eapply hoare_try_catch; [exact Hm | auto | exact Hh].
Qed.

Lemma keeps_modify J (f : World -> World) :
  (forall w, J w -> J (f w)) -> keeps J (modify f).
Proof. intros H w Hw. apply H, Hw. Qed.

Lemma keeps_bump I f : keeps (on_db I) (bump f).
Proof. apply keeps_modify. intros w Hw. exact Hw. Qed.

Section ServerFacts.
Variable cfg : Config.
Variable os : OS.

Lemma keeps_Date_now I : keeps (on_db I) (Date_now os).
Proof. intros w Hw. exact Hw. Qed.

Lemma keeps_isProcessAlive I pid : keeps (on_db I) (isProcessAlive os pid).
Proof. intros w Hw. exact Hw. Qed.

Lemma keeps_isPortInUseOnSystem I port :
  keeps (on_db I) (isPortInUseOnSystem os port).
Proof. intros w Hw. exact Hw. Qed.

Lemma keeps_spawn_lsof_listen I : keeps (on_db I) (spawn_lsof_listen os).
Proof. intros w Hw. exact Hw. Qed.

Lemma keeps_scan_system_ports I now :
  keeps (on_db I) (scan_system_ports os now).
Proof.
  unfold scan_system_ports.
  apply keeps_bind; [apply keeps_gets | intros cache].
  apply keeps_bind; [apply keeps_spawn_lsof_listen | intros [result |]];
    [| apply keeps_ret].
  destruct (negb (sr_status result =? 0) || is_empty (sr_stdout result));
    [apply keeps_ret |].
  apply keeps_bind; [| intros; apply keeps_ret].
  apply keeps_modify. intros w Hw. exact Hw.
Qed.

Lemma keeps_getSystemPorts I : keeps (on_db I) (getSystemPorts os).
Proof.
  unfold getSystemPorts.
  apply keeps_bind; [apply keeps_Date_now | intros now].
  apply keeps_bind; [apply keeps_gets | intros cache].
  destruct (data cache) as [d |]; [| apply keeps_scan_system_ports].
  destruct (now - timestamp cache <? SYSTEM_PORTS_CACHE_TTL);
    [apply keeps_ret | apply keeps_scan_system_ports].
Qed.

Lemma keeps_scan_range I n : forall port usedSet,
  keeps (on_db I) (scan_range os n port usedSet).
Proof.
  induction n as [| n IH]; intros port usedSet; simpl.
  - apply keeps_throw.
  - destruct (includes usedSet port); [apply IH |].
    apply keeps_bind; [apply keeps_isPortInUseOnSystem | intros busy].
    destruct busy; [apply IH | apply keeps_ret].
Qed.

Lemma keeps_findAvailablePort I : keeps (on_db I) (findAvailablePort cfg os).
Proof.
  unfold findAvailablePort.
  apply keeps_bind; [apply keeps_gets | intros dbUsed].
  apply keeps_bind; [apply keeps_getSystemPorts | intros systemPorts].
  apply keeps_scan_range.
Qed.

End ServerFacts.

(* ================================================================== *)
(** ** The table invariant *)
(* ================================================================== *)

(** Deleting rows keeps a column free of duplicates. *)
Lemma NoDup_column_filter {B} (col : Row -> B) (keep : Row -> bool)
    (d : list Row) (Hnd : NoDup (map col d)) :
  NoDup (map col (filter keep d)).
Proof.
  induction d as [| x d IH]; simpl; [constructor |].
  inversion Hnd as [| ? ? Hnin Hnd']; subst.
  destruct (keep x); simpl; [constructor |]; auto.
  intros Hin. apply Hnin. apply in_map_iff in Hin as [y [Hy Hin]].
  apply filter_In in Hin as [Hin _]. apply in_map_iff. eauto.
Qed.

Lemma In_column_filter {B} (col : Row -> B) (keep : Row -> bool)
    (d : list Row) (b : B) (Hin : In b (map col (filter keep d))) :
  In b (map col d).
Proof.
  apply in_map_iff in Hin as [x [Hx Hin]].
  apply filter_In in Hin as [Hin _]. apply in_map_iff. eauto.
Qed.

Lemma NoDup_map_inj {A B} (f : A -> B) (l : list A) a b :
  NoDup (map f l) -> In a l -> In b l -> f a = f b -> a = b.
Proof.
  induction l as [| x l IH]; simpl; intros Hnd Ha Hb Hf; [contradiction |].
  inversion Hnd as [| ? ? Hnin Hnd']; subst.
  destruct Ha as [-> | Ha], Hb as [-> | Hb]; auto.
  - exfalso. apply Hnin. rewrite Hf. apply in_map, Hb.
  - exfalso. apply Hnin. rewrite <- Hf. apply in_map, Ha.
Qed.

Lemma insert_row_perm r d : Permutation (insert_row r d) (r :: d).
Proof.
  induction d as [| x t IH]; simpl; [reflexivity |].
  destruct (r_port r <? r_port x); [reflexivity |].
  rewrite IH. apply perm_swap.
Qed.

Lemma existsb_port_false d port :
  existsb (has_port port) d = false -> ~ In port (map r_port d).
Proof.
  intros He Hin. apply in_map_iff in Hin as [r [Hr Hin]].
  assert (existsb (has_port port) d = true) as Ht.
  { apply existsb_exists. exists r. split; [exact Hin |].
    unfold has_port. lia. }
  congruence.
Qed.

Lemma db_ok_filter p d : db_ok d -> db_ok (filter p d).
Proof. intros [H1 H2]. split; apply NoDup_column_filter; assumption. Qed.

Lemma db_without_filter project p d :
  db_without project d -> db_without project (filter p d).
Proof.
  intros [Hok Hnin]. split; [apply db_ok_filter, Hok |].
  intros Hin. apply Hnin. eapply In_column_filter, Hin.
Qed.

Lemma db_ok_insert d port project pid started seen :
  db_without project d ->
  existsb (has_port port) d = false ->
  db_ok (insert_row (mkRow port project pid started seen) d).
Proof.
  intros [[Hp Hq] Hnin] He.
  pose proof (insert_row_perm (mkRow port project pid started seen) d) as Hperm.
  split.
  - eapply Permutation_NoDup;
      [apply Permutation_sym, Permutation_map, Hperm |].
    simpl. constructor; [apply existsb_port_false, He | exact Hp].
  - eapply Permutation_NoDup;
      [apply Permutation_sym, Permutation_map, Hperm |].
    simpl. constructor; assumption.
Qed.

Lemma map_port_update d port seen :
  map r_port (update_last_seen seen port d) = map r_port d.
Proof.
  unfold update_last_seen. rewrite map_map. apply map_ext. intros r.
  destruct (r_port r =? port); reflexivity.
Qed.

Lemma map_project_update d port seen :
  map r_project (update_last_seen seen port d) = map r_project d.
Proof.
  unfold update_last_seen. rewrite map_map. apply map_ext. intros r.
  destruct (r_port r =? port); reflexivity.
Qed.

Lemma find_project_update d port seen project :
  find (has_project project)
       (update_last_seen seen port d)
  = option_map (fun r => if r_port r =? port then set_last_seen seen r else r)
      (find (has_project project) d).
Proof.
  unfold update_last_seen. induction d as [| x t IH]; simpl; [reflexivity |].
  replace (has_project project
             (if r_port x =? port then set_last_seen seen x else x))
    with (has_project project x)
    by (destruct (r_port x =? port); reflexivity).
  destruct (has_project project x); [reflexivity | exact IH].
Qed.

(** Deleting the row found for a project leaves no row for it. *)
Lemma db_without_after_clear project d e :
  db_ok d ->
  find (has_project project) d = Some e ->
  db_without project (delete_where (has_port (r_port e)) d).
Proof.
  intros Hok Hfind. split; [apply db_ok_filter, Hok |].
  apply find_some in Hfind as [Hein Hproj].
  unfold has_project in Hproj. apply String.eqb_eq in Hproj.
  intros Hin. apply in_map_iff in Hin as [r [Hr Hin]].
  apply filter_In in Hin as [Hin Hne].
  assert (r = e) as ->.
  { destruct Hok as [_ Hq]. eapply NoDup_map_inj; eauto. congruence. }
  unfold has_port in Hne. rewrite Z.eqb_refl in Hne. discriminate.
Qed.

Lemma db_without_not_found project d :
  db_ok d ->
  find (has_project project) d = None ->
  db_without project d.
Proof.
  intros Hok Hfind. split; [exact Hok |].
  intros Hin. apply in_map_iff in Hin as [r [Hr Hin]].
  pose proof (find_none _ _ Hfind r Hin) as Hn. unfold has_project in Hn.
  rewrite Hr, String.eqb_refl in Hn. discriminate.
Qed.

Lemma keeps_deleteByPort I port :
  (forall p d, I d -> I (filter p d)) ->
  keeps (on_db I) (stmt_deleteByPort port).
Proof. intros H. apply keeps_modify. intros w Hw. apply H, Hw. Qed.

Lemma keeps_updateLastSeen seen port :
  keeps (on_db db_ok) (stmt_updateLastSeen seen port).
Proof.
  apply keeps_modify. intros w [Hp Hq]. unfold on_db, db_ok. simpl.
  rewrite map_port_update, map_project_update. split; assumption.
Qed.

Lemma keeps_deleteByProject project :
  keeps (on_db db_ok) (stmt_deleteByProject project).
Proof. intros w Hw. apply db_ok_filter, Hw. Qed.

Lemma find_insert_row r d :
  ~ In (r_project r) (map r_project d) ->
  find (has_project (r_project r)) (insert_row r d) = Some r.
Proof.
  unfold has_project.
  induction d as [| x t IH]; simpl; intros Hnin.
  - rewrite String.eqb_refl. reflexivity.
  - destruct (r_port r <? r_port x); simpl.
    + rewrite String.eqb_refl. reflexivity.
    + destruct (String.eqb (r_project x) (r_project r)) eqn:E.
      * apply String.eqb_eq in E. exfalso. apply Hnin. left. exact E.
      * apply IH. intros Hin. apply Hnin. right. exact Hin.
Qed.

Lemma hoare_insert project port pid started seen :
  hoare (on_db (db_without project))
        (stmt_insert port project pid started seen)
        (insert_post (mkRow port project pid started seen)).
Proof.
  intros w Hw. unfold stmt_insert.
  destruct (existsb (has_port port) (db w)) eqn:He; simpl.
  - exact Hw.
  - split; [apply db_ok_insert; assumption |].
    apply (find_insert_row (mkRow port project pid started seen)).
    apply Hw.
Qed.

Lemma hoare_bind_keeps {A B} J (m : M A) (k : A -> M B)
    (Q : outcome B -> World -> Prop) :
  keeps J m ->
  (forall a, hoare J (k a) Q) ->
  (forall e w, J w -> Q (Throw e) w) ->
  hoare J (bind m k) Q.
Proof. intros Hm Hk He. eapply hoare_bind; [exact Hm | exact Hk | exact He]. Qed.

Section Invariant.
Variable cfg : Config.
Variable os : OS.

Lemma hoare_give_up_preferred project pid now preferredPort :
  hoare (on_db (db_without project)) (give_up_preferred cfg os preferredPort)
        (attempt_post project pid now).
Proof.
  unfold give_up_preferred. destruct (truthyPort preferredPort).
  - apply hoare_bind_keeps; [apply keeps_findAvailablePort | | auto].
    intros p. apply hoare_ret. auto.
  - apply hoare_ret. auto.
Qed.

Lemma hoare_probe_and_insert port project preferredPort pid now :
  hoare (on_db (db_without project))
        (probe_and_insert cfg os port project preferredPort pid now)
        (attempt_post project pid now).
Proof.
  unfold probe_and_insert.
  apply hoare_bind_keeps; [apply keeps_isPortInUseOnSystem | | auto].
  intros busy. destruct busy; [apply hoare_give_up_preferred |].
  unfold assignPortTransaction.
  eapply hoare_bind with (R := insert_post (mkRow port project pid now now)).
  - eapply hoare_bind
      with (R := insert_post (mkRow port project pid now now));
      [apply hoare_insert | | auto].
    intros []. apply hoare_ret. auto.
  - intros b. apply hoare_ret. auto.
  - auto.
Qed.

Lemma keeps_preferred_or_find I preferredPort :
  keeps (on_db I) (preferred_or_find cfg os preferredPort).
Proof.
  unfold preferred_or_find. destruct preferredPort as [p |].
  - destruct (truthyPort (Some p));
      [apply keeps_ret | apply keeps_findAvailablePort].
  - apply keeps_findAvailablePort.
Qed.

Lemma hoare_attempt project preferredPort pid now :
  hoare (on_db (db_without project))
        (attempt cfg os project preferredPort pid now)
        (attempt_post project pid now).
Proof.
  unfold attempt.
  apply hoare_bind_keeps; [apply keeps_preferred_or_find | | auto].
  intros port.
  apply hoare_bind_keeps; [apply keeps_gets | | auto].
  intros [e |]; [| apply hoare_probe_and_insert].
  apply hoare_bind_keeps; [apply keeps_isProcessAlive | | auto].
  intros alive. destruct alive; [apply hoare_give_up_preferred |].
  apply hoare_bind_keeps; [| intros; apply hoare_probe_and_insert | auto].
  apply keeps_deleteByPort. intros p d. apply db_without_filter.
Qed.

Lemma db_without_ok project d : db_without project d -> db_ok d.
Proof. intros [H _]. exact H. Qed.

Lemma hoare_attempts project pid now fuel : forall n preferredPort,
  hoare (on_db (db_without project))
        (attempts cfg os fuel n project preferredPort pid now)
        (assigned_post project pid now).
Proof.
  induction fuel as [| fuel IH]; intros n preferredPort; simpl.
  - apply hoare_throw. auto.
  - eapply hoare_bind with (R := attempt_post project pid now).
    + eapply hoare_try_catch; [apply hoare_attempt | auto |].
      intros e. destruct e; simpl.
      * apply hoare_bind_keeps; [apply keeps_bump | | auto].
        intros _. apply hoare_ret. auto.
      * apply hoare_throw. auto.
    + intros [pp | port]; simpl.
      * apply IH.
      * apply hoare_ret. auto.
    + auto.
Qed.

Lemma assignPortWithRetry_post project preferredPort pid maxRetries w :
  db_without project (db w) ->
  assigned_post project pid (os_now os (tick w))
    (fst (assignPortWithRetry cfg os project preferredPort pid maxRetries w))
    (snd (assignPortWithRetry cfg os project preferredPort pid maxRetries w)).
Proof.
  intros Hw. unfold assignPortWithRetry, bind, Date_now.
  apply (hoare_attempts project pid (os_now os (tick w)) maxRetries 0
           preferredPort (log_call CallNow w)).
  exact Hw.
Qed.

Lemma hoare_assignPortWithRetry project preferredPort pid maxRetries :
  hoare (on_db (db_without project))
        (assignPortWithRetry cfg os project preferredPort pid maxRetries)
        (fun _ w => db_ok (db w)).
Proof.
  intros w Hw.
  pose proof (assignPortWithRetry_post project preferredPort pid
                maxRetries w Hw) as H.
  destruct (fst (assignPortWithRetry cfg os project preferredPort pid
                   maxRetries w)) as [[port n] | e]; simpl in H.
  - apply H.
  - eapply db_without_ok, H.
Qed.

Lemma hoare_renew_or_clear project now :
  hoare (on_db db_ok) (renew_or_clear os project now) (renew_post project).
Proof.
  intros w Hw. unfold renew_or_clear, bind, stmt_getByProject, gets.
  simpl.
  destruct (find (has_project project) (db w))
    as [e |] eqn:Hfind; simpl.
  - destruct (ps_alive os (tick w) (r_pid e)); simpl.
    + destruct Hw as [Hp Hq]. unfold db_ok.
      rewrite map_port_update, map_project_update. split; assumption.
    + apply db_without_after_clear; assumption.
  - apply db_without_not_found; assumption.
Qed.

Lemma keeps_drop_if_busy I portToTry :
  keeps (on_db I) (drop_if_busy os portToTry).
Proof.
  unfold drop_if_busy. destruct portToTry as [p |]; [| apply keeps_ret].
  destruct (truthyPort (Some p)); [| apply keeps_ret].
  apply keeps_bind; [apply keeps_isPortInUseOnSystem | intros busy].
  destruct busy; apply keeps_ret.
Qed.

Lemma keeps_reject I code msg : keeps (on_db I) (reject code msg).
Proof. apply keeps_ret. Qed.

Lemma keeps_validation_failed I msg : keeps (on_db I) (validation_failed msg).
Proof.
  apply keeps_bind; [apply keeps_bump | intros; apply keeps_reject].
Qed.

Lemma keeps_on_error I e : keeps (on_db I) (on_error e).
Proof.
  apply keeps_bind; [apply keeps_bump | intros; apply keeps_reject].
Qed.

Lemma keeps_post_ports_request project preferred x_pid :
  keeps (on_db db_ok) (post_ports_request cfg os project preferred x_pid).
Proof.
  unfold post_ports_request.
  apply keeps_try_catch; [| intros; apply keeps_on_error].
  destruct (validateProjectName project); [| apply keeps_validation_failed].
  destruct (validatePid x_pid) as [pid |]; [| apply keeps_validation_failed].
  destruct (validatePreferredPort _ _ _ _) as [preferredPort |];
    [| apply keeps_validation_failed].
  apply keeps_bind; [apply keeps_Date_now | intros now].
  eapply hoare_bind; [apply hoare_renew_or_clear | | auto].
  intros [port |]; simpl; [apply hoare_ret; auto |].
  apply hoare_bind_keeps;
    [apply keeps_drop_if_busy | | intros e w; apply db_without_ok].
  intros portToTry.
  eapply hoare_bind; [apply hoare_assignPortWithRetry | | auto].
  intros result.
  apply (keeps_bind (on_db db_ok)); [apply keeps_bump |].
  intros; apply keeps_ret.
Qed.

Lemma keeps_delete_ports_release port project :
  keeps (on_db db_ok) (delete_ports_release port project).
Proof.
  unfold delete_ports_release.
  apply keeps_try_catch; [| intros; apply keeps_on_error].
  destruct (negb (is_undefined port)).
  - destruct (validatePort port) as [p |]; [| apply keeps_validation_failed].
    apply keeps_bind.
    { destruct p; [apply keeps_gets | apply keeps_ret]. }
    intros _. apply keeps_bind.
    { destruct p; [| apply keeps_ret].
      apply keeps_deleteByPort. intros q d. apply db_ok_filter. }
    intros _. apply keeps_bind; [apply keeps_bump |].
    intros; apply keeps_ret.
  - destruct (negb (is_undefined project)); [| apply keeps_reject].
    destruct (validateProjectName project);
      [| apply keeps_validation_failed].
    apply keeps_bind; [apply keeps_deleteByProject | intros changes].
    apply keeps_bind; [apply keeps_bump |].
    intros; apply keeps_ret.
Qed.

Lemma keeps_cleanup_loop I entries :
  (forall p d, I d -> I (filter p d)) ->
  forall freed, keeps (on_db I) (cleanup_loop os entries freed).
Proof.
  intros HI. induction entries as [| entry rest IH]; intros freed; simpl.
  - apply keeps_ret.
  - apply keeps_bind; [apply keeps_isProcessAlive | intros alive].
    destruct alive; simpl; [apply IH |].
    apply keeps_bind; [apply keeps_deleteByPort, HI | intros; apply IH].
Qed.

Lemma keeps_cleanupStale : keeps (on_db db_ok) (cleanupStale os).
Proof.
  unfold cleanupStale.
  apply keeps_bind; [apply keeps_gets | intros entries].
  apply keeps_bind.
  { apply keeps_cleanup_loop. intros p d. apply db_ok_filter. }
  intros freed. apply keeps_bind; [| intros; apply keeps_ret].
  destruct (0 <? _); [apply keeps_bump | apply keeps_ret].
Qed.

Lemma keeps_post_ports_cleanup : keeps (on_db db_ok) (post_ports_cleanup os).
Proof.
  unfold post_ports_cleanup.
  apply keeps_try_catch; [| intros; apply keeps_on_error].
  apply keeps_bind; [apply keeps_cleanupStale | intros; apply keeps_ret].
Qed.

Lemma handle_keeps_db_ok rq w :
  db_ok (db w) -> db_ok (db (snd (handle cfg os rq w))).
Proof.
  intros Hw. destruct rq as [project preferred x_pid | port project | |];
    simpl.
  - pose proof (keeps_post_ports_request project preferred x_pid w Hw) as H.
    destruct (post_ports_request _ _ _ _ _ w) as [[r | e] w']; exact H.
  - pose proof (keeps_delete_ports_release port project w Hw) as H.
    destruct (delete_ports_release _ _ w) as [[r | e] w']; exact H.
  - pose proof (keeps_post_ports_cleanup w Hw) as H.
    destruct (post_ports_cleanup _ w) as [[r | e] w']; exact H.
  - exact (keeps_cleanupStale w Hw).
Qed.

Lemma run_keeps_db_ok rqs : forall w,
  db_ok (db w) -> db_ok (db (run cfg os rqs w)).
Proof.
  induction rqs as [| rq rest IH]; intros w Hw; simpl; [exact Hw |].
  apply IH, handle_keeps_db_ok, Hw.
Qed.

End Invariant.

(* ================================================================== *)
(** ** Properties of the port registry *)
(* ================================================================== *)

(** C2. Whatever requests arrive (claims, releases by port or by project,
    cleanup calls and timer sweeps, in any order and with any answers
    from the operating system), the table reached from the empty one has
    no two rows with the same port and no two rows with the same project.
    Handlers run to completion one after the other, so two claims issued
    at the same time are one of the two orders of this sequence. *)
Theorem ports_and_projects_unique (cfg : Config) (os : OS)
    (rqs : list (request)) :
  NoDup (map r_port (db (run cfg os rqs initial_world)))
  /\ NoDup (map r_project (db (run cfg os rqs initial_world))).
Proof.
  apply (run_keeps_db_ok cfg os rqs initial_world).
  split; constructor.
Qed.

Lemma drop_if_busy_runs (os : OS) (portToTry : option Z) (w : World) :
  exists p w', drop_if_busy os portToTry w = (Return p, w')
               /\ db w' = db w
               /\ (p = portToTry \/ p = None).
Proof.
  unfold drop_if_busy. destruct portToTry as [q |].
  - destruct (truthyPort (Some q)).
    + unfold bind, isPortInUseOnSystem.
      destruct (port_busy os (tick w) q); eexists _, _;
        (split; [reflexivity | split; [reflexivity | auto]]).
    + eexists _, _. split; [reflexivity | split; [reflexivity | auto]].
  - eexists _, _. split; [reflexivity | split; [reflexivity | auto]].
Qed.

(** The port a claim answers with status 200 is the port of the
    project's row when the request is done. *)
Lemma claim_success_row (cfg : Config) (os : OS) (name : string)
    (preferred x_pid : jsval) (w : World) (resp : Response) :
  is_valid (validateProjectName (JStr name)) = true ->
  db_ok (db w) ->
  fst (post_ports_request cfg os (JStr name) preferred x_pid w) = Return resp ->
  status resp = 200 ->
  exists row,
    find (has_project name)
         (db (snd (post_ports_request cfg os (JStr name) preferred x_pid w)))
    = Some row
    /\ js_get "port" (body resp) = Some (JNum (r_port row)).
Proof.
  intros Hproj Hok. unfold post_ports_request, try_catch, bind.
  destruct (validateProjectName (JStr name)); [| discriminate].
  destruct (validatePid x_pid) as [pid |];
    [| simpl; intros H; inversion H; subst; discriminate].
  destruct (validatePreferredPort _ _ _ _) as [preferredPort |];
    [| simpl; intros H; inversion H; subst; discriminate].
  simpl. unfold renew_or_clear, bind, stmt_getByProject, gets. simpl.
  destruct (find (has_project name) (db w)) as [e |] eqn:Hfind; simpl.
  - destruct (ps_alive os (S (tick w)) (r_pid e)) eqn:Halive;
      unfold tick in Halive |- *; simpl; rewrite Halive; simpl.
    + intros H _. inversion H; subst; clear H. simpl.
      exists (set_last_seen (os_now os (List.length (calls w))) e).
      rewrite find_project_update, Hfind. simpl. rewrite Z.eqb_refl.
      split; reflexivity.
    + set (w1 := set_db _ _).
      assert (db_without name (db w1)) as Hw1.
      { subst w1. simpl. apply db_without_after_clear; assumption. }
      destruct (drop_if_busy_runs os preferredPort w1)
        as [portToTry [w2 [Hrun [Hdb _]]]].
      rewrite Hrun. rewrite <- Hdb in Hw1.
      pose proof (assignPortWithRetry_post cfg os name portToTry
                    (pid_or_self cfg pid) 3 w2 Hw1) as Hpost.
      destruct (assignPortWithRetry cfg os name portToTry
                  (pid_or_self cfg pid) 3 w2) as [[[port n] | err] w3];
        simpl in Hpost |- *.
      * intros H _. inversion H; subst; clear H. simpl.
        eexists. split; [apply Hpost | reflexivity].
      * intros H Hst. inversion H; subst. discriminate.
  - assert (db_without name (db (log_call CallNow w))) as Hw1.
    { simpl. apply db_without_not_found; assumption. }
    destruct (drop_if_busy_runs os preferredPort (log_call CallNow w))
      as [portToTry [w2 [Hrun [Hdb _]]]].
    rewrite Hrun. rewrite <- Hdb in Hw1.
    pose proof (assignPortWithRetry_post cfg os name portToTry
                  (pid_or_self cfg pid) 3 w2 Hw1) as Hpost.
    destruct (assignPortWithRetry cfg os name portToTry
                (pid_or_self cfg pid) 3 w2) as [[[port n] | err] w3];
      simpl in Hpost |- *.
    + intros H _. inversion H; subst; clear H. simpl.
      eexists. split; [apply Hpost | reflexivity].
    + intros H Hst. inversion H; subst. discriminate.
Qed.

(** C3. A claim for a project that already has a row whose pid the
    operating system reports alive answers 200 with the recorded port and
    [existing: true], sets that row's [last_seen] to the time of the
    request, and leaves the ports and projects of the table as they were
    (no row is inserted or deleted). The recorded port is the port the
    earlier claim answered, when the world is the one that claim left. *)
Theorem claim_renews_live_owner (cfg : Config) (os : OS) (name : string)
    (preferred x_pid : jsval) (w : World) (e : Row) :
  is_valid (validateProjectName (JStr name)) = true ->
  is_valid (validatePid x_pid) = true ->
  is_valid (validatePreferredPort preferred (range_start cfg) (range_end cfg)
              (reserved cfg)) = true ->
  find (has_project name) (db w) = Some e ->
  ps_alive os (S (tick w)) (r_pid e) = true ->
  let now := os_now os (tick w) in
  let result := post_ports_request cfg os (JStr name) preferred x_pid w in
  fst result = Return (mkResponse 200
                         [("port", JNum (r_port e));
                          ("message", JStr "existing assignment renewed");
                          ("existing", JBool true)])
  /\ db (snd result) = update_last_seen now (r_port e) (db w)
  /\ map r_port (db (snd result)) = map r_port (db w)
  /\ map r_project (db (snd result)) = map r_project (db w)
  /\ find (has_project name) (db (snd result)) = Some (set_last_seen now e)
  /\ (forall preferred0 x_pid0 w0 resp0,
        db_ok (db w0) ->
        w = snd (post_ports_request cfg os (JStr name) preferred0 x_pid0 w0) ->
        fst (post_ports_request cfg os (JStr name) preferred0 x_pid0 w0)
        = Return resp0 ->
        status resp0 = 200 ->
        js_get "port" (body resp0) = Some (JNum (r_port e))).
Proof.
  intros Hproj Hpid Hport Hfind Halive now result.
  assert (result
          = (Return (mkResponse 200
                       [("port", JNum (r_port e));
                        ("message", JStr "existing assignment renewed");
                        ("existing", JBool true)]),
             set_db (update_last_seen now (r_port e) (db w))
                    (log_call (CallPs (r_pid e)) (log_call CallNow w))))
    as ->.
  { subst result. unfold post_ports_request, try_catch, bind.
    destruct (validateProjectName (JStr name)); [| discriminate].
    destruct (validatePid x_pid); [| discriminate].
    unfold PORT_RANGE_START, PORT_RANGE_END, RESERVED_PORTS.
    destruct (validatePreferredPort _ _ _ _); [| discriminate].
    simpl. unfold renew_or_clear, bind, stmt_getByProject, gets. simpl.
    rewrite Hfind. simpl. unfold tick in Halive |- *. simpl.
    rewrite Halive. reflexivity. }
  simpl. repeat split.
  - apply map_port_update.
  - apply map_project_update.
  - rewrite find_project_update, Hfind. simpl. rewrite Z.eqb_refl.
    reflexivity.
  - intros preferred0 x_pid0 w0 resp0 Hok0 Hw Hresp0 Hst0.
    destruct (claim_success_row cfg os name preferred0 x_pid0 w0 resp0
                Hproj Hok0 Hresp0 Hst0) as [row [Hrow Hp]].
    rewrite <- Hw, Hfind in Hrow. inversion Hrow; subst row. exact Hp.
Qed.

(** C4 (amended). A claim for a project whose row has a pid the operating
    system reports dead deletes that row and looks for a port. The answer
    is either 200 with body [{port, message}], in which case the project's
    only row is a fresh one holding the answered port and the caller's
    pid, or 500, in which case the project has no row. The answer never
    carries an [existing] field. *)
Theorem claim_replaces_stale_row (cfg : Config) (os : OS) (name : string)
    (preferred x_pid : jsval) (pid preferredPort : option Z)
    (w : World) (e : Row) :
  is_valid (validateProjectName (JStr name)) = true ->
  validatePid x_pid = Valid pid ->
  validatePreferredPort preferred (range_start cfg) (range_end cfg)
    (reserved cfg) = Valid preferredPort ->
  db_ok (db w) ->
  find (has_project name) (db w) = Some e ->
  ps_alive os (S (tick w)) (r_pid e) = false ->
  let result := post_ports_request cfg os (JStr name) preferred x_pid w in
  exists r,
    fst result = Return r
    /\ js_get "existing" (body r) = None
    /\ db_ok (db (snd result))
    /\ ((exists port started msg,
           r = mkResponse 200 [("port", JNum port); ("message", JStr msg)]
           /\ find (has_project name) (db (snd result))
              = Some (mkRow port name (pid_or_self cfg pid) started started))
        \/ (exists msg,
              r = mkResponse 500 [("error", JStr msg)]
              /\ ~ In name (map r_project (db (snd result))))).
Proof.
  intros Hproj Hpid Hport Hok Hfind Hdead result. subst result.
  unfold post_ports_request, try_catch, bind.
  destruct (validateProjectName (JStr name)); [| discriminate].
  rewrite Hpid.
  unfold PORT_RANGE_START, PORT_RANGE_END, RESERVED_PORTS. rewrite Hport.
  simpl. unfold renew_or_clear, bind, stmt_getByProject, gets. simpl.
  rewrite Hfind. simpl. unfold tick in Hdead |- *. simpl.
  rewrite Hdead. simpl.
  set (w1 := set_db _ _).
  assert (db_without name (db w1)) as Hw1.
  { subst w1. simpl. apply db_without_after_clear; assumption. }
  destruct (drop_if_busy_runs os preferredPort w1)
    as [portToTry [w2 [Hrun [Hdb _]]]].
  rewrite Hrun.
  rewrite <- Hdb in Hw1.
  pose proof (assignPortWithRetry_post cfg os name portToTry
                (pid_or_self cfg pid) 3 w2 Hw1) as Hpost.
  destruct (assignPortWithRetry cfg os name portToTry (pid_or_self cfg pid)
              3 w2) as [[[port n] | err] w3]; simpl in Hpost |- *.
  - destruct Hpost as [Hok3 Hrow].
    eexists. split; [reflexivity |]. split; [reflexivity |].
    split; [exact Hok3 |]. left. eexists _, _, _.
    split; [reflexivity | exact Hrow].
  - eexists. split; [reflexivity |]. split; [reflexivity |].
    split; [eapply db_without_ok, Hpost |]. right. eexists.
    split; [reflexivity | apply Hpost].
Qed.

(* ================================================================== *)
(** ** The port search *)
(* ================================================================== *)



Lemma first_free_none n : forall port skip,
  first_free n port skip = None ->
  forall q, port <= q < port + Z.of_nat n -> skip q = true.
Proof.
  induction n as [| n IH]; intros port skip H q Hq; simpl in H; [lia |].
  destruct (skip port) eqn:E; [| discriminate].
  destruct (Z.eq_dec q port) as [-> | Hne]; [exact E |].
  apply (IH _ _ H). lia.
Qed.

Lemma includes_app l1 l2 x :
  includes (l1 ++ l2)%list x = includes l1 x || includes l2 x.
Proof. unfold includes. apply existsb_app. Qed.


Lemma find_none_existsb d port :
  find (has_port port) d = None -> existsb (has_port port) d = false.
Proof.
  induction d as [| x t IH]; simpl; [reflexivity |].
  destruct (has_port port x); simpl; [discriminate | exact IH].
Qed.

Section Search.
Variable cfg : Config.
Variable os : OS.



Variable busy : Z -> bool.
Hypothesis probe_stable : forall t p, port_busy os t p = busy p.



End Search.

Section Assignment.
Variable cfg : Config.
Variable os : OS.
Variable busy : Z -> bool.
Hypothesis probe_stable : forall t p, port_busy os t p = busy p.






End Assignment.


(** When the scan finds nothing, every port of the range is skipped. *)
Lemma spec_scan_exhausted (cfg : Config) (skip : Z -> bool) (q : Z) :
  spec_scan cfg skip = None ->
  range_start cfg <= q <= range_end cfg -> skip q = true.
Proof.
  unfold spec_scan. intros H Hq. apply (first_free_none _ _ _ H). lia.
Qed.

(** *** What the validators accept *)

Lemma validatePort_some v p :
  validatePort v = Valid (Some p) ->
  parseInt v = Some p /\ 1 <= p <= 65535.
Proof.
  unfold validatePort. intros H.
  assert (match parseInt v with
          | None => Invalid "port must be between 1 and 65535"
          | Some port =>
              if (port <? 1) || (port >? 65535)
              then Invalid "port must be between 1 and 65535"
              else Valid (Some port)
          end = Valid (Some p)) as H'.
  { destruct v; try exact H; discriminate. }
  clear H. destruct (parseInt v) as [q |]; [| discriminate].
  destruct ((q <? 1) || (q >? 65535)) eqn:E; [discriminate |].
  inversion H'; subst. split; [reflexivity |].
  apply orb_false_iff in E as [E1 E2]. lia.
Qed.

Lemma validatePreferredPort_some v lo hi res p :
  validatePreferredPort v lo hi res = Valid (Some p) ->
  parseInt v = Some p /\ 1 <= p <= 65535 /\ lo <= p <= hi
  /\ includes res p = false.
Proof.
  unfold validatePreferredPort. intros H.
  destruct (validatePort v) as [[q |] | e] eqn:Hv; try discriminate.
  destruct ((q <? lo) || (q >? hi)) eqn:E; [discriminate |].
  destruct (includes res q) eqn:Er; [discriminate |].
  inversion H; subst.
  apply validatePort_some in Hv as [Hparse Hr].
  apply orb_false_iff in E as [E1 E2].
  repeat split; try assumption; lia.
Qed.



Section Eviction.
Variable cfg : Config.
Variable os : OS.
Variable busy : Z -> bool.
Hypothesis probe_stable : forall t p, port_busy os t p = busy p.



End Eviction.

Section ClaimSearch.
Variable cfg : Config.
Variable os : OS.
Variable busy : Z -> bool.
Hypothesis probe_stable : forall t p, port_busy os t p = busy p.

Variables (name : string) (preferred x_pid : jsval) (pid : option Z).
Variable w : World.
Hypothesis Hproject : is_valid (validateProjectName (JStr name)) = true.
Hypothesis Hpid : validatePid x_pid = Valid pid.
Hypothesis Hstale :
  forall e, find (has_project name) (db w) = Some e ->
            ps_alive os (S (tick w)) (r_pid e) = false.








End ClaimSearch.

(** *** The cache of the [lsof] listing *)





(* ================================================================== *)
(** ** Cleanup and release *)
(* ================================================================== *)

Lemma filter_filter_and {A} (f g : A -> bool) (l : list A) :
  filter f (filter g l) = filter (fun x => g x && f x) l.
Proof.
  induction l as [| a l IH]; simpl; [reflexivity |].
  destruct (g a); simpl; [destruct (f a) |]; rewrite IH; reflexivity.
Qed.

Section Cleanup.
Variable os : OS.
Variable alive : Z -> bool.

Lemma cleanup_loop_stable entries : forall freed w,
  (forall i pid, (i < List.length entries)%nat ->
                 ps_alive os (tick w + i) pid = alive pid) ->
  exists w',
    cleanup_loop os entries freed w
    = (Return (freed ++ filter (fun e => negb (alive (r_pid e))) entries)%list,
       w')
    /\ db w' = filter (fun r => negb (swept alive entries r)) (db w)
    /\ metrics w' = metrics w.
Proof.
  induction entries as [| entry rest IH]; intros freed w Hps; simpl.
  - exists w. rewrite app_nil_r. split; [reflexivity |]. split; [| reflexivity].
    symmetry. apply forallb_filter_id. apply forallb_forall. reflexivity.
  - unfold bind, isProcessAlive.
    pose proof (Hps O (r_pid entry) (Nat.lt_0_succ _)) as H0.
    rewrite Nat.add_0_r in H0. rewrite H0.
    assert (forall i pid, (i < List.length rest)%nat ->
              ps_alive os (S (tick w) + i) pid = alive pid) as Hrest.
    { intros i pid Hi.
    replace (S (tick w) + i)%nat with (tick w + S i)%nat by lia.
    apply Hps. simpl. lia. }
    destruct (alive (r_pid entry)) eqn:Ea; simpl.
    + destruct (IH freed (log_call (CallPs (r_pid entry)) w) Hrest)
        as [w' [Hrun [Hdb Hm]]].
      exists w'. split; [exact Hrun |]. split; [exact Hdb | exact Hm].
    + destruct (IH (freed ++ [entry])%list
                  (set_db (delete_where (has_port (r_port entry)) (db w))
                          (log_call (CallPs (r_pid entry)) w)) Hrest)
        as [w' [Hrun [Hdb Hm]]].
      exists w'. split; [| split; [| exact Hm]].
      * unfold stmt_deleteByPort, modify. rewrite Hrun.
        rewrite <- app_assoc. reflexivity.
      * rewrite Hdb. simpl. unfold delete_where.
        rewrite filter_filter_and. apply filter_ext. intros r.
        destruct (has_port (r_port entry) r); reflexivity.
Qed.

Lemma swept_own_rows d r :
  NoDup (map r_port d) -> In r d ->
  swept alive d r = negb (alive (r_pid r)).
Proof.
  intros Hnd Hin. unfold swept.
  destruct (alive (r_pid r)) eqn:Ea; simpl.
  - apply not_true_is_false. intros Hex.
    apply existsb_exists in Hex as [e [He Hc]].
    apply andb_true_iff in Hc as [Hdead Hport].
    unfold has_port in Hport. apply Z.eqb_eq in Hport.
    assert (r = e) as -> by (eapply NoDup_map_inj; eauto).
    rewrite Ea in Hdead. discriminate.
  - apply existsb_exists. exists r. split; [exact Hin |].
    rewrite Ea. unfold has_port. rewrite Z.eqb_refl. reflexivity.
Qed.

End Cleanup.

(** C8. A sweep, during which the operating system answers [alive] for
    every pid, leaves in the table exactly the rows whose pid is alive,
    unchanged and in their order, and reports the other rows as freed. *)
Theorem cleanup_removes_exactly_dead (os : OS) (alive : Z -> bool)
    (w : World) :
  NoDup (map r_port (db w)) ->
  (forall i pid, (i < List.length (db w))%nat ->
                 ps_alive os (tick w + i) pid = alive pid) ->
  db (snd (cleanupStale os w)) = filter (fun r => alive (r_pid r)) (db w)
  /\ fst (cleanupStale os w)
     = Return (filter (fun r => negb (alive (r_pid r))) (db w)).
Proof.
  intros Hnd Hps. unfold cleanupStale, bind, stmt_getAll, gets.
  destruct (cleanup_loop_stable os alive (db w) [] w Hps)
    as [w' [Hrun [Hdb Hm]]].
  rewrite Hrun. simpl.
  assert (db w' = filter (fun r => alive (r_pid r)) (db w)) as Hdb'.
  { rewrite Hdb. apply filter_ext_in. intros r Hin.
    rewrite (swept_own_rows alive (db w) r Hnd Hin).
    apply negb_involutive. }
  destruct (0 <? _); simpl; split; try reflexivity; exact Hdb'.
Qed.

(** C7 (amended). A release that passes validation answers 200 with
    [success: true] whether or not a row matches. By project it deletes
    every row of the project and names their number in its message; by
    port it deletes the rows with that port and its message names the
    port only. *)
Theorem release_deletes_matching_rows (port project : jsval) (w : World) :
  (forall p,
     is_undefined port = false ->
     validatePort port = Valid p ->
     fst (delete_ports_release port project w)
     = Return (mkResponse 200
                 [("success", JBool true);
                  ("message",
                   JStr ("released port "
                         ++ match p with
                            | Some n => string_of_Z n
                            | None => "null"
                            end))])
     /\ db (snd (delete_ports_release port project w))
        = match p with
          | Some n => delete_where (has_port n) (db w)
          | None => db w
          end)
  /\ (forall name,
        port = JUndefined ->
        project = JStr name ->
        is_valid (validateProjectName project) = true ->
        let changes :=
          Z.of_nat (List.length (filter (has_project name) (db w))) in
        fst (delete_ports_release port project w)
        = Return (mkResponse 200
                    [("success", JBool true);
                     ("message",
                      JStr ("released " ++ string_of_Z changes
                            ++ " port(s) for project " ++ name))])
        /\ db (snd (delete_ports_release port project w))
           = delete_where (has_project name) (db w)
        /\ Z.of_nat (List.length (db w))
           = Z.of_nat (List.length
                         (db (snd (delete_ports_release port project w))))
             + changes).
Proof.
  split.
  - intros p Hdef Hvalid. unfold delete_ports_release, try_catch, bind.
    rewrite Hdef, Hvalid. simpl. destruct p as [n |]; split; reflexivity.
  - intros name -> -> Hvalid changes.
    unfold delete_ports_release, try_catch, bind. cbn [is_undefined negb].
    destruct (validateProjectName (JStr name)); [| discriminate]. simpl.
    split; [reflexivity |]. split; [reflexivity |].
    subst changes. unfold delete_where. rewrite <- Nat2Z.inj_add. f_equal.
    induction (db w) as [| x t IH]; simpl; [reflexivity |].
    destruct (has_project name x); simpl; lia.
Qed.

(* ================================================================== *)
(** ** Validation of claims *)
(* ================================================================== *)

Lemma includes_In l x : includes l x = true <-> In x l.
Proof.
  unfold includes. rewrite existsb_exists. split.
  - intros [y [Hin Heq]]. apply Z.eqb_eq in Heq. subst. exact Hin.
  - intros Hin. exists x. split; [exact Hin | apply Z.eqb_refl].
Qed.

Lemma validateProjectName_valid (project : jsval) :
  is_valid (validateProjectName project) = true
  <-> exists s, project = JStr s
                /\ (1 <= String.length s <= 255)%nat
                /\ all_chars project_char s = true.
Proof.
  unfold validateProjectName. split.
  - destruct project as [| | b | n | s | l | f];
      try (cbn [truthy is_string negb orb]; rewrite ?orb_true_r;
           discriminate).
    cbn [truthy is_string negb orb toString]. rewrite orb_false_r.
    destruct (is_empty s) eqn:Ee; [discriminate |]. cbn [negb].
    destruct (Z.of_nat (String.length s) >? PROJECT_NAME_MAX_LENGTH) eqn:El;
      [discriminate |].
    unfold PROJECT_NAME_REGEX_test. rewrite Ee. cbn [negb andb].
    destruct (all_chars project_char s) eqn:Ec; [| discriminate].
    intros _. exists s. split; [reflexivity |]. split; [| exact Ec].
    unfold PROJECT_NAME_MAX_LENGTH in El.
    rewrite Z.gtb_ltb in El. apply Z.ltb_ge in El.
    destruct s; [discriminate |]. cbn [String.length] in *. lia.
  - intros [s [-> [Hlen Hc]]].
    destruct s as [| c r]; [simpl in Hlen; lia |].
    cbn [truthy is_string is_empty negb orb toString].
    destruct (Z.of_nat (String.length (String c r)) >? PROJECT_NAME_MAX_LENGTH)
      eqn:El.
    { unfold PROJECT_NAME_MAX_LENGTH in El.
      rewrite Z.gtb_ltb in El. apply Z.ltb_lt in El. lia. }
    unfold PROJECT_NAME_REGEX_test. cbn [is_empty negb andb].
    rewrite Hc. reflexivity.
Qed.

Lemma validatePort_none v :
  validatePort v = Valid None -> v = JUndefined \/ v = JNull.
Proof.
  unfold validatePort. intros H.
  destruct v; auto;
    destruct (parseInt _) as [q |] in H; try discriminate;
    destruct ((q <? 1) || (q >? 65535)) in H; discriminate.
Qed.

Lemma validatePreferredPort_none v lo hi res :
  validatePreferredPort v lo hi res = Valid None ->
  v = JUndefined \/ v = JNull.
Proof.
  unfold validatePreferredPort. intros H. apply validatePort_none.
  destruct (validatePort v) as [[q |] | e]; try discriminate; [| reflexivity].
  destruct ((q <? lo) || (q >? hi)); [discriminate |].
  destruct (includes res q); discriminate.
Qed.

Lemma validatePreferredPort_valid v lo hi res :
  is_valid (validatePreferredPort v lo hi res) = true
  <-> (v = JUndefined \/ v = JNull
       \/ exists p, parseInt v = Some p /\ 1 <= p <= 65535
                    /\ lo <= p <= hi /\ ~ In p res).
Proof.
  split.
  - intros H.
    destruct (validatePreferredPort v lo hi res) as [[p |] | e] eqn:Hv;
      [| | discriminate].
    + apply validatePreferredPort_some in Hv as [Hparse [Hr [Hlh Hres]]].
      right. right. exists p. repeat split; try assumption; try lia.
      intros Hin. apply includes_In in Hin. congruence.
    + apply validatePreferredPort_none in Hv. tauto.
  - intros [-> | [-> | [p [Hparse [Hr [Hlh Hres]]]]]]; [reflexivity ..|].
    assert (validatePort v = Valid (Some p)) as Hv.
    { unfold validatePort. rewrite Hparse.
      assert (((p <? 1) || (p >? 65535)) = false) as -> by lia.
      destruct v; try reflexivity; discriminate. }
    unfold validatePreferredPort. rewrite Hv.
    assert (((p <? lo) || (p >? hi)) = false) as -> by lia.
    destruct (includes res p) eqn:E; [| reflexivity].
    apply includes_In in E. contradiction.
Qed.

Section ClaimStatus.
Variable cfg : Config.
Variable os : OS.

Lemma hoare_anything {A} (m : M A) :
  hoare anywhere m (fun _ _ => True).
Proof. intros w _. exact I. Qed.

(** What a claim answers once its three validations have passed. *)
Lemma claim_valid_status project preferred x_pid w :
  is_valid (validateProjectName project) = true ->
  is_valid (validatePid x_pid) = true ->
  is_valid (validatePreferredPort preferred (range_start cfg) (range_end cfg)
              (reserved cfg)) = true ->
  exists r w',
    post_ports_request cfg os project preferred x_pid w = (Return r, w')
    /\ (status r = 200 \/ status r = 500).
Proof.
  intros Hproject Hpid Hport. unfold post_ports_request.
  destruct (validateProjectName project); [| discriminate].
  destruct (validatePid x_pid) as [pid |]; [| discriminate].
  unfold PORT_RANGE_START, PORT_RANGE_END, RESERVED_PORTS.
  destruct (validatePreferredPort _ _ _ _) as [preferredPort |];
    [| discriminate].
  match goal with
  | |- context [try_catch ?m on_error] =>
      assert (hoare anywhere m answers_200) as Hm
  end.
  { eapply hoare_bind with (R := fun _ _ => anywhere w);
      [apply hoare_anything | intros now | intros; exact I].
    eapply hoare_bind with (R := fun _ _ => anywhere w);
      [intros ? ?; exact I | intros renewed | intros; exact I].
    destruct renewed as [port |]; [apply hoare_ret; reflexivity |].
    eapply hoare_bind with (R := fun _ _ => anywhere w);
      [intros ? ?; exact I | intros portToTry | intros; exact I].
    eapply hoare_bind with (R := fun _ _ => anywhere w);
      [intros ? ?; exact I | intros result | intros; exact I].
    eapply hoare_bind with (R := fun _ _ => anywhere w);
      [intros ? ?; exact I | intros _ | intros; exact I].
    apply hoare_ret. reflexivity. }
  specialize (Hm w I). unfold try_catch.
  match goal with
  | |- context [match ?m w with _ => _ end] => destruct (m w) as [[r | e] w']
  end; simpl in Hm.
  - exists r, w'. split; [reflexivity | left; exact Hm].
  - eexists _, _. split; [reflexivity | right; reflexivity].
Qed.

Lemma claim_invalid_project project preferred x_pid w e :
  validateProjectName project = Invalid e ->
  post_ports_request cfg os project preferred x_pid w
  = (Return (mkResponse 400 [("error", JStr e)]),
     set_metrics (inc_validation_failures (metrics w)) w).
Proof. intros H. unfold post_ports_request. rewrite H. reflexivity. Qed.

Lemma claim_invalid_port project preferred x_pid w e :
  is_valid (validateProjectName project) = true ->
  is_valid (validatePid x_pid) = true ->
  validatePreferredPort preferred (range_start cfg) (range_end cfg)
    (reserved cfg) = Invalid e ->
  post_ports_request cfg os project preferred x_pid w
  = (Return (mkResponse 400 [("error", JStr e)]),
     set_metrics (inc_validation_failures (metrics w)) w).
Proof.
  intros Hproject Hpid H. unfold post_ports_request.
  destruct (validateProjectName project); [| discriminate].
  destruct (validatePid x_pid); [| discriminate].
  unfold PORT_RANGE_START, PORT_RANGE_END, RESERVED_PORTS.
  rewrite H. reflexivity.
Qed.

End ClaimStatus.

(** C1 (amended). A claim passes the validation of its project name
    exactly when the name is a string of 1 to 255 characters, each of
    them a letter, a digit, a dot, an underscore or a dash: a single
    segment. Any other value, a name with a colon included, is rejected
    with status 400 and leaves the table as it is; a claim whose name,
    pid header and preferred port all pass validation is not rejected. *)
Theorem claim_project_name_validation (cfg : Config) (os : OS)
    (project preferred x_pid : jsval) (w : World) :
  (is_valid (validateProjectName project) = true
   <-> exists s, project = JStr s
                 /\ (1 <= String.length s <= 255)%nat
                 /\ all_chars project_char s = true)
  /\ (is_valid (validateProjectName project) = false ->
      rejected (post_ports_request cfg os project preferred x_pid w)
      /\ db (snd (post_ports_request cfg os project preferred x_pid w))
         = db w)
  /\ (is_valid (validateProjectName project) = true ->
      is_valid (validatePid x_pid) = true ->
      is_valid (validatePreferredPort preferred (range_start cfg)
                  (range_end cfg) (reserved cfg)) = true ->
      ~ rejected (post_ports_request cfg os project preferred x_pid w)).
Proof.
  split; [apply validateProjectName_valid |]. split.
  - intros Hinv.
    destruct (validateProjectName project) as [u | e] eqn:E; [discriminate |].
    rewrite (claim_invalid_project cfg os project preferred x_pid w e E).
    split; [| reflexivity]. eexists. split; reflexivity.
  - intros Hproject Hpid Hport [r [Hr H400]].
    destruct (claim_valid_status cfg os project preferred x_pid w
                Hproject Hpid Hport) as [r' [w' [Heq Hst]]].
    rewrite Heq in Hr. simpl in Hr. inversion Hr; subst. lia.
Qed.

(** C6 (amended). For a claim whose project name and pid header pass
    validation, a preferred port that parses to the integer [p] is
    rejected with status 400 exactly when [p] is outside [1, 65535],
    outside the configured range or reserved; a preferred port that does
    not parse is rejected; an absent or null one is not. *)
Theorem claim_preferred_port_validation (cfg : Config) (os : OS)
    (project preferred x_pid : jsval) (w : World) :
  is_valid (validateProjectName project) = true ->
  is_valid (validatePid x_pid) = true ->
  let answer := post_ports_request cfg os project preferred x_pid w in
  (preferred = JUndefined \/ preferred = JNull -> ~ rejected answer)
  /\ (preferred <> JUndefined -> preferred <> JNull ->
      parseInt preferred = None -> rejected answer)
  /\ (forall p,
        preferred <> JUndefined -> preferred <> JNull ->
        parseInt preferred = Some p ->
        (rejected answer
         <-> (p < 1 \/ 65535 < p
              \/ p < range_start cfg \/ range_end cfg < p
              \/ In p (reserved cfg)))).
Proof.
  intros Hproject Hpid answer.
  assert (forall b,
            is_valid (validatePreferredPort preferred (range_start cfg)
                        (range_end cfg) (reserved cfg)) = b ->
            (rejected answer <-> b = false)) as Hiff.
  { intros b Hb. subst answer. destruct b.
    - split; [| discriminate]. intros [r [Hr H400]].
      destruct (claim_valid_status cfg os project preferred x_pid w
                  Hproject Hpid Hb) as [r' [w' [Heq Hst]]].
      rewrite Heq in Hr. simpl in Hr. inversion Hr; subst. lia.
    - split; [reflexivity |]. intros _.
      destruct (validatePreferredPort _ _ _ _) as [u | e] eqn:E;
        [discriminate |].
      rewrite (claim_invalid_port cfg os project preferred x_pid w e
                 Hproject Hpid E).
      eexists. split; reflexivity. }
  split; [| split].
  - intros Habsent Hrej.
    assert (is_valid (validatePreferredPort preferred (range_start cfg)
                        (range_end cfg) (reserved cfg)) = true) as Hv
      by (apply validatePreferredPort_valid; tauto).
    apply (Hiff true Hv) in Hrej. discriminate.
  - intros Hu Hn Hnan.
    destruct (is_valid (validatePreferredPort preferred (range_start cfg)
                          (range_end cfg) (reserved cfg))) eqn:Hv.
    + apply validatePreferredPort_valid in Hv as [? | [? | [p [Hp _]]]]; congruence.
    + apply (Hiff false eq_refl). reflexivity.
  - intros p Hu Hn Hparse.
    destruct (is_valid (validatePreferredPort preferred (range_start cfg)
                          (range_end cfg) (reserved cfg))) eqn:Hv.
    + rewrite (Hiff true eq_refl).
      apply validatePreferredPort_valid in Hv as [? | [? | [q [Hq [Hr [Hlh Hres]]]]]];
        try contradiction.
      assert (q = p) as -> by congruence.
      split; [discriminate |]. intros [? | [? | [? | [? | ?]]]];
        try lia; contradiction.
    + rewrite (Hiff false eq_refl). split; [| reflexivity]. intros _.
      destruct (Z_lt_dec p 1); [tauto |].
      destruct (Z_lt_dec 65535 p); [tauto |].
      destruct (Z_lt_dec p (range_start cfg)); [tauto |].
      destruct (Z_lt_dec (range_end cfg) p); [tauto |].
      destruct (in_dec Z.eq_dec p (reserved cfg)); [tauto |].
      exfalso.
      assert (is_valid (validatePreferredPort preferred (range_start cfg)
                          (range_end cfg) (reserved cfg)) = true) as Hv'.
      { apply validatePreferredPort_valid. right. right. exists p.
        repeat split; try assumption; lia. }
      congruence.
Qed.

(* ================================================================== *)
(** ** Properties of the changelog *)
(* ================================================================== *)

Module ChangelogFacts.
Import Changelog.

(** *** Ancestors *)

Lemma lastIndexOf_bound c s i :
  lastIndexOf c s = Some i -> (i < String.length s)%nat.
Proof.
  revert i. induction s as [| d r IH]; simpl; intros i H; [discriminate |].
  destruct (lastIndexOf c r) as [j |].
  - inversion H; subst. specialize (IH j eq_refl). lia.
  - destruct (Ascii.eqb d c); [| discriminate]. inversion H; subst. lia.
Qed.

Lemma substring_length_le n : forall s,
  (String.length (substring 0 n s) <= n)%nat.
Proof.
  induction n as [| n IH]; intros s; destruct s; simpl; try lia.
  specialize (IH s). lia.
Qed.

Lemma getParentIdentity_shorter s parent :
  getParentIdentity s = Some parent ->
  (String.length parent < String.length s)%nat.
Proof.
  unfold getParentIdentity. destruct (lastIndexOf ":" s) as [i |] eqn:E;
    [| discriminate].
  intros H. inversion H; subst. apply lastIndexOf_bound in E.
  pose proof (substring_length_le i s). lia.
Qed.

(** The loop of [getAncestors] never stops for want of fuel: any fuel
    above the length of the current identity gives the same list. *)
Lemma ancestors_loop_enough fuel : forall fuel' current,
  (match current with
   | Some s => String.length s < fuel
   | None => True
   end)%nat ->
  (fuel <= fuel')%nat ->
  ancestors_loop fuel' current = ancestors_loop fuel current.
Proof.
  induction fuel as [| fuel IH]; intros fuel' current Hlen Hle.
  - destruct current as [s |]; [lia |]. destruct fuel'; reflexivity.
  - destruct fuel' as [| fuel']; [lia |]. simpl.
    destruct current as [s |]; [| reflexivity].
    destruct (is_empty s); [reflexivity |]. f_equal.
    apply IH; [| lia].
    destruct (getParentIdentity s) as [parent |] eqn:E; [| exact I].
    apply getParentIdentity_shorter in E. lia.
Qed.

Lemma getAncestors_unfold ident :
  getAncestors ident
  = match getParentIdentity ident with
    | Some parent =>
        if is_empty parent then [] else parent :: getAncestors parent
    | None => []
    end.
Proof.
  unfold getAncestors.
  destruct (getParentIdentity ident) as [parent |] eqn:E.
  - pose proof (getParentIdentity_shorter _ _ E) as Hlt.
    destruct (String.length ident) as [| n] eqn:En; [lia |]. simpl.
    destruct (is_empty parent); [reflexivity |]. f_equal.
    apply ancestors_loop_enough; [| lia].
    destruct (getParentIdentity parent) as [pp |] eqn:Ep; [| exact I].
    apply getParentIdentity_shorter in Ep. lia.
  - destruct (String.length ident); reflexivity.
Qed.

Lemma append_assoc (x y z : string) : (x ++ y) ++ z = x ++ y ++ z.
Proof.
  induction x as [| d r IH]; simpl; [reflexivity |]. rewrite IH. reflexivity.
Qed.

Lemma lastIndexOf_no_colon s :
  count_char ":" s = O -> lastIndexOf ":" s = None.
Proof.
  induction s as [| d r IH]; simpl; [reflexivity |].
  destruct (Ascii.eqb d ":"); [discriminate |]. intros H.
  rewrite (IH H). reflexivity.
Qed.

Lemma lastIndexOf_last_colon p c :
  count_char ":" c = O ->
  lastIndexOf ":" (p ++ ":" ++ c) = Some (String.length p).
Proof.
  intros Hc. induction p as [| d r IH]; simpl.
  - rewrite (lastIndexOf_no_colon c Hc). reflexivity.
  - simpl in IH. rewrite IH. reflexivity.
Qed.

Lemma substring_prefix p rest :
  substring 0 (String.length p) (p ++ rest) = p.
Proof.
  induction p as [| d r IH]; simpl.
  - destruct rest; reflexivity.
  - rewrite IH. reflexivity.
Qed.

Lemma getParentIdentity_segment p c :
  count_char ":" c = O ->
  getParentIdentity (p ++ ":" ++ c) = Some p.
Proof.
  intros Hc. unfold getParentIdentity.
  rewrite (lastIndexOf_last_colon p c Hc), substring_prefix. reflexivity.
Qed.

Lemma getParentIdentity_root a :
  count_char ":" a = O -> getParentIdentity a = None.
Proof.
  intros Ha. unfold getParentIdentity.
  rewrite (lastIndexOf_no_colon a Ha). reflexivity.
Qed.

(** The ancestors of [a:b:c], for segments free of colons and a
    non-empty first one, are [a:b] then [a]. *)
Lemma getAncestors_three_segments a b c :
  is_empty a = false ->
  count_char ":" a = O -> count_char ":" b = O -> count_char ":" c = O ->
  getAncestors (a ++ ":" ++ b ++ ":" ++ c) = [a ++ ":" ++ b; a].
Proof.
  intros Hne Ha Hb Hc.
  replace (a ++ ":" ++ b ++ ":" ++ c) with ((a ++ ":" ++ b) ++ ":" ++ c).
  2:{ rewrite append_assoc. reflexivity. }
  rewrite getAncestors_unfold, (getParentIdentity_segment _ c Hc).
  assert (is_empty (a ++ ":" ++ b) = false) as ->
    by (destruct a; [discriminate | reflexivity]).
  f_equal.
  rewrite getAncestors_unfold, (getParentIdentity_segment a b Hb), Hne.
  f_equal.
  rewrite getAncestors_unfold, (getParentIdentity_root a Ha). reflexivity.
Qed.

(** *** [rollup] builds every level there is *)

Lemma getDepth_le_max_depth {E} (m : list (string * E)) k :
  In k (map fst m) ->
  (getDepth k <= fold_right (fun kv acc => Nat.max (getDepth (fst kv)) acc)
                            O m)%nat.
Proof.
  induction m as [| kv m IH]; intros Hin; [contradiction |].
  cbn [map] in Hin. cbn [fold_right]. destruct Hin as [<- | Hin].
  - apply Nat.le_max_l.
  - etransitivity; [apply IH, Hin | apply Nat.le_max_r].
Qed.

Lemma filter_none {A} (f : A -> bool) (l : list A) :
  (forall x, In x l -> f x = false) -> filter f l = [].
Proof.
  induction l as [| a l IH]; intros H; simpl; [reflexivity |].
  rewrite (H a (or_introl eq_refl)). apply IH. intros x Hx.
  apply H. right. exact Hx.
Qed.

Lemma buildNode_step fuel byIdentity ident :
  buildNode (S fuel) byIdentity ident
  = mkRollupEntry ident
      (match map_get byIdentity ident with Some es => es | None => [] end)
      (map (buildNode fuel byIdentity) (childIdentities byIdentity ident)).
Proof. reflexivity. Qed.

Lemma buildNode_enough byIdentity k : forall ident f1 f2,
  (max_depth byIdentity < getDepth ident + k)%nat ->
  (k <= f1)%nat -> (k <= f2)%nat ->
  buildNode f1 byIdentity ident = buildNode f2 byIdentity ident.
Proof.
  induction k as [| k IH]; intros ident f1 f2 Hdeep H1 H2.
  - assert (childIdentities byIdentity ident = []) as Hnone.
    { apply filter_none. intros key Hin.
      pose proof (getDepth_le_max_depth byIdentity key Hin) as Hle.
      fold (max_depth byIdentity) in Hle.
      destruct (Nat.eqb (getDepth key) (getDepth ident + 1)) eqn:E.
      - apply Nat.eqb_eq in E. lia.
      - apply andb_false_r. }
    destruct f1, f2; rewrite ?buildNode_step, ?Hnone; reflexivity.
  - destruct f1 as [| f1]; [lia |]. destruct f2 as [| f2]; [lia |].
    rewrite !buildNode_step. f_equal. apply map_ext_in. intros child Hin.
    apply filter_In in Hin as [_ Hc].
    apply andb_true_iff in Hc as [_ Hd]. apply Nat.eqb_eq in Hd.
    apply IH; lia.
Qed.

(** A node with no stored identity one level below it has no children,
    whatever is stored further down. *)
Lemma buildNode_without_children fuel byIdentity ident :
  childIdentities byIdentity ident = [] ->
  buildNode fuel byIdentity ident
  = mkRollupEntry ident
      (match map_get byIdentity ident with Some es => es | None => [] end)
      [].
Proof.
  intros Hnone. destruct fuel; [reflexivity |].
  rewrite buildNode_step, Hnone. reflexivity.
Qed.

(** More fuel than [rollup] gives changes nothing. *)
Lemma rollup_fuel_enough byIdentity ident fuel :
  (max_depth byIdentity <= fuel)%nat ->
  buildNode fuel byIdentity ident
  = buildNode (max_depth byIdentity) byIdentity ident.
Proof.
  intros Hle. apply (buildNode_enough byIdentity (max_depth byIdentity));
    unfold getDepth; lia.
Qed.

(** *** Matching by pattern *)

Lemma like_star p s :
  like (String "%" p) s
  = like p s || match s with
                | EmptyString => false
                | String _ t => like (String "%" p) t
                end.
Proof. destruct s; reflexivity. Qed.

Lemma like_percent s : like "%" s = true.
Proof.
  induction s as [| d r IH]; rewrite like_star; [reflexivity |].
  rewrite IH. apply orb_true_r.
Qed.

Lemma eqb_nocase_refl c : eqb_nocase c c = true.
Proof. unfold eqb_nocase. apply Ascii.eqb_refl. Qed.

(** An identity that begins with [q] matches the pattern [q%]. *)
Lemma like_prefix q : forall s,
  String.prefix q s = true -> like (q ++ "%") s = true.
Proof.
  induction q as [| c q IH]; intros s Hpre.
  - apply like_percent.
  - destruct s as [| d s]; [discriminate |]. simpl in Hpre.
    destruct (ascii_dec c d) as [<- | Hne]; [| discriminate].
    specialize (IH s Hpre).
    change (String c q ++ "%") with (String c (q ++ "%")).
    destruct (Ascii.eqb c "%") eqn:E.
    + apply Ascii.eqb_eq in E. subst c.
      rewrite like_star. rewrite (like_star (q ++ "%") s), IH.
      simpl. apply orb_true_r.
    + simpl. rewrite E, eqb_nocase_refl, IH, orb_true_r. reflexivity.
Qed.

(** *** Ordering and limit *)

Lemma insert_desc_perm r l : Permutation (insert_desc r l) (r :: l).
Proof.
  induction l as [| x t IH]; simpl; [reflexivity |].
  destruct (row_created_at x <=? row_created_at r); [reflexivity |].
  rewrite IH. apply perm_swap.
Qed.

Lemma order_by_created_desc_perm l :
  Permutation (order_by_created_desc l) l.
Proof.
  unfold order_by_created_desc. induction l as [| x t IH]; simpl;
    [reflexivity |].
  rewrite insert_desc_perm. apply perm_skip, IH.
Qed.

Lemma sql_limit_all {A} (limit : Z) (l : list A) :
  limit < 0 \/ Z.of_nat (List.length l) <= limit ->
  sql_limit limit l = l.
Proof.
  intros H. unfold sql_limit. destruct (limit <? 0) eqn:E; [reflexivity |].
  apply firstn_all2. apply Z.ltb_ge in E. lia.
Qed.

Lemma sql_limit_length {A} (limit : Z) (l : list A) :
  0 <= limit -> Z.of_nat (List.length (sql_limit limit l)) <= limit.
Proof.
  intros H. unfold sql_limit. destruct (limit <? 0) eqn:E; [lia |].
  rewrite length_firstn. lia.
Qed.

End ChangelogFacts.

(* ================================================================== *)
(** ** The claims on concrete requests *)
(* ================================================================== *)

(** C1, counterexample. The two-segment identity [myapp:api] has the
    shape of the specification, and a claim carrying it is rejected with
    status 400. *)
Lemma claim_with_colon_identity_rejected :
  spec_identity_shape "myapp:api" = true
  /\ fst (post_ports_request cfg0 os_quiet (JStr "myapp:api") JUndefined
            JUndefined initial_world)
     = Return (mkResponse 400
                 [("error",
                   JStr "project name contains invalid characters (use alphanumeric, dash, underscore, dot)")]).
Proof. split; reflexivity. Qed.

Lemma claim_project_name_validation_witness :
  rejected (post_ports_request cfg0 os_quiet (JStr "myapp:api") JUndefined
              JUndefined initial_world)
  /\ ~ rejected (post_ports_request cfg0 os_quiet (JStr "my-app_v1.0")
                   JUndefined JUndefined initial_world).
Proof.
  split.
  - apply (proj1 (proj2 (claim_project_name_validation cfg0 os_quiet
                           (JStr "myapp:api") JUndefined JUndefined
                           initial_world))).
    reflexivity.
  - apply (proj2 (proj2 (claim_project_name_validation cfg0 os_quiet
                           (JStr "my-app_v1.0") JUndefined JUndefined
                           initial_world))); reflexivity.
Defined.

(** The first claim is answered with port 3100, and so is the second,
    with [existing: true]. *)
Lemma claim_renews_live_owner_witness :
  fst (post_ports_request cfg0 os_quiet (JStr "myapp") JUndefined
         (JStr "42") initial_world)
  = Return (mkResponse 200
              [("port", JNum 3100);
               ("message", JStr "port assigned successfully")])
  /\ fst (post_ports_request cfg0 os_quiet (JStr "myapp") JUndefined
            (JStr "42") w_claimed)
     = Return (mkResponse 200
                 [("port", JNum 3100);
                  ("message", JStr "existing assignment renewed");
                  ("existing", JBool true)])
  /\ db (snd (post_ports_request cfg0 os_quiet (JStr "myapp") JUndefined
                (JStr "42") w_claimed))
     = [mkRow 3100 "myapp" 42 1001 1006].
Proof.
  destruct (claim_renews_live_owner cfg0 os_quiet "myapp" JUndefined
              (JStr "42") w_claimed (mkRow 3100 "myapp" 42 1001 1001)
              eq_refl eq_refl eq_refl eq_refl eq_refl) as [H1 [H2 _]].
  split; [reflexivity |]. split; [exact H1 | exact H2].
Defined.

(** C4, counterexample. A claim for [myapp], whose row belongs to the
    dead pid 7, succeeds with a body that has no [existing] field. *)
Lemma stale_claim_answer_has_no_existing_field :
  exists r,
    fst (post_ports_request cfg0 os_quiet (JStr "myapp") JUndefined
           JUndefined w_stale) = Return r
    /\ status r = 200
    /\ body r = [("port", JNum 3100);
                 ("message", JStr "port assigned successfully")]
    /\ js_get "existing" (body r) <> Some (JBool false).
Proof.
  eexists. split; [reflexivity |]. split; [reflexivity |].
  split; [reflexivity |]. discriminate.
Qed.

Lemma claim_replaces_stale_row_witness :
  exists r,
    fst (post_ports_request cfg0 os_quiet (JStr "myapp") JUndefined
           JUndefined w_stale) = Return r
    /\ js_get "existing" (body r) = None
    /\ db_ok (db (snd (post_ports_request cfg0 os_quiet (JStr "myapp")
                         JUndefined JUndefined w_stale))).
Proof.
  destruct (claim_replaces_stale_row cfg0 os_quiet "myapp" JUndefined
              JUndefined None None w_stale (mkRow 3100 "myapp" 7 500 500)
              eq_refl eq_refl eq_refl
              (conj (NoDup_cons _ (@in_nil _ _) (NoDup_nil _))
                    (NoDup_cons _ (@in_nil _ _) (NoDup_nil _)))
              eq_refl eq_refl) as [r [H1 [H2 [H3 _]]]].
  exists r. split; [exact H1 |]. split; [exact H2 | exact H3].
Defined.





(** C6, counterexample. Port 2000 lies in [1024, 65535] and is not
    reserved, and a claim preferring it is rejected with status 400. *)
Lemma preferred_port_below_range_rejected :
  spec_port_ok (reserved cfg0) 2000 = true
  /\ fst (post_ports_request cfg0 os_quiet (JStr "myapp") (JNum 2000)
            JUndefined initial_world)
     = Return (mkResponse 400
                 [("error", JStr "preferred port must be in range 3100-9999")]).
Proof. split; reflexivity. Qed.

Lemma claim_preferred_port_validation_witness :
  rejected (post_ports_request cfg0 os_quiet (JStr "myapp") (JNum 2000)
              JUndefined initial_world)
  /\ ~ rejected (post_ports_request cfg0 os_quiet (JStr "myapp") (JNum 5000)
                   JUndefined initial_world).
Proof.
  split.
  - apply (proj2 (proj2 (claim_preferred_port_validation cfg0 os_quiet
                           (JStr "myapp") (JNum 2000) JUndefined
                           initial_world eq_refl eq_refl))
             2000); [discriminate | discriminate | reflexivity |].
    right. right. left. reflexivity.
  - intros Hrej.
    apply (proj2 (proj2 (claim_preferred_port_validation cfg0 os_quiet
                           (JStr "myapp") (JNum 5000) JUndefined
                           initial_world eq_refl eq_refl))
             5000) in Hrej; [| discriminate | discriminate | reflexivity].
    simpl in Hrej.
    destruct Hrej as [H | [H | [H | [H | [H | [H | [H | []]]]]]]];
      discriminate H.
Defined.

(** C7, counterexample. Releasing port 3100 gives the same answer when a
    row is deleted and when none is, and the answer has no count. *)
Lemma release_by_port_reports_no_count :
  let hit := delete_ports_release (JNum 3100) JUndefined w_live in
  let miss := delete_ports_release (JNum 3100) JUndefined initial_world in
  List.length (db w_live) = 1%nat
  /\ List.length (db (snd hit)) = 0%nat
  /\ List.length (db initial_world) = List.length (db (snd miss))
  /\ fst hit = fst miss
  /\ fst hit = Return (mkResponse 200
                         [("success", JBool true);
                          ("message", JStr "released port 3100")])
  /\ js_get "released" [("success", JBool true);
                        ("message", JStr "released port 3100")] = None.
Proof. repeat split. Qed.

Lemma release_deletes_matching_rows_witness :
  fst (delete_ports_release (JNum 3101) JUndefined w_mixed)
  = Return (mkResponse 200
              [("success", JBool true);
               ("message", JStr "released port 3101")])
  /\ fst (delete_ports_release JUndefined (JStr "absent") w_mixed)
     = Return (mkResponse 200
                 [("success", JBool true);
                  ("message", JStr "released 0 port(s) for project absent")])
  /\ db (snd (delete_ports_release JUndefined (JStr "absent") w_mixed))
     = db w_mixed.
Proof.
  split; [| split].
  - exact (proj1 (proj1 (release_deletes_matching_rows (JNum 3101)
                           JUndefined w_mixed)
                        (Some 3101) eq_refl eq_refl)).
  - exact (proj1 (proj2 (release_deletes_matching_rows JUndefined
                           (JStr "absent") w_mixed)
                        "absent" eq_refl eq_refl eq_refl)).
  - exact (proj1 (proj2 (proj2 (release_deletes_matching_rows JUndefined
                                  (JStr "absent") w_mixed)
                               "absent" eq_refl eq_refl eq_refl))).
Defined.

Lemma cleanup_removes_exactly_dead_witness :
  db (snd (cleanupStale os_quiet w_mixed)) = [mkRow 3100 "myapp" 42 500 500]
  /\ fst (cleanupStale os_quiet w_mixed)
     = Return [mkRow 3101 "other" 7 600 600].
Proof.
  apply (cleanup_removes_exactly_dead os_quiet (fun pid => pid =? 42)
           w_mixed).
  - simpl. repeat constructor; simpl; intuition discriminate.
  - intros i pid _. unfold ps_alive. simpl.
    destruct (pid =? 42); reflexivity.
Defined.

(* ================================================================== *)
(** ** The claims about the changelog *)
(* ================================================================== *)

Module ChangelogClaims.
Import Changelog ChangelogFacts ChangelogExamples.

(** C9. An entry recorded under [a:b:c] reports the ancestors [a:b] and
    [a], is stored as one row, and is listed by the tree queries for
    [a:b] and for [a]; the rollup for [a:b] holds it, but the rollup for
    [a] is empty: [buildNode] only descends into identities that have
    entries of their own, and [a:b] has none. *)
Theorem rollup_misses_entry_below_empty_level :
  add_ancestors (fst (add json_stringify_stub (entry_options "a:b:c" "change")
                        10 empty_table))
  = ["a:b"; "a"]
  /\ map row_identity (rows t_abc) = ["a:b:c"]
  /\ map identity (list_entries (listTree json_parse_stub t_abc "a:b" 100))
     = ["a:b:c"]
  /\ map identity (list_entries (listTree json_parse_stub t_abc "a" 100))
     = ["a:b:c"]
  /\ map identity (rollup_entries (rollup json_parse_stub t_abc "a:b"))
     = ["a:b:c"]
  /\ rollup json_parse_stub t_abc "a" = mkRollupEntry "a" [] [].
Proof. repeat split. Qed.

(** With an entry stored for [a:b] as well, the rollup for [a] reaches
    both. *)
Lemma rollup_reaches_through_stored_level :
  map identity
    (rollup_entries (rollup json_parse_stub (add_entry "a:b" 20 t_abc) "a"))
  = ["a:b"; "a:b:c"].
Proof. reflexivity. Qed.

Section TreeQuery.
Variable JSON_parse : string -> jsval.

Lemma listTree_complete (t : Table) (q : string) (limit : Z) (r : ChangelogRow) :
  limit < 0
  \/ Z.of_nat (List.length
                 (filter (fun x => like (q ++ "%") (row_identity x)) (rows t)))
     <= limit ->
  In r (rows t) ->
  String.prefix q (row_identity r) = true ->
  In (formatEntry JSON_parse r) (list_entries (listTree JSON_parse t q limit)).
Proof.
  intros Hlimit Hin Hpre. unfold listTree, stmt_listByPrefix. simpl.
  apply in_map. rewrite sql_limit_all.
  - eapply Permutation_in;
      [apply Permutation_sym, order_by_created_desc_perm |].
    apply filter_In. split; [exact Hin | apply like_prefix, Hpre].
  - rewrite (Permutation_length (order_by_created_desc_perm _)).
    exact Hlimit.
Qed.

End TreeQuery.

(** C10 (amended). [listTree(q, limit)] selects by the pattern [q%], not
    by hierarchy: every stored entry whose identity begins with [q]
    matches the pattern, with or without a colon after [q]; the answer
    is the first [limit] matching rows, latest first, so it never holds
    more than [limit] entries and, for a limit that binds, holds every
    entry whose identity begins with [q] when no more than [limit] rows
    match. *)
Theorem listTree_selects_by_pattern (JSON_parse : string -> jsval)
    (t : Table) (q : string) (limit : Z) :
  let matching :=
    filter (fun r => like (q ++ "%") (row_identity r)) (rows t) in
  (forall r, In r (rows t) -> String.prefix q (row_identity r) = true ->
             In r matching)
  /\ list_entries (listTree JSON_parse t q limit)
     = map (formatEntry JSON_parse)
           (sql_limit limit (order_by_created_desc matching))
  /\ (0 <= limit -> list_count (listTree JSON_parse t q limit) <= limit)
  /\ (limit_binds limit = true ->
      limit < 0 \/ Z.of_nat (List.length matching) <= limit ->
      forall r, In r (rows t) -> String.prefix q (row_identity r) = true ->
                In (formatEntry JSON_parse r)
                   (list_entries (listTree JSON_parse t q limit))).
Proof.
  intros matching. split; [| split; [| split]].
  - intros r Hin Hpre. apply filter_In.
    split; [exact Hin | apply like_prefix, Hpre].
  - reflexivity.
  - intros Hpos. unfold listTree. simpl. apply sql_limit_length, Hpos.
  - intros _ Hlimit r Hin Hpre. apply listTree_complete; assumption.
Qed.

Lemma listTree_selects_by_pattern_witness :
  String.prefix "myapp" "myapp2:api" = true
  /\ In (formatEntry json_parse_stub
           (mkChangelogRow 2 "myapp2:api" None None "feature" "change"
                           None None 20))
        (list_entries (listTree json_parse_stub t_apps "myapp" 100)).
Proof.
  split; [reflexivity |].
  apply (proj2 (proj2 (proj2 (listTree_selects_by_pattern json_parse_stub
                                t_apps "myapp" 100)))).
  - reflexivity.
  - right. vm_compute. discriminate.
  - right. left. reflexivity.
  - reflexivity.
Defined.

(** C10, counterexample. With two entries whose identities begin with
    [myapp], a tree query for [myapp] limited to one entry leaves the
    older one out; with 101 entries under [a], the query with the default
    limit answers 100 of them. *)
Lemma listTree_limit_leaves_entries_out :
  (exists r,
     In r (rows t_apps)
     /\ String.prefix "myapp" (row_identity r) = true
     /\ ~ In (formatEntry json_parse_stub r)
             (list_entries (listTree json_parse_stub t_apps "myapp" 1)))
  /\ (List.length (rows (add_many 101 "a" empty_table)) = 101%nat
      /\ forallb (fun r => String.prefix "a" (row_identity r))
                 (rows (add_many 101 "a" empty_table)) = true
      /\ list_count (listTree json_parse_stub (add_many 101 "a" empty_table)
                       "a" DEFAULT_TREE_LIMIT) = 100).
Proof.
  split.
  - exists (mkChangelogRow 1 "myapp" None None "feature" "change"
                           None None 10).
    split; [left; reflexivity |]. split; [reflexivity |].
    vm_compute. intros [H | []]. discriminate H.
  - split; [vm_compute; reflexivity |].
    split; vm_compute; reflexivity.
Qed.

End ChangelogClaims.

(* ================================================================== *)
(** ** Further properties of the registry *)
(* ================================================================== *)

(** *** What the search and the attempts can do, whatever the operating
    system answers *)

Lemma delete_where_twice hit d :
  delete_where hit (delete_where hit d) = delete_where hit d.
Proof.
  unfold delete_where. rewrite filter_filter_and. apply filter_ext.
  intros r. destruct (hit r); reflexivity.
Qed.

Lemma not_In_deleted_port p d :
  ~ In p (map r_port (delete_where (has_port p) d)).
Proof.
  intros Hin. apply in_map_iff in Hin as [r [Hr Hin]].
  apply filter_In in Hin as [_ Hne]. unfold has_port in Hne.
  rewrite Hr, Z.eqb_refl in Hne. discriminate.
Qed.

Lemma In_port_deleted q p d :
  In q (map r_port d) -> q <> p ->
  In q (map r_port (delete_where (has_port p) d)).
Proof.
  intros Hin Hne. apply in_map_iff in Hin as [r [Hr Hin]].
  apply in_map_iff. exists r. split; [exact Hr |].
  apply filter_In. split; [exact Hin |]. unfold has_port.
  destruct (r_port r =? p) eqn:E; [lia | reflexivity].
Qed.

Lemma delete_absent_port p d :
  ~ In p (map r_port d) -> delete_where (has_port p) d = d.
Proof.
  intros Hnin. unfold delete_where. induction d as [| x t IH]; simpl;
    [reflexivity |].
  unfold has_port at 1. destruct (r_port x =? p) eqn:E.
  - exfalso. apply Hnin. left. lia.
  - simpl. f_equal. apply IH. intros Hin. apply Hnin. right. exact Hin.
Qed.

Lemma cleared_trans pp pp' d d1 d2 :
  pp' = pp \/ pp' = None ->
  cleared pp d d1 -> cleared pp' d1 d2 -> cleared pp d d2.
Proof.
  intros Hpp H1 [-> | [p [Hp ->]]]; [exact H1 |].
  destruct Hpp as [-> | ->]; [| discriminate].
  destruct H1 as [-> | [q [Hq ->]]].
  - right. exists p. split; [exact Hp | reflexivity].
  - right. exists p. split; [exact Hp |].
    assert (q = p) as -> by congruence. apply delete_where_twice.
Qed.

Lemma free_port_cleared cfg pp d d1 port :
  cleared pp d d1 -> free_port cfg d1 port ->
  pp = Some port \/ free_port cfg d port.
Proof.
  intros [-> | [p [Hp ->]]] Hfree; [right; exact Hfree |].
  destruct (Z.eq_dec port p) as [-> | Hne]; [left; exact Hp | right].
  destruct Hfree as [Hr [Hres Hnin]]. split; [exact Hr |].
  split; [exact Hres |]. intros Hin. apply Hnin.
  apply In_port_deleted; assumption.
Qed.

Section Effects.
Variable cfg : Config.
Variable os : OS.

Lemma scan_system_ports_frame now w :
  exists l w',
    scan_system_ports os now w = (Return l, w')
    /\ db w' = db w /\ metrics w' = metrics w.
Proof.
  unfold scan_system_ports, bind, gets, spawn_lsof_listen, modify, ret.
  destruct (os_lsof_listen os (tick w)) as [result |].
  - destruct (negb (sr_status result =? 0) || is_empty (sr_stdout result));
      eexists _, _; repeat split; reflexivity.
  - eexists _, _. repeat split; reflexivity.
Qed.

Lemma getSystemPorts_frame w :
  exists l w',
    getSystemPorts os w = (Return l, w')
    /\ db w' = db w /\ metrics w' = metrics w.
Proof.
  unfold getSystemPorts, bind, Date_now, gets.
  destruct (data (systemPortsCache (log_call CallNow w))) as [d |].
  - destruct (os_now os (tick w)
              - timestamp (systemPortsCache (log_call CallNow w))
              <? SYSTEM_PORTS_CACHE_TTL).
    + eexists _, _. repeat split; reflexivity.
    + apply (scan_system_ports_frame _ (log_call CallNow w)).
  - apply (scan_system_ports_frame _ (log_call CallNow w)).
Qed.

Lemma scan_range_effect n : forall port usedSet w,
  exists w',
    db w' = db w /\ metrics w' = metrics w
    /\ ((exists p,
           scan_range os n port usedSet w = (Return p, w')
           /\ port <= p < port + Z.of_nat n
           /\ includes usedSet p = false)
        \/ scan_range os n port usedSet w = (Throw no_ports, w')).
Proof.
  induction n as [| n IH]; intros port usedSet w.
  - exists w. repeat split. right. reflexivity.
  - cbn [scan_range]. destruct (includes usedSet port) eqn:Hused.
    + destruct (IH (port + 1) usedSet w) as [w' [Hdb [Hm H]]].
      exists w'. split; [exact Hdb |]. split; [exact Hm |].
      destruct H as [[p [Hrun [Hr Hp]]] | Hrun]; [left | right; exact Hrun].
      exists p. split; [exact Hrun |]. split; [lia | exact Hp].
    + unfold bind, isPortInUseOnSystem.
      destruct (port_busy os (tick w) port).
      * destruct (IH (port + 1) usedSet (log_call (CallLsofPort port) w))
          as [w' [Hdb [Hm H]]].
        exists w'. split; [exact Hdb |]. split; [exact Hm |].
        destruct H as [[p [Hrun [Hr Hp]]] | Hrun]; [left | right; exact Hrun].
        exists p. split; [exact Hrun |]. split; [lia | exact Hp].
      * exists (log_call (CallLsofPort port) w).
        split; [reflexivity |]. split; [reflexivity |]. left.
        exists port. split; [reflexivity |]. split; [lia | exact Hused].
Qed.

Lemma findAvailablePort_effect w :
  exists w',
    db w' = db w /\ metrics w' = metrics w
    /\ ((exists p,
           findAvailablePort cfg os w = (Return p, w')
           /\ free_port cfg (db w) p
           /\ ~ In p (listening os w))
        \/ findAvailablePort cfg os w = (Throw no_ports, w')).
Proof.
  unfold findAvailablePort, bind, stmt_getAllPorts, gets, listening.
  destruct (getSystemPorts_frame w) as [l [w1 [Hrun [Hdb1 Hm1]]]].
  rewrite Hrun. cbn [fst].
  destruct (scan_range_effect
              (Z.to_nat (PORT_RANGE_END cfg - PORT_RANGE_START cfg + 1))
              (PORT_RANGE_START cfg)
              (map r_port (db w) ++ map sp_port l ++ RESERVED_PORTS cfg)%list
              w1) as [w2 [Hdb2 [Hm2 H]]].
  exists w2. split; [congruence |]. split; [congruence |].
  destruct H as [[p [Hscan [Hr Hp]]] | Hscan]; [left | right; exact Hscan].
  exists p. split; [exact Hscan |].
  rewrite !includes_app in Hp.
  apply orb_false_iff in Hp as [Hp1 Hp2].
  apply orb_false_iff in Hp2 as [Hp2 Hp3].
  unfold PORT_RANGE_END, PORT_RANGE_START, RESERVED_PORTS in *.
  split; [split; [lia |]; split |].
  - intros Hin. apply includes_In in Hin. congruence.
  - intros Hin. apply includes_In in Hin. congruence.
  - intros Hin. apply includes_In in Hin. congruence.
Qed.

End Effects.

Lemma existsb_port_absent d port :
  ~ In port (map r_port d) -> existsb (has_port port) d = false.
Proof.
  intros Hnin. destruct (existsb (has_port port) d) eqn:E; [| reflexivity].
  exfalso. apply Hnin. apply existsb_exists in E as [r [Hin Hp]].
  apply in_map_iff. exists r. split; [| exact Hin].
  unfold has_port in Hp. lia.
Qed.

Lemma find_port_In d port e :
  find (has_port port) d = Some e -> In port (map r_port d).
Proof.
  intros H. apply find_some in H as [Hin Hp]. apply in_map_iff.
  exists e. split; [| exact Hin]. unfold has_port in Hp. lia.
Qed.

Section AttemptEffects.
Variable cfg : Config.
Variable os : OS.

Lemma give_up_preferred_effect pp w :
  exists w',
    db w' = db w /\ metrics w' = metrics w
    /\ ((exists pp',
           give_up_preferred cfg os pp w = (Return (Continue pp'), w')
           /\ (pp' = pp \/ pp' = None))
        \/ give_up_preferred cfg os pp w = (Throw no_ports, w')).
Proof.
  unfold give_up_preferred. destruct (truthyPort pp).
  - unfold bind.
    destruct (findAvailablePort_effect cfg os w)
      as [w' [Hdb [Hm [[p [Hrun _]] | Hrun]]]];
      rewrite Hrun; exists w'; (split; [exact Hdb |]); (split; [exact Hm |]).
    + left. exists None. split; [reflexivity | right; reflexivity].
    + right. reflexivity.
  - exists w. split; [reflexivity |]. split; [reflexivity |]. left.
    exists pp. split; [reflexivity | left; reflexivity].
Qed.

Lemma probe_and_insert_effect port project pp pid now w :
  ~ In port (map r_port (db w)) ->
  exists w',
    metrics w' = metrics w
    /\ ((exists pp',
           probe_and_insert cfg os port project pp pid now w
           = (Return (Continue pp'), w')
           /\ db w' = db w /\ (pp' = pp \/ pp' = None))
        \/ (probe_and_insert cfg os port project pp pid now w
            = (Return (Assigned port), w')
            /\ db w' = insert_row (mkRow port project pid now now) (db w))
        \/ (probe_and_insert cfg os port project pp pid now w
            = (Throw no_ports, w')
            /\ db w' = db w)).
Proof.
  intros Hfree. unfold probe_and_insert, bind, isPortInUseOnSystem.
  destruct (port_busy os (tick w) port).
  - destruct (give_up_preferred_effect pp (log_call (CallLsofPort port) w))
      as [w' [Hdb [Hm [[pp' [Hrun Hpp]] | Hrun]]]];
      rewrite Hrun; exists w'; (split; [exact Hm |]).
    + left. exists pp'. split; [reflexivity |]. split; [exact Hdb | exact Hpp].
    + right. right. split; [reflexivity | exact Hdb].
  - unfold assignPortTransaction, bind, stmt_insert. cbn [db log_call].
    rewrite (existsb_port_absent _ _ Hfree).
    eexists. split; [| right; left; split; reflexivity]. reflexivity.
Qed.

Lemma preferred_or_find_effect pp w :
  exists w',
    db w' = db w /\ metrics w' = metrics w
    /\ ((exists port,
           preferred_or_find cfg os pp w = (Return port, w')
           /\ (pp = Some port \/ free_port cfg (db w) port))
        \/ preferred_or_find cfg os pp w = (Throw no_ports, w')).
Proof.
  assert (exists w',
             db w' = db w /\ metrics w' = metrics w
             /\ ((exists port,
                    findAvailablePort cfg os w = (Return port, w')
                    /\ (pp = Some port \/ free_port cfg (db w) port))
                 \/ findAvailablePort cfg os w = (Throw no_ports, w'))) as Hf.
  { destruct (findAvailablePort_effect cfg os w)
      as [w' [Hdb [Hm [[p [Hrun [Hfree _]]] | Hrun]]]];
      exists w'; (split; [exact Hdb |]); (split; [exact Hm |]).
    - left. exists p. split; [exact Hrun | right; exact Hfree].
    - right. exact Hrun. }
  unfold preferred_or_find. destruct pp as [p |]; [| exact Hf].
  destruct (truthyPort (Some p)); [| exact Hf].
  exists w. split; [reflexivity |]. split; [reflexivity |]. left.
  exists p. split; [reflexivity | left; reflexivity].
Qed.

Lemma attempt_has_effect project pp pid now w :
  attempt_effect cfg project pp pid now w
    (attempt cfg os project pp pid now w).
Proof.
  unfold attempt_effect, attempt, bind.
  destruct (preferred_or_find_effect pp w)
    as [w1 [Hdb1 [Hm1 [[port [Hrun Hport]] | Hrun]]]]; rewrite Hrun.
  2:{ cbn [fst snd]. split; [exact Hm1 |]. exists (db w).
      split; [left; reflexivity |]. split; [reflexivity | exact Hdb1]. }
  unfold stmt_getByPort, gets.
  destruct (find (has_port port) (db w1)) as [e |] eqn:Hfind.
  - assert (pp = Some port) as Hpp.
    { destruct Hport as [H | [_ [_ Hnin]]]; [exact H | exfalso].
      apply Hnin. rewrite <- Hdb1. eapply find_port_In, Hfind. }
    unfold isProcessAlive.
    destruct (ps_alive os (tick w1) (r_pid e)).
    + destruct (give_up_preferred_effect pp (log_call (CallPs (r_pid e)) w1))
        as [w2 [Hdb2 [Hm2 [[pp' [Hrun2 Hpp']] | Hrun2]]]];
        rewrite Hrun2; cbn [fst snd];
        (split; [cbn [metrics log_call] in Hm2; congruence |]);
        exists (db w); (split; [left; reflexivity |]).
      * split; [cbn [db log_call] in Hdb2; congruence | exact Hpp'].
      * split; [reflexivity | cbn [db log_call] in Hdb2; congruence].
    + unfold stmt_deleteByPort, modify.
      set (w2 := set_db _ _).
      assert (~ In port (map r_port (db w2))) as Hfree
        by (subst w2; apply not_In_deleted_port).
      assert (db w2 = delete_where (has_port port) (db w)) as Hdb2
        by (subst w2; cbn [db set_db log_call]; rewrite Hdb1; reflexivity).
      assert (metrics w2 = metrics w) as Hm2
        by (subst w2; cbn [metrics set_db log_call]; exact Hm1).
      destruct (probe_and_insert_effect port project pp pid now w2 Hfree)
        as [w3 [Hm3 [[pp' [Hrun3 [Hdb3 Hpp']]] | [[Hrun3 Hdb3] | [Hrun3 Hdb3]]]]];
        rewrite Hrun3; cbn [fst snd]; (split; [congruence |]);
        exists (db w2);
        (split; [right; exists port; split; [exact Hpp | exact Hdb2] |]).
      * split; [exact Hdb3 | exact Hpp'].
      * split; [exact Hdb3 |]. split; [exact Hfree | left; exact Hpp].
      * split; [reflexivity | exact Hdb3].
  - assert (~ In port (map r_port (db w1))) as Hfree.
    { apply existsb_port_false, find_none_existsb, Hfind. }
    destruct (probe_and_insert_effect port project pp pid now w1 Hfree)
      as [w3 [Hm3 [[pp' [Hrun3 [Hdb3 Hpp']]] | [[Hrun3 Hdb3] | [Hrun3 Hdb3]]]]];
      rewrite Hrun3; cbn [fst snd]; (split; [congruence |]);
      exists (db w); (split; [left; reflexivity |]).
    + split; [congruence | exact Hpp'].
    + split; [congruence |]. split; [congruence | exact Hport].
    + split; [reflexivity | congruence].
Qed.

Lemma attempts_have_effect project pid now fuel : forall n pp w,
  attempts_effect cfg project pp pid now w
    (attempts cfg os fuel n project pp pid now w).
Proof.
  induction fuel as [| fuel IH]; intros n pp w.
  - split; [reflexivity |]. exists (db w). split; [left; reflexivity |].
    split; [right; reflexivity | reflexivity].
  - cbn [attempts]. unfold bind, try_catch.
    pose proof (attempt_has_effect project pp pid now w) as [Hm [d1 [Hc H]]].
    destruct (attempt cfg os project pp pid now w) as [[[pp' | port] | e] w1];
      cbn [fst snd] in Hm, H.
    + destruct H as [Hdb Hpp'].
      pose proof (IH (n + 1) pp' w1) as [Hm2 [d2 [Hc2 H2]]].
      split; [congruence |]. exists d2. rewrite Hdb in Hc2.
      split; [eapply cleared_trans; eauto |].
      destruct (fst (attempts cfg os fuel (n + 1) project pp' pid now w1))
        as [[q k] | e2]; [| exact H2].
      destruct H2 as [Hdb2 [Hfree Hq]]. split; [exact Hdb2 |].
      split; [exact Hfree |].
      destruct Hq as [Hq | Hq].
      * left. destruct Hpp' as [-> | ->]; [exact Hq | discriminate].
      * rewrite Hdb in Hq. eapply free_port_cleared; eauto.
    + split; [exact Hm |]. exists d1. split; [exact Hc | exact H].
    + destruct H as [-> Hdb]. cbn [attempt_catch no_ports].
      split; [exact Hm |]. exists d1. split; [exact Hc |].
      split; [left; reflexivity | exact Hdb].
Qed.

Lemma assignPortWithRetry_effect project pp pid maxRetries w :
  attempts_effect cfg project pp pid (os_now os (tick w)) w
    (assignPortWithRetry cfg os project pp pid maxRetries w).
Proof.
  unfold assignPortWithRetry, bind, Date_now.
  apply (attempts_have_effect project pid (os_now os (tick w)) maxRetries 0
           pp (log_call CallNow w)).
Qed.

End AttemptEffects.

(** *** What a claim can do *)

Lemma try_catch_bind {A B} (m : M A) (k : A -> M B) (h : error -> M B) w :
  try_catch (bind m k) h w
  = match m w with
    | (Return a, w') => try_catch (k a) h w'
    | (Throw e, w') => h e w'
    end.
Proof. unfold try_catch, bind. destruct (m w) as [[a | e] w']; reflexivity. Qed.

Section ClaimEffects.
Variable cfg : Config.
Variable os : OS.

Lemma drop_if_busy_frame (portToTry : option Z) (w : World) :
  exists p w', drop_if_busy os portToTry w = (Return p, w')
               /\ db w' = db w /\ metrics w' = metrics w
               /\ (p = portToTry \/ p = None).
Proof.
  unfold drop_if_busy. destruct portToTry as [q |].
  - destruct (truthyPort (Some q)).
    + unfold bind, isPortInUseOnSystem.
      destruct (port_busy os (tick w) q); eexists _, _;
        (split; [reflexivity |]); repeat split; auto.
    + eexists _, _. split; [reflexivity |]. repeat split; auto.
  - eexists _, _. split; [reflexivity |]. repeat split; auto.
Qed.

(** The part of a claim after the renewal branch found no live owner. *)
Lemma fresh_claim_has_effect name pp pid (w : World) :
  fresh_claim_effect cfg name pp pid (db w) (metrics w)
    (try_catch
       (portToTry <- drop_if_busy os pp ;;
        result <- assignPortWithRetry cfg os name portToTry pid 3 ;;
        bump inc_total_assignments ;;;
        ret (res_json
               [("port", JNum (fst result));
                ("message",
                 JStr (if got_preferred pp (fst result)
                       then "assigned preferred port"
                       else "port assigned successfully"))]))
       on_error w).
Proof.
  rewrite try_catch_bind.
  destruct (drop_if_busy_frame pp w) as [portToTry [w1 [Hrun [Hdb1 [Hm1 Hp]]]]].
  rewrite Hrun. rewrite try_catch_bind.
  pose proof (assignPortWithRetry_effect cfg os name portToTry pid 3 w1)
    as [Hm2 [d1 [Hc H]]].
  rewrite Hdb1 in Hc, H.
  assert (cleared pp (db w) d1) as Hc'.
  { destruct Hc as [-> | [p [Hpp ->]]]; [left; reflexivity |].
    right. exists p. split; [| reflexivity].
    destruct Hp as [-> | ->]; [exact Hpp | discriminate]. }
  exists d1. split; [exact Hc' |].
  destruct (assignPortWithRetry cfg os name portToTry pid 3 w1)
    as [[[port n] | e] w2]; cbn [fst snd] in Hm2, H.
  - left. destruct H as [Hdb [Hfree Hport]].
    eexists port, _, _. split; [reflexivity |].
    cbn [snd try_catch bind bump modify ret db set_metrics metrics].
    unfold try_catch, bind, bump, modify, ret. cbn [fst snd db set_metrics metrics].
    split; [exact Hdb |]. split; [exact Hfree |].
    split; [| congruence].
    destruct Hport as [Hport | Hport]; [left | right; exact Hport].
    destruct Hp as [-> | ->]; [exact Hport | discriminate].
  - right. destruct H as [He Hdb]. exists e.
    unfold on_error, bind, bump, modify, reject, ret.
    cbn [fst snd db set_metrics metrics].
    split; [reflexivity |]. split; [exact He |]. split; [exact Hdb |].
    congruence.
Qed.

Lemma renew_or_clear_runs name now w :
  renew_or_clear os name now w
  = match find (has_project name) (db w) with
    | Some e =>
        if ps_alive os (tick w) (r_pid e)
        then (Return (Some (r_port e)),
              set_db (update_last_seen now (r_port e) (db w))
                     (log_call (CallPs (r_pid e)) w))
        else (Return None,
              set_db (delete_where (has_port (r_port e)) (db w))
                     (log_call (CallPs (r_pid e)) w))
    | None => (Return None, w)
    end.
Proof.
  unfold renew_or_clear, bind, stmt_getByProject, gets, isProcessAlive.
  destruct (find (has_project name) (db w)) as [e |]; [| reflexivity].
  destruct (ps_alive os (tick w) (r_pid e)); reflexivity.
Qed.

Lemma claim_effect name preferred x_pid pid pp w :
  is_valid (validateProjectName (JStr name)) = true ->
  validatePid x_pid = Valid pid ->
  validatePreferredPort preferred (range_start cfg) (range_end cfg)
    (reserved cfg) = Valid pp ->
  valid_claim_effect cfg os name pp (pid_or_self cfg pid) w
    (post_ports_request cfg os (JStr name) preferred x_pid w).
Proof.
  intros Hproj Hpid Hport. unfold post_ports_request.
  destruct (validateProjectName (JStr name)); [| discriminate].
  rewrite Hpid.
  unfold PORT_RANGE_START, PORT_RANGE_END, RESERVED_PORTS. rewrite Hport.
  cbn [toString]. unfold valid_claim_effect.
  rewrite try_catch_bind. unfold Date_now. cbv beta iota.
  rewrite try_catch_bind, renew_or_clear_runs.
  cbn [db log_call].
  destruct (find (has_project name) (db w)) as [e |] eqn:Hfind.
  - destruct (ps_alive os (tick (log_call CallNow w)) (r_pid e)).
    + left. repeat split; reflexivity.
    + right.
      match goal with
      | |- context [try_catch ?m on_error ?w1] =>
          apply (fresh_claim_has_effect name pp (pid_or_self cfg pid) w1)
      end.
  - apply (fresh_claim_has_effect name pp (pid_or_self cfg pid)
             (log_call CallNow w)).
Qed.

End ClaimEffects.

Section ClaimCases.
Variable cfg : Config.
Variable os : OS.

Lemma claim_invalid_pid project preferred x_pid w e :
  is_valid (validateProjectName project) = true ->
  validatePid x_pid = Invalid e ->
  post_ports_request cfg os project preferred x_pid w
  = (Return (mkResponse 400 [("error", JStr e)]),
     set_metrics (inc_validation_failures (metrics w)) w).
Proof.
  intros Hproject H. unfold post_ports_request.
  destruct (validateProjectName project); [| discriminate].
  rewrite H. reflexivity.
Qed.

(** Every claim is either turned down by one of the three validators,
    first the name, then the pid, then the port, or does what
    [valid_claim_effect] describes. *)
Lemma claim_cases project preferred x_pid w :
  (exists e,
     (validateProjectName project = Invalid e
      \/ (is_valid (validateProjectName project) = true
          /\ validatePid x_pid = Invalid e)
      \/ (is_valid (validateProjectName project) = true
          /\ is_valid (validatePid x_pid) = true
          /\ validatePreferredPort preferred (range_start cfg)
               (range_end cfg) (reserved cfg) = Invalid e))
     /\ post_ports_request cfg os project preferred x_pid w
        = (Return (mkResponse 400 [("error", JStr e)]),
           set_metrics (inc_validation_failures (metrics w)) w))
  \/ (exists name pid pp,
        project = JStr name
        /\ is_valid (validateProjectName (JStr name)) = true
        /\ validatePid x_pid = Valid pid
        /\ validatePreferredPort preferred (range_start cfg)
             (range_end cfg) (reserved cfg) = Valid pp
        /\ valid_claim_effect cfg os name pp (pid_or_self cfg pid) w
             (post_ports_request cfg os project preferred x_pid w)).
Proof.
  destruct (validateProjectName project) as [u | e] eqn:Hproj.
  2:{ left. exists e. split; [left; reflexivity |].
      apply claim_invalid_project, Hproj. }
  assert (is_valid (validateProjectName project) = true) as Hv
    by (rewrite Hproj; reflexivity).
  destruct (validatePid x_pid) as [pid | e] eqn:Hpid.
  2:{ left. exists e. split; [right; left; split; [reflexivity | reflexivity] |].
      apply claim_invalid_pid; assumption. }
  destruct (validatePreferredPort preferred (range_start cfg) (range_end cfg)
              (reserved cfg)) as [pp | e] eqn:Hport.
  2:{ left. exists e.
      split; [right; right; repeat split; reflexivity |].
      apply claim_invalid_port; [exact Hv | rewrite Hpid; reflexivity |].
      exact Hport. }
  right. apply validateProjectName_valid in Hv as Hs.
  destruct Hs as [name [-> _]].
  exists name, pid, pp. split; [reflexivity |]. split; [exact Hv |].
  split; [reflexivity |]. split; [reflexivity |].
  apply claim_effect; assumption.
Qed.

End ClaimCases.

Lemma validatePid_valid v :
  is_valid (validatePid v) = true
  <-> (v = JUndefined \/ v = JNull
       \/ exists pid, parseInt v = Some pid /\ 1 <= pid <= 99999).
Proof.
  assert (is_valid
            (match parseInt v with
             | None => Invalid ("PID must be between " ++ string_of_Z PID_MIN
                                ++ " and " ++ string_of_Z PID_MAX)
             | Some pid =>
                 if (pid <? PID_MIN) || (pid >? PID_MAX)
                 then Invalid ("PID must be between " ++ string_of_Z PID_MIN
                               ++ " and " ++ string_of_Z PID_MAX)
                 else Valid (Some pid)
             end) = true
          <-> exists pid, parseInt v = Some pid /\ 1 <= pid <= 99999) as H.
  { unfold PID_MIN, PID_MAX. destruct (parseInt v) as [pid |].
    - destruct ((pid <? 1) || (pid >? 99999)) eqn:E; split.
      + discriminate.
      + intros [q [Hq Hr]]. inversion Hq; subst. lia.
      + intros _. exists pid. split; [reflexivity | lia].
      + reflexivity.
    - split; [discriminate | intros [q [Hq _]]; discriminate]. }
  destruct v; cbn [validatePid];
    try (rewrite H; split;
         [intros Hx; right; right; exact Hx
         | intros [Hx | [Hx | Hx]]; [discriminate | discriminate | exact Hx]]).
  - split; [intros _; left; reflexivity | reflexivity].
  - split; [intros _; right; left; reflexivity | reflexivity].
Qed.

Lemma validatePid_error v e :
  validatePid v = Invalid e -> e = "PID must be between 1 and 99999".
Proof.
  unfold validatePid. intros H.
  destruct v; try discriminate;
    destruct (parseInt _) as [pid |] in H;
    try (destruct ((pid <? PID_MIN) || (pid >? PID_MAX)) in H;
         try discriminate);
    inversion H; reflexivity.
Qed.

Lemma valid_claim_not_400 cfg os name pp pid w x :
  valid_claim_effect cfg os name pp pid w x ->
  forall r, fst x = Return r -> status r <> 400.
Proof.
  unfold valid_claim_effect. intros Heff r Hr.
  assert (forall d0, fresh_claim_effect cfg name pp pid d0 (metrics w) x ->
                     status r <> 400) as Hfresh.
  { intros d0 [d1 [_ [[port [msg [started [H _]]]] | [e [H _]]]]];
      rewrite Hr in H; inversion H; subst r; discriminate. }
  destruct (find (has_project name) (db w)) as [e |].
  - destruct Heff as [[H _] | H]; [| exact (Hfresh _ H)].
    rewrite Hr in H. inversion H; subst r. discriminate.
  - exact (Hfresh _ Heff).
Qed.

(** X1. For a claim whose project name is valid, the [x-pid] header
    passes exactly when it is absent, null, or parses to an integer from
    1 to 99999. Any other header is answered 400 with the message
    [PID must be between 1 and 99999], whatever the preferred port, and
    the request changes nothing but the counter of validation
    failures. *)
Theorem claim_pid_validation (cfg : Config) (os : OS)
    (project preferred x_pid : jsval) (w : World) :
  is_valid (validateProjectName project) = true ->
  (is_valid (validatePid x_pid) = true
   <-> (x_pid = JUndefined \/ x_pid = JNull
        \/ exists pid, parseInt x_pid = Some pid /\ 1 <= pid <= 99999))
  /\ (is_valid (validatePid x_pid) = false ->
      post_ports_request cfg os project preferred x_pid w
      = (Return (mkResponse 400
                   [("error", JStr "PID must be between 1 and 99999")]),
         set_metrics (inc_validation_failures (metrics w)) w)).
Proof.
  intros Hproject. split; [apply validatePid_valid |].
  intros Hinv. destruct (validatePid x_pid) as [pid | e] eqn:E;
    [discriminate |].
  rewrite (claim_invalid_pid cfg os project preferred x_pid w e Hproject E).
  rewrite (validatePid_error _ _ E). reflexivity.
Qed.

(** X2. A claim is answered 400 exactly when its project name, its pid
    header or its preferred port fails validation; such a claim makes no
    call to the operating system and leaves the table and the cache of
    listening ports as they were: the world changes in the counter of
    validation failures only. *)
Theorem rejected_claim_changes_nothing (cfg : Config) (os : OS)
    (project preferred x_pid : jsval) (w : World) :
  let answer := post_ports_request cfg os project preferred x_pid w in
  (rejected answer
   <-> is_valid (validateProjectName project)
       && is_valid (validatePid x_pid)
       && is_valid (validatePreferredPort preferred (range_start cfg)
                      (range_end cfg) (reserved cfg)) = false)
  /\ (rejected answer ->
      snd answer = set_metrics (inc_validation_failures (metrics w)) w).
Proof.
  intros answer. subst answer.
  destruct (claim_cases cfg os project preferred x_pid w)
    as [[e [Hwhy Hrun]] | [name [pid [pp [-> [Hv [Hpid [Hport Heff]]]]]]]].
  - rewrite Hrun. split; [| reflexivity]. split.
    + intros _.
      destruct Hwhy as [H | [[H1 H] | [H1 [H2 H]]]].
      * rewrite H. reflexivity.
      * rewrite H1, H. reflexivity.
      * rewrite H1, H2, H. reflexivity.
    + intros _. eexists. split; reflexivity.
  - assert (~ rejected (post_ports_request cfg os (JStr name) preferred
                          x_pid w)) as Hnot.
    { intros [r [Hr H400]].
      exact (valid_claim_not_400 _ _ _ _ _ _ _ Heff r Hr H400). }
    split; [| intros H; contradiction].
    split; [intros H; contradiction |].
    rewrite Hv, Hpid, Hport. discriminate.
Qed.

(** X3. Whatever the operating system answers, a port returned by
    [findAvailablePort] lies in the configured range, is not reserved, is
    not the port of any row and is not in the listing [getSystemPorts]
    gave; the search leaves the table as it is, and the only error it
    raises is [No available ports in range]. *)
Theorem findAvailablePort_is_safe (cfg : Config) (os : OS) (w : World) :
  db (snd (findAvailablePort cfg os w)) = db w
  /\ match fst (findAvailablePort cfg os w) with
     | Return p =>
         range_start cfg <= p <= range_end cfg
         /\ ~ In p (reserved cfg)
         /\ ~ In p (map r_port (db w))
         /\ ~ In p (listening os w)
     | Throw e => e = Error "No available ports in range"
     end.
Proof.
  destruct (findAvailablePort_effect cfg os w)
    as [w' [Hdb [_ [[p [Hrun [[Hr [Hres Hnin]] Hl]]] | Hrun]]]];
    rewrite Hrun; cbn [fst snd]; (split; [exact Hdb |]).
  - repeat split; try assumption; lia.
  - reflexivity.
Qed.

(** X4. Every claim is answered, and the answer tells which counter
    moved: 400 goes with one more validation failure; 500 with one more
    error, and its message is [No available ports in range] or
    [Failed to assign port after retries]; 200 with [existing: true]
    moves no counter; 200 without [existing] goes with one more
    assignment. Nothing else about the counters changes. *)
Theorem claim_answer_and_counters (cfg : Config) (os : OS)
    (project preferred x_pid : jsval) (w : World) :
  let x := post_ports_request cfg os project preferred x_pid w in
  exists r,
    fst x = Return r
    /\ ((status r = 400
         /\ metrics (snd x) = inc_validation_failures (metrics w))
        \/ (status r = 500
            /\ metrics (snd x) = inc_errors (metrics w)
            /\ (body r = [("error", JStr "No available ports in range")]
                \/ body r
                   = [("error", JStr "Failed to assign port after retries")]))
        \/ (status r = 200
            /\ js_get "existing" (body r) = Some (JBool true)
            /\ metrics (snd x) = metrics w)
        \/ (status r = 200
            /\ js_get "existing" (body r) = None
            /\ metrics (snd x) = inc_total_assignments (metrics w))).
Proof.
  intros x. subst x.
  destruct (claim_cases cfg os project preferred x_pid w)
    as [[e [_ Hrun]] | [name [pid [pp [-> [Hv [Hpid [Hport Heff]]]]]]]].
  - rewrite Hrun. eexists. split; [reflexivity |]. left.
    split; reflexivity.
  - unfold valid_claim_effect in Heff.
    assert (forall d0,
               fresh_claim_effect cfg name pp (pid_or_self cfg pid) d0
                 (metrics w)
                 (post_ports_request cfg os (JStr name) preferred x_pid w) ->
               exists r,
                 fst (post_ports_request cfg os (JStr name) preferred x_pid w)
                 = Return r
                 /\ ((status r = 500
                      /\ metrics (snd (post_ports_request cfg os (JStr name)
                                         preferred x_pid w))
                         = inc_errors (metrics w)
                      /\ (body r
                          = [("error", JStr "No available ports in range")]
                          \/ body r
                             = [("error",
                                 JStr "Failed to assign port after retries")]))
                     \/ (status r = 200
                         /\ js_get "existing" (body r) = None
                         /\ metrics (snd (post_ports_request cfg os (JStr name)
                                            preferred x_pid w))
                            = inc_total_assignments (metrics w)))) as Hfresh.
    { intros d0 [d1 [_ [[port [msg [started [H [_ [_ [_ Hm]]]]]]]
                       | [e [H [He [_ Hm]]]]]]];
        rewrite H; eexists; (split; [reflexivity |]).
      - right. repeat split. exact Hm.
      - left. split; [reflexivity |]. split; [exact Hm |].
        destruct He as [-> | ->]; [left | right]; reflexivity. }
    destruct (find (has_project name) (db w)) as [e |].
    + destruct Heff as [[H [_ Hm]] | H].
      * rewrite H. eexists. split; [reflexivity |]. right. right. left.
        repeat split. exact Hm.
      * destruct (Hfresh _ H) as [r [Hr Hc]]. exists r.
        split; [exact Hr |]. tauto.
    + destruct (Hfresh _ Heff) as [r [Hr Hc]]. exists r.
      split; [exact Hr |]. tauto.
Qed.

(** *** What a release and a sweep can do *)

Lemma filter_all {A} (l : list A) : filter (fun _ => true) l = l.
Proof. induction l as [| x t IH]; simpl; [reflexivity | f_equal; exact IH]. Qed.

Lemma release_effect (port project : jsval) (w : World) :
  exists r keep m',
    delete_ports_release port project w
    = (Return r,
       mkWorld (filter keep (db w)) (systemPortsCache w) m' (calls w))
    /\ (status r = 200 \/ status r = 400)
    /\ (m' = metrics w
        \/ m' = inc_validation_failures (metrics w)
        \/ exists n, 0 <= n /\ m' = add_total_releases n (metrics w)).
Proof.
  assert (forall m', mkWorld (filter (fun _ => true) (db w))
                       (systemPortsCache w) m' (calls w)
                     = set_metrics m' w) as Hsame.
  { intros m'. rewrite filter_all. reflexivity. }
  unfold delete_ports_release, try_catch, bind.
  destruct (negb (is_undefined port)).
  - destruct (validatePort port) as [[n |] | e].
    + eexists _, (fun r => negb (has_port n r)), _.
      split; [reflexivity |]. split; [left; reflexivity |].
      right. right. exists 1. split; [lia | reflexivity].
    + eexists _, (fun _ => true), _. rewrite Hsame.
      split; [reflexivity |]. split; [left; reflexivity |].
      right. right. exists 1. split; [lia | reflexivity].
    + eexists _, (fun _ => true), _. rewrite Hsame.
      split; [reflexivity |]. split; [right; reflexivity |].
      right. left. reflexivity.
  - destruct (negb (is_undefined project)).
    + destruct (validateProjectName project) as [u | e].
      * eexists _, (fun r => negb (has_project (toString project) r)), _.
        split; [reflexivity |]. split; [left; reflexivity |].
        right. right. eexists. split; [| reflexivity]. lia.
      * eexists _, (fun _ => true), _. rewrite Hsame.
        split; [reflexivity |]. split; [right; reflexivity |].
        right. left. reflexivity.
    + eexists _, (fun _ => true), (metrics w). rewrite Hsame.
      destruct w as [d c m k].
      split; [reflexivity |]. split; [right; reflexivity |].
      left. reflexivity.
Qed.

Lemma delete_middle_row kept e rest :
  NoDup (map r_port (kept ++ e :: rest)) ->
  delete_where (has_port (r_port e)) (kept ++ e :: rest)
  = (kept ++ rest)%list.
Proof.
  intros Hnd. rewrite map_app in Hnd. cbn [map] in Hnd.
  pose proof (NoDup_remove_2 _ _ _ Hnd) as Hnin.
  unfold delete_where. rewrite filter_app. cbn [filter].
  unfold has_port at 2. rewrite Z.eqb_refl. cbn [negb].
  f_equal.
  - apply delete_absent_port. intros Hin. apply Hnin, in_or_app.
    left. exact Hin.
  - apply delete_absent_port. intros Hin. apply Hnin, in_or_app.
    right. exact Hin.
Qed.

Section SweepEffects.
Variable os : OS.

(** The loop of a sweep always returns, and touches neither the
    counters nor the cache. *)
Lemma cleanup_loop_runs entries : forall freed w,
  exists freed' w',
    cleanup_loop os entries freed w = (Return freed', w')
    /\ metrics w' = metrics w
    /\ systemPortsCache w' = systemPortsCache w.
Proof.
  induction entries as [| entry rest IH]; intros freed w; cbn [cleanup_loop].
  - exists freed, w. repeat split.
  - unfold bind, isProcessAlive.
    destruct (ps_alive os (tick w) (r_pid entry)); cbn [negb].
    + destruct (IH freed (log_call (CallPs (r_pid entry)) w))
        as [f [w' [Hrun [Hm Hc]]]].
      exists f, w'. split; [exact Hrun |]. split; [exact Hm | exact Hc].
    + unfold stmt_deleteByPort, modify.
      match goal with
      | |- context [cleanup_loop os rest ?f ?w1] =>
          destruct (IH f w1) as [f' [w' [Hrun [Hm Hc]]]]
      end.
      exists f', w'. split; [exact Hrun |]. split; [exact Hm | exact Hc].
Qed.

(** With distinct ports, the rows left and the rows freed are together
    the rows the loop went over. *)
Lemma cleanup_loop_splits entries : forall kept freed w,
  db w = (kept ++ entries)%list ->
  NoDup (map r_port (kept ++ entries)) ->
  exists kept' freed' w',
    cleanup_loop os entries freed w = (Return (freed ++ freed')%list, w')
    /\ db w' = (kept ++ kept')%list
    /\ Permutation (kept' ++ freed') entries.
Proof.
  induction entries as [| entry rest IH]; intros kept freed w Hdb Hnd;
    cbn [cleanup_loop].
  - exists [], [], w. rewrite !app_nil_r. rewrite app_nil_r in Hdb.
    split; [reflexivity |]. split; [exact Hdb | constructor].
  - unfold bind, isProcessAlive.
    destruct (ps_alive os (tick w) (r_pid entry)); cbn [negb].
    + destruct (IH (kept ++ [entry])%list freed
                  (log_call (CallPs (r_pid entry)) w))
        as [k [f [w' [Hrun [Hdb' Hperm]]]]].
      { cbn [db log_call]. rewrite Hdb, <- app_assoc. reflexivity. }
      { rewrite <- app_assoc. exact Hnd. }
      exists (entry :: k), f, w'. split; [exact Hrun |].
      split; [rewrite Hdb', <- app_assoc; reflexivity |].
      cbn [app]. constructor. exact Hperm.
    + unfold stmt_deleteByPort, modify.
      match goal with
      | |- context [cleanup_loop os rest ?f ?w1] =>
          destruct (IH kept f w1) as [k [f' [w' [Hrun [Hdb' Hperm]]]]]
      end.
      { cbn [db set_db log_call]. rewrite Hdb.
        apply delete_middle_row, Hnd. }
      { rewrite map_app in Hnd |- *. cbn [map] in Hnd.
        eapply NoDup_remove_1, Hnd. }
      exists k, (entry :: f'), w'.
      split; [rewrite Hrun, <- app_assoc; reflexivity |].
      split; [exact Hdb' |].
      apply Permutation_sym, Permutation_cons_app, Permutation_sym, Hperm.
Qed.

Lemma cleanupStale_runs w :
  exists freed w',
    cleanupStale os w = (Return freed, w')
    /\ systemPortsCache w' = systemPortsCache w
    /\ metrics w'
       = (if 0 <? Z.of_nat (List.length freed)
          then note_cleanup (Z.of_nat (List.length freed)) (metrics w)
          else metrics w).
Proof.
  unfold cleanupStale, bind, stmt_getAll, gets.
  destruct (cleanup_loop_runs (db w) [] w) as [freed [w' [Hrun [Hm Hc]]]].
  rewrite Hrun. exists freed.
  destruct (0 <? Z.of_nat (List.length freed)).
  - eexists. split; [reflexivity |]. cbn. rewrite Hm. split; [exact Hc |].
    reflexivity.
  - exists w'. split; [reflexivity |]. split; [exact Hc | exact Hm].
Qed.

End SweepEffects.

(** *** Invariants of every run *)

Lemma In_insert_row r x d : In r (insert_row x d) <-> r = x \/ In r d.
Proof.
  split.
  - intros H. apply (Permutation_in _ (insert_row_perm x d)) in H.
    destruct H as [H | H]; [left; symmetry; exact H | right; exact H].
  - intros H.
    apply (Permutation_in _ (Permutation_sym (insert_row_perm x d))).
    destruct H as [H | H]; [left; symmetry; exact H | right; exact H].
Qed.

Lemma In_cleared pp d d1 r : cleared pp d d1 -> In r d1 -> In r d.
Proof.
  intros [-> | [p [_ ->]]] H; [exact H |].
  apply filter_In in H as [H _]. exact H.
Qed.

Section RunInvariants.
Variable cfg : Config.
Variable os : OS.

Lemma keeps_release_filter I port project :
  (forall p d, I d -> I (filter p d)) ->
  keeps (on_db I) (delete_ports_release port project).
Proof.
  intros HI w Hw.
  destruct (release_effect port project w) as [r [keep [m' [Hrun _]]]].
  rewrite Hrun. apply HI, Hw.
Qed.

Lemma keeps_cleanupStale_filter I :
  (forall p d, I d -> I (filter p d)) ->
  keeps (on_db I) (cleanupStale os).
Proof.
  intros HI. unfold cleanupStale.
  apply keeps_bind; [apply keeps_gets | intros entries].
  apply keeps_bind; [apply keeps_cleanup_loop, HI | intros freed].
  apply keeps_bind; [| intros; apply keeps_ret].
  destruct (0 <? _); [apply keeps_bump | apply keeps_ret].
Qed.

Lemma pir_filter keep d :
  ports_in_range cfg d -> ports_in_range cfg (filter keep d).
Proof. intros H r Hin. apply filter_In in Hin as [Hin _]. apply H, Hin. Qed.

Lemma pir_update seen port d :
  ports_in_range cfg d -> ports_in_range cfg (update_last_seen seen port d).
Proof.
  intros H r Hin. unfold update_last_seen in Hin.
  apply in_map_iff in Hin as [r0 [Hr Hin]].
  assert (r_port r = r_port r0) as ->
    by (subst r; destruct (r_port r0 =? port); reflexivity).
  apply H, Hin.
Qed.

Lemma claim_keeps_range project preferred x_pid w :
  ports_in_range cfg (db w) ->
  ports_in_range cfg
    (db (snd (post_ports_request cfg os project preferred x_pid w))).
Proof.
  intros Hw.
  destruct (claim_cases cfg os project preferred x_pid w)
    as [[e [_ Hrun]] | [name [pid [pp [-> [Hv [Hpid [Hport Heff]]]]]]]].
  - rewrite Hrun. exact Hw.
  - unfold valid_claim_effect in Heff.
    assert (forall d0,
               ports_in_range cfg d0 ->
               fresh_claim_effect cfg name pp (pid_or_self cfg pid) d0
                 (metrics w)
                 (post_ports_request cfg os (JStr name) preferred x_pid w) ->
               ports_in_range cfg
                 (db (snd (post_ports_request cfg os (JStr name) preferred
                             x_pid w)))) as Hfresh.
    { intros d0 Hd0 [d1 [Hc H]].
      assert (ports_in_range cfg d1) as Hd1
        by (intros r Hin; apply Hd0; eapply In_cleared; eauto).
      destruct H as [[port [msg [started [_ [Hdb [_ [Hp _]]]]]]]
                    | [e [_ [_ [Hdb _]]]]]; rewrite Hdb; [| exact Hd1].
      intros r Hin. apply In_insert_row in Hin as [-> | Hin];
        [| apply Hd1, Hin].
      cbn [r_port]. destruct Hp as [-> | [Hr [Hres _]]].
      - apply validatePreferredPort_some in Hport as [_ [_ [Hr Hres]]].
        split; [exact Hr |]. intros Hin. apply includes_In in Hin.
        congruence.
      - split; assumption. }
    destruct (find (has_project name) (db w)) as [e |].
    + destruct Heff as [[_ [Hdb _]] | H].
      * rewrite Hdb. apply pir_update, Hw.
      * apply (Hfresh _ (pir_filter _ _ Hw) H).
    + apply (Hfresh _ Hw Heff).
Qed.

Lemma handle_keeps_range rq w :
  ports_in_range cfg (db w) ->
  ports_in_range cfg (db (snd (handle cfg os rq w))).
Proof.
  intros Hw. destruct rq as [project preferred x_pid | port project | |];
    cbn [handle].
  - pose proof (claim_keeps_range project preferred x_pid w Hw) as H.
    destruct (post_ports_request _ _ _ _ _ w) as [[r | e] w']; exact H.
  - pose proof (keeps_release_filter (ports_in_range cfg) port project
                  pir_filter w Hw) as H.
    destruct (delete_ports_release _ _ w) as [[r | e] w']; exact H.
  - assert (keeps (on_db (ports_in_range cfg)) (post_ports_cleanup os)) as K.
    { unfold post_ports_cleanup.
      apply keeps_try_catch; [| intros; apply keeps_on_error].
      apply keeps_bind; [| intros; apply keeps_ret].
      apply keeps_cleanupStale_filter, pir_filter. }
    pose proof (K w Hw) as H.
    destruct (post_ports_cleanup _ w) as [[r | e] w']; exact H.
  - exact (keeps_cleanupStale_filter _ pir_filter w Hw).
Qed.

Lemma claim_metrics project preferred x_pid w :
  let m' := metrics (snd (post_ports_request cfg os project preferred
                            x_pid w)) in
  m' = metrics w
  \/ m' = inc_validation_failures (metrics w)
  \/ m' = inc_total_assignments (metrics w)
  \/ m' = inc_errors (metrics w).
Proof.
  intros m'. subst m'.
  destruct (claim_cases cfg os project preferred x_pid w)
    as [[e [_ Hrun]] | [name [pid [pp [-> [Hv [Hpid [Hport Heff]]]]]]]].
  - rewrite Hrun. right. left. reflexivity.
  - unfold valid_claim_effect in Heff.
    assert (forall d0,
               fresh_claim_effect cfg name pp (pid_or_self cfg pid) d0
                 (metrics w)
                 (post_ports_request cfg os (JStr name) preferred x_pid w) ->
               metrics (snd (post_ports_request cfg os (JStr name) preferred
                               x_pid w)) = inc_total_assignments (metrics w)
               \/ metrics (snd (post_ports_request cfg os (JStr name)
                                  preferred x_pid w))
                  = inc_errors (metrics w)) as Hfresh.
    { intros d0 [d1 [_ [[port [msg [started [_ [_ [_ [_ Hm]]]]]]]
                       | [e [_ [_ [_ Hm]]]]]]]; [left | right]; exact Hm. }
    destruct (find (has_project name) (db w)) as [e |].
    + destruct Heff as [[_ [_ Hm]] | H]; [left; exact Hm |].
      right. right. exact (Hfresh _ H).
    + right. right. exact (Hfresh _ Heff).
Qed.

Lemma handle_keeps_retries rq w :
  race_condition_retries (metrics (snd (handle cfg os rq w)))
  = race_condition_retries (metrics w).
Proof.
  destruct rq as [project preferred x_pid | port project | |]; cbn [handle].
  - pose proof (claim_metrics project preferred x_pid w) as H.
    destruct (post_ports_request _ _ _ _ _ w) as [[r | e] w'];
      cbn [snd] in H |- *;
      destruct H as [-> | [-> | [-> | ->]]]; reflexivity.
  - destruct (release_effect port project w)
      as [r [keep [m' [Hrun [_ Hm]]]]].
    rewrite Hrun. cbn [snd metrics].
    destruct Hm as [-> | [-> | [n [_ ->]]]]; reflexivity.
  - unfold post_ports_cleanup, try_catch, bind.
    destruct (cleanupStale_runs os w) as [freed [w' [Hrun [_ Hm]]]].
    rewrite Hrun. cbn [snd ret]. rewrite Hm.
    destruct (0 <? _); reflexivity.
  - destruct (cleanupStale_runs os w) as [freed [w' [Hrun [_ Hm]]]].
    rewrite Hrun. cbn [snd]. rewrite Hm.
    destruct (0 <? _); reflexivity.
Qed.

End RunInvariants.

(** X5. The rows of the table never leave the configured range: when
    every row sits on a port between [range_start] and [range_end] that
    is not reserved, so does every row after any sequence of claims,
    releases, cleanup calls and timer sweeps, whatever the operating
    system answers. *)
Theorem rows_stay_in_range (cfg : Config) (os : OS) (rqs : list request) :
  forall w,
    ports_in_range cfg (db w) ->
    ports_in_range cfg (db (run cfg os rqs w)).
Proof.
  induction rqs as [| rq rest IH]; intros w Hw; cbn [run]; [exact Hw |].
  apply IH, handle_keeps_range, Hw.
Qed.

(** X6. The retry of a claim on a primary-key conflict never fires: in
    every run the counter [race_condition_retries] keeps the value it
    started with, since each attempt inserts on a port it has just found
    free or cleared, within one synchronous handler. *)
Theorem constraint_retry_never_fires (cfg : Config) (os : OS)
    (rqs : list request) :
  forall w,
    race_condition_retries (metrics (run cfg os rqs w))
    = race_condition_retries (metrics w).
Proof.
  induction rqs as [| rq rest IH]; intros w; cbn [run]; [reflexivity |].
  rewrite IH. apply handle_keeps_retries.
Qed.

(** X7. No handler lets an exception escape: a claim is always answered
    with status 200, 400 or 500, a release with 200 or 400, a cleanup
    call with 200; a release and a cleanup call leave the error counter
    as it is. The timer sweep answers nobody. *)
Theorem every_request_is_answered (cfg : Config) (os : OS) (rq : request)
    (w : World) :
  match rq with
  | PostPortsRequest _ _ _ =>
      exists r, fst (handle cfg os rq w) = Some r
                /\ (status r = 200 \/ status r = 400 \/ status r = 500)
  | DeletePortsRelease _ _ =>
      exists r, fst (handle cfg os rq w) = Some r
                /\ (status r = 200 \/ status r = 400)
                /\ errors (metrics (snd (handle cfg os rq w)))
                   = errors (metrics w)
  | PostPortsCleanup =>
      exists r, fst (handle cfg os rq w) = Some r
                /\ status r = 200
                /\ errors (metrics (snd (handle cfg os rq w)))
                   = errors (metrics w)
  | CleanupTimer => fst (handle cfg os rq w) = None
  end.
Proof.
  destruct rq as [project preferred x_pid | port project | |]; cbn [handle].
  - destruct (claim_cases cfg os project preferred x_pid w)
      as [[e [_ Hrun]] | [name [pid [pp [-> [Hv [Hpid [Hport Heff]]]]]]]].
    + rewrite Hrun. eexists. split; [reflexivity |]. right. left. reflexivity.
    + unfold valid_claim_effect in Heff.
      destruct (post_ports_request cfg os (JStr name) preferred x_pid w)
        as [o w'].
      assert (forall d0,
                 fresh_claim_effect cfg name pp (pid_or_self cfg pid) d0
                   (metrics w) (o, w') ->
                 exists r, o = Return r /\ (status r = 200 \/ status r = 500))
        as Hfresh.
      { intros d0 [d1 [_ [[port [msg [started [H _]]]] | [e [H _]]]]];
          cbn [fst] in H; rewrite H; eexists; (split; [reflexivity |]);
          [left | right]; reflexivity. }
      assert (exists r, o = Return r /\ (status r = 200 \/ status r = 500))
        as [r [-> Hst]].
      { destruct (find (has_project name) (db w)) as [e |].
        - destruct Heff as [[H _] | H]; [| exact (Hfresh _ H)].
          cbn [fst] in H. rewrite H. eexists. split; [reflexivity |].
          left. reflexivity.
        - exact (Hfresh _ Heff). }
      exists r. split; [reflexivity | tauto].
  - destruct (release_effect port project w)
      as [r [keep [m' [Hrun [Hst Hm]]]]].
    rewrite Hrun. exists r. split; [reflexivity |]. split; [exact Hst |].
    cbn [snd metrics].
    destruct Hm as [-> | [-> | [n [_ ->]]]]; reflexivity.
  - unfold post_ports_cleanup, try_catch, bind.
    destruct (cleanupStale_runs os w) as [freed [w' [Hrun [_ Hm]]]].
    rewrite Hrun. eexists. split; [reflexivity |]. split; [reflexivity |].
    cbn [snd ret]. rewrite Hm. destruct (0 <? _); reflexivity.
  - reflexivity.
Qed.

(** *** Claims and the rows of other projects *)

Lemma foreign_row_kept_by_update d e r seen :
  NoDup (map r_port d) -> In e d -> r_project r <> r_project e ->
  (In r (update_last_seen seen (r_port e) d) <-> In r d).
Proof.
  intros Hnd He Hne. unfold update_last_seen. rewrite in_map_iff. split.
  - intros [r0 [Hr Hin]]. destruct (r_port r0 =? r_port e) eqn:E.
    + apply Z.eqb_eq in E.
      assert (r0 = e) as -> by (eapply NoDup_map_inj; eauto).
      subst r. cbn [set_last_seen r_project] in Hne. contradiction.
    + subst r. exact Hin.
  - intros Hin. exists r. split; [| exact Hin].
    destruct (r_port r =? r_port e) eqn:E; [| reflexivity].
    apply Z.eqb_eq in E.
    assert (r = e) as -> by (eapply NoDup_map_inj; eauto).
    contradiction.
Qed.

Lemma foreign_row_kept_by_delete d e r :
  NoDup (map r_port d) -> In e d -> r_project r <> r_project e ->
  (In r (delete_where (has_port (r_port e)) d) <-> In r d).
Proof.
  intros Hnd He Hne. unfold delete_where. rewrite filter_In. split.
  - intros [Hin _]. exact Hin.
  - intros Hin. split; [exact Hin |]. unfold has_port.
    destruct (r_port r =? r_port e) eqn:E; [| reflexivity].
    apply Z.eqb_eq in E.
    assert (r = e) as -> by (eapply NoDup_map_inj; eauto).
    contradiction.
Qed.

Lemma kept_when_cleared pp d d1 r :
  cleared pp d d1 -> In r d -> pp <> Some (r_port r) -> In r d1.
Proof.
  intros [-> | [p [Hp ->]]] Hin Hne; [exact Hin |].
  apply filter_In. split; [exact Hin |]. unfold has_port.
  destruct (r_port r =? p) eqn:E; [| reflexivity].
  apply Z.eqb_eq in E. subst p. contradiction.
Qed.

(** X8. A claim never creates or alters a row of another project, and it
    removes such a row only from its own preferred port: with distinct
    ports in the table, every row of another project found after the
    claim was there before, and every such row from before is still
    there unless it sat on the port the claim asked for. *)
Theorem claim_leaves_other_projects (cfg : Config) (os : OS)
    (project preferred x_pid : jsval) (w : World) (r : Row) :
  NoDup (map r_port (db w)) ->
  project <> JStr (r_project r) ->
  let w' := snd (post_ports_request cfg os project preferred x_pid w) in
  (In r (db w') -> In r (db w))
  /\ (In r (db w) -> parseInt preferred <> Some (r_port r) -> In r (db w')).
Proof.
  intros Hnd Hother w'. subst w'.
  destruct (claim_cases cfg os project preferred x_pid w)
    as [[e [_ Hrun]] | [name [pid [pp [-> [Hv [Hpid [Hport Heff]]]]]]]].
  - rewrite Hrun. split; [intros H; exact H | intros H _; exact H].
  - assert (r_project r <> name) as Hne by congruence.
    assert (parseInt preferred <> Some (r_port r) -> pp <> Some (r_port r))
      as Hpp.
    { intros Hp ->. apply validatePreferredPort_some in Hport as [Hparse _].
      contradiction. }
    unfold valid_claim_effect in Heff.
    assert (forall d0,
               fresh_claim_effect cfg name pp (pid_or_self cfg pid) d0
                 (metrics w)
                 (post_ports_request cfg os (JStr name) preferred x_pid w) ->
               (In r (db (snd (post_ports_request cfg os (JStr name)
                                 preferred x_pid w))) -> In r d0)
               /\ (In r d0 -> parseInt preferred <> Some (r_port r) ->
                   In r (db (snd (post_ports_request cfg os (JStr name)
                                    preferred x_pid w))))) as Hfresh.
    { intros d0 [d1 [Hc H]].
      destruct H as [[port [msg [started [_ [Hdb _]]]]]
                    | [e [_ [_ [Hdb _]]]]]; rewrite Hdb.
      - split.
        + intros Hin. apply In_insert_row in Hin as [-> | Hin];
            [cbn [r_project] in Hne; contradiction |].
          eapply In_cleared; eauto.
        + intros Hin Hp. apply In_insert_row. right.
          eapply kept_when_cleared; eauto.
      - split; [intros Hin; eapply In_cleared; eauto |].
        intros Hin Hp. eapply kept_when_cleared; eauto. }
    destruct (find (has_project name) (db w)) as [e |] eqn:Hfind;
      [| exact (Hfresh _ Heff)].
    apply find_some in Hfind as [He Hproj].
    unfold has_project in Hproj. apply String.eqb_eq in Hproj.
    assert (r_project r <> r_project e) as Hne' by congruence.
    destruct Heff as [[_ [Hdb _]] | H].
    + rewrite Hdb.
      pose proof (foreign_row_kept_by_update (db w) e r
                    (os_now os (tick w)) Hnd He Hne') as Hiff.
      split; [apply Hiff | intros Hin _; apply Hiff, Hin].
    + destruct (Hfresh _ H) as [H1 H2].
      pose proof (foreign_row_kept_by_delete (db w) e r Hnd He Hne') as Hiff.
      split; [intros Hin; apply Hiff, H1, Hin |].
      intros Hin Hp. apply H2; [apply Hiff, Hin | exact Hp].
Qed.

(** *** Claim, then release *)

Lemma delete_project_absent name d :
  ~ In name (map r_project d) -> delete_where (has_project name) d = d.
Proof.
  intros Hnin. unfold delete_where. induction d as [| x t IH]; simpl;
    [reflexivity |].
  unfold has_project at 1. destruct (String.eqb (r_project x) name) eqn:E.
  - apply String.eqb_eq in E. exfalso. apply Hnin. left. exact E.
  - simpl. f_equal. apply IH. intros Hin. apply Hnin. right. exact Hin.
Qed.

Lemma delete_project_inserted name port pid started seen d :
  ~ In name (map r_project d) ->
  delete_where (has_project name)
    (insert_row (mkRow port name pid started seen) d) = d.
Proof.
  intros Hnin. unfold delete_where.
  induction d as [| x t IH]; cbn [insert_row r_port].
  - cbn [filter]. unfold has_project. cbn [r_project].
    rewrite String.eqb_refl. reflexivity.
  - assert (has_project name x = false) as Hx.
    { unfold has_project. apply String.eqb_neq. intros E. apply Hnin.
      left. exact E. }
    assert (filter (fun r => negb (has_project name r)) t = t) as Ht.
    { apply (delete_project_absent name t). intros Hin. apply Hnin.
      right. exact Hin. }
    destruct (port <? r_port x); cbn [filter].
    + unfold has_project at 1. cbn [r_project]. rewrite String.eqb_refl.
      cbn [negb]. rewrite Hx. cbn [negb]. rewrite Ht. reflexivity.
    + rewrite Hx. cbn [negb]. f_equal. apply IH. intros Hin. apply Hnin.
      right. exact Hin.
Qed.

Lemma find_project_absent name d :
  ~ In name (map r_project d) -> find (has_project name) d = None.
Proof.
  intros Hnin. destruct (find (has_project name) d) as [e |] eqn:E;
    [| reflexivity].
  apply find_some in E as [Hin Hp]. unfold has_project in Hp.
  apply String.eqb_eq in Hp. exfalso. apply Hnin, in_map_iff.
  exists e. split; assumption.
Qed.

Lemma release_by_project_runs name w :
  is_valid (validateProjectName (JStr name)) = true ->
  db (snd (delete_ports_release JUndefined (JStr name) w))
  = delete_where (has_project name) (db w).
Proof.
  intros Hv. unfold delete_ports_release, try_catch, bind.
  cbn [is_undefined negb].
  destruct (validateProjectName (JStr name)); [| discriminate]. reflexivity.
Qed.

(** X9. Claim, then release by project, is a round trip on the table:
    when the project had no row, the table after the two requests is the
    table before, whatever the claim answered. The one exception is a
    claim with a preferred port: a row found on that port whose owner is
    reported dead has been removed for good. *)
Theorem claim_then_release_restores (cfg : Config) (os : OS) (name : string)
    (preferred x_pid : jsval) (w : World) :
  is_valid (validateProjectName (JStr name)) = true ->
  ~ In name (map r_project (db w)) ->
  let w1 := snd (post_ports_request cfg os (JStr name) preferred x_pid w) in
  let w2 := snd (delete_ports_release JUndefined (JStr name) w1) in
  db w2 = db w
  \/ exists p, parseInt preferred = Some p
               /\ db w2 = delete_where (has_port p) (db w).
Proof.
  intros Hv Hnin w1 w2. subst w1 w2.
  rewrite (release_by_project_runs name _ Hv).
  destruct (claim_cases cfg os (JStr name) preferred x_pid w)
    as [[e [_ Hrun]] | [name' [pid [pp [Hname [_ [Hpid [Hport Heff]]]]]]]].
  - rewrite Hrun. left. apply delete_project_absent, Hnin.
  - inversion Hname; subst name'. clear Hname.
    unfold valid_claim_effect in Heff.
    rewrite (find_project_absent _ _ Hnin) in Heff.
    destruct Heff as [d1 [Hc H]].
    assert (~ In name (map r_project d1)) as Hnin1.
    { intros Hin. apply Hnin. apply in_map_iff in Hin as [r [Hr Hin]].
      apply in_map_iff. exists r. split; [exact Hr |].
      eapply In_cleared; eauto. }
    assert (delete_where (has_project name)
              (db (snd (post_ports_request cfg os (JStr name) preferred
                          x_pid w))) = d1) as ->.
    { destruct H as [[port [msg [started [_ [Hdb _]]]]]
                    | [e [_ [_ [Hdb _]]]]]; rewrite Hdb.
      - apply delete_project_inserted, Hnin1.
      - apply delete_project_absent, Hnin1. }
    destruct Hc as [-> | [p [-> ->]]]; [left; reflexivity | right].
    exists p. split; [| reflexivity].
    apply validatePreferredPort_some in Hport as [Hparse _]. exact Hparse.
Qed.

(** *** Releases *)

(** X10. A release never calls the operating system, so it deletes a row
    whether or not its owner is alive, and it leaves the cache of
    listening ports alone. When [port] is given, [project] is not looked
    at. When neither is given the answer is 400 with
    [port or project required] and nothing changes, not even the
    counter of validation failures. *)
Theorem release_dispatch (port project : jsval) (w : World) :
  calls (snd (delete_ports_release port project w)) = calls w
  /\ systemPortsCache (snd (delete_ports_release port project w))
     = systemPortsCache w
  /\ (port <> JUndefined ->
      delete_ports_release port project w
      = delete_ports_release port JUndefined w)
  /\ (port = JUndefined -> project = JUndefined ->
      delete_ports_release port project w
      = (Return (mkResponse 400 [("error", JStr "port or project required")]),
         w)).
Proof.
  split; [| split; [| split]].
  - destruct (release_effect port project w) as [r [keep [m' [Hrun _]]]].
    rewrite Hrun. reflexivity.
  - destruct (release_effect port project w) as [r [keep [m' [Hrun _]]]].
    rewrite Hrun. reflexivity.
  - intros Hp. unfold delete_ports_release.
    destruct port; try reflexivity. contradiction.
  - intros -> ->. reflexivity.
Qed.

Lemma validatePort_valid v :
  is_valid (validatePort v) = true
  <-> (v = JUndefined \/ v = JNull
       \/ exists p, parseInt v = Some p /\ 1 <= p <= 65535).
Proof.
  split.
  - intros H. destruct (validatePort v) as [[p |] | e] eqn:Hv;
      [| | discriminate].
    + apply validatePort_some in Hv. right. right. exists p. exact Hv.
    + apply validatePort_none in Hv. tauto.
  - intros [-> | [-> | [p [Hparse Hr]]]]; [reflexivity .. |].
    unfold validatePort. rewrite Hparse.
    assert (((p <? 1) || (p >? 65535)) = false) as -> by lia.
    destruct v; reflexivity.
Qed.

Lemma validatePort_error v e :
  validatePort v = Invalid e -> e = "port must be between 1 and 65535".
Proof.
  unfold validatePort. intros H.
  destruct v; try discriminate;
    destruct (parseInt _) as [q |] in H;
    try destruct ((q <? 1) || (q >? 65535)) in H;
    inversion H; reflexivity.
Qed.

(** A number is read through its printed form: from 10^21 on that form
    has an exponent, and [parseInt] stops at the first character that is
    no digit. *)
Example parseInt_of_large_numbers :
  toString (JNum (10 ^ 21)) = "1e+21"
  /\ parseInt (JNum (10 ^ 21)) = Some 1
  /\ toString (JNum (2 ^ 70)) = "1.1805916207174113e+21"
  /\ toString (JNum (2 ^ 63)) = "9223372036854776000"
  /\ parseInt (JNum 65535) = Some 65535.
Proof. repeat split; vm_compute; reflexivity. Qed.

(** X11. A release by port whose value is not null and does not parse to
    an integer from 1 to 65535 is answered 400 with
    [port must be between 1 and 65535]. A release by port that is turned
    down adds one to the validation failures and changes nothing else:
    no row is deleted. One that is not turned down adds exactly one to
    [total_releases]. *)
Theorem release_by_port_validation (port project : jsval) (w : World) :
  port <> JUndefined ->
  let x := delete_ports_release port project w in
  (port <> JNull ->
   (forall p, parseInt port = Some p -> p < 1 \/ 65535 < p) ->
   fst x = Return (mkResponse 400
                     [("error", JStr "port must be between 1 and 65535")]))
  /\ (rejected x ->
      snd x = set_metrics (inc_validation_failures (metrics w)) w)
  /\ (~ rejected x ->
      metrics (snd x) = add_total_releases 1 (metrics w)).
Proof.
  intros Hp x. subst x.
  assert (delete_ports_release port project w
          = try_catch
              (match validatePort port with
               | Invalid e => validation_failed e
               | Valid p =>
                   _existing <- (match p with
                                 | Some n => stmt_getByPort n
                                 | None => ret None
                                 end) ;;
                   (match p with
                    | Some n => stmt_deleteByPort n
                    | None => ret tt
                    end) ;;;
                   bump (add_total_releases 1) ;;;
                   ret (res_json
                          [("success", JBool true);
                           ("message",
                            JStr ("released port "
                                  ++ match p with
                                     | Some n => string_of_Z n
                                     | None => "null"
                                     end))])
               end) on_error w) as ->.
  { unfold delete_ports_release. destruct port; try reflexivity.
    contradiction. }
  pose proof (validatePort_valid port) as Hiff.
  destruct (validatePort port) as [p | e] eqn:Hv.
  - assert (~ rejected
              (try_catch
                 (_existing <- (match p with
                                | Some n => stmt_getByPort n
                                | None => ret None
                                end) ;;
                  (match p with
                   | Some n => stmt_deleteByPort n
                   | None => ret tt
                   end) ;;;
                  bump (add_total_releases 1) ;;;
                  ret (res_json
                         [("success", JBool true);
                          ("message",
                           JStr ("released port "
                                 ++ match p with
                                    | Some n => string_of_Z n
                                    | None => "null"
                                    end))])) on_error w)) as Hnot.
    { intros [r [Hr H400]]. destruct p; cbn in Hr; inversion Hr; subst r;
        discriminate. }
    split; [| split].
    + intros Hnull Hbad. exfalso.
      destruct (proj1 Hiff eq_refl) as [H | [H | [q [Hq Hr]]]];
        [contradiction | contradiction |].
      destruct (Hbad q Hq); lia.
    + intros H. contradiction.
    + intros _. destruct p; reflexivity.
  - apply validatePort_error in Hv. subst e.
    split; [| split].
    + intros _ _. reflexivity.
    + intros _. reflexivity.
    + intros Hnot. exfalso. apply Hnot. eexists. split; reflexivity.
Qed.

(** *** The sweep of stale rows *)

(** X12. With distinct ports in the table, a sweep always returns, and
    the rows it reports as freed together with the rows it leaves are
    exactly the rows it started from, whatever the operating system
    answers: no row is lost unreported, none is reported and kept. The
    cleanup call answers 200 with these rows and their number, and the
    counters move by that number: one more cleanup and [count] more
    freed ports when [count] is positive, nothing otherwise. *)
Theorem cleanup_frees_what_it_reports (os : OS) (w : World) :
  NoDup (map r_port (db w)) ->
  exists freed w',
    cleanupStale os w = (Return freed, w')
    /\ Permutation (db w' ++ freed) (db w)
    /\ post_ports_cleanup os w
       = (Return (mkResponse 200
                    [("freed", JArr (map freed_json freed));
                     ("count", JNum (Z.of_nat (List.length freed)))]), w')
    /\ metrics w'
       = (if 0 <? Z.of_nat (List.length freed)
          then note_cleanup (Z.of_nat (List.length freed)) (metrics w)
          else metrics w).
Proof.
  intros Hnd.
  destruct (cleanup_loop_splits os (db w) [] [] w eq_refl Hnd)
    as [kept [freed [w1 [Hloop [Hdb Hperm]]]]].
  destruct (cleanupStale_runs os w) as [freed' [w' [Hrun [_ Hm]]]].
  assert (freed' = freed /\ db w' = db w1) as [-> Hdb'].
  { revert Hrun. unfold cleanupStale, bind, stmt_getAll, gets.
    rewrite Hloop. cbn [app].
    destruct (0 <? Z.of_nat (List.length freed)); intros H; inversion H;
      split; reflexivity. }
  exists freed, w'. split; [exact Hrun |].
  split; [rewrite Hdb', Hdb; exact Hperm |].
  split; [| exact Hm].
  unfold post_ports_cleanup, try_catch, bind. rewrite Hrun. reflexivity.
Qed.

(** *** The listing of listening ports *)

Lemma dedupe_fresh l : forall seen p,
  In p (map sp_port (dedupe seen l)) -> includes seen p = false.
Proof.
  induction l as [| x t IH]; intros seen p Hin; cbn [dedupe] in Hin;
    [contradiction |].
  destruct (includes seen (sp_port x)) eqn:E; [apply IH, Hin |].
  destruct Hin as [<- | Hin]; [exact E |].
  apply IH in Hin. unfold includes in Hin |- *. cbn [existsb] in Hin.
  apply orb_false_iff in Hin as [_ Hin]. exact Hin.
Qed.

Lemma dedupe_NoDup l : forall seen, NoDup (map sp_port (dedupe seen l)).
Proof.
  induction l as [| x t IH]; intros seen; cbn [dedupe]; [constructor |].
  destruct (includes seen (sp_port x)); [apply IH |].
  cbn [map]. constructor; [| apply IH].
  intros Hin. apply dedupe_fresh in Hin. unfold includes in Hin.
  cbn [existsb] in Hin. rewrite Z.eqb_refl in Hin. discriminate.
Qed.

(** Of the entries with one port, the first is the one kept. *)
Lemma dedupe_first l p : forall seen,
  find (fun e => sp_port e =? p) (dedupe seen l)
  = if includes seen p then None else find (fun e => sp_port e =? p) l.
Proof.
  induction l as [| x t IH]; intros seen; cbn [dedupe find].
  - destruct (includes seen p); reflexivity.
  - destruct (includes seen (sp_port x)) eqn:E.
    + rewrite IH. destruct (sp_port x =? p) eqn:Ep; [| reflexivity].
      apply Z.eqb_eq in Ep. subst p. rewrite E. reflexivity.
    + cbn [find]. destruct (sp_port x =? p) eqn:Ep.
      * apply Z.eqb_eq in Ep. subst p. rewrite E. reflexivity.
      * rewrite IH. unfold includes. cbn [existsb].
        rewrite (Z.eqb_sym p (sp_port x)), Ep. reflexivity.
Qed.

Lemma sort_insert_perm p l : Permutation (sort_insert p l) (p :: l).
Proof.
  induction l as [| x t IH]; cbn [sort_insert]; [reflexivity |].
  destruct (sp_port p <? sp_port x); [reflexivity |].
  rewrite IH. apply perm_swap.
Qed.

Lemma sort_by_port_perm l : Permutation (sort_by_port l) l.
Proof.
  induction l as [| x t IH]; [reflexivity |].
  unfold sort_by_port in *. cbn [fold_right].
  rewrite sort_insert_perm. constructor. exact IH.
Qed.

Lemma sort_insert_ascending p l :
  ascending (map sp_port l) ->
  ~ In (sp_port p) (map sp_port l) ->
  ascending (map sp_port (sort_insert p l)).
Proof.
  induction l as [| x t IH]; intros Hasc Hnin; cbn [sort_insert].
  - cbn. split; [intros y [] | exact I].
  - cbn [map ascending] in Hasc. destruct Hasc as [Hx Ht].
    destruct (sp_port p <? sp_port x) eqn:E.
    + cbn [map ascending]. split; [| split; assumption].
      intros y [<- | Hy]; [lia |]. specialize (Hx y Hy). lia.
    + cbn [map ascending]. split.
      * intros y Hy.
        apply (Permutation_in _ (Permutation_map sp_port
                                   (sort_insert_perm p t))) in Hy.
        destruct Hy as [<- | Hy]; [| apply Hx, Hy].
        assert (sp_port p <> sp_port x)
          by (intros Heq; apply Hnin; left; symmetry; exact Heq).
        lia.
      * apply IH; [exact Ht |]. intros Hin. apply Hnin. right. exact Hin.
Qed.

Lemma sort_by_port_ascending l :
  NoDup (map sp_port l) -> ascending (map sp_port (sort_by_port l)).
Proof.
  induction l as [| x t IH]; intros Hnd; [exact I |].
  inversion Hnd as [| ? ? Hnin Hnd']; subst.
  unfold sort_by_port in *. cbn [fold_right].
  apply sort_insert_ascending; [apply IH, Hnd' |].
  intros Hin. apply Hnin.
  apply (Permutation_in _ (Permutation_map sp_port (sort_by_port_perm t))).
  exact Hin.
Qed.

Lemma find_port_perm l l' p :
  NoDup (map sp_port l) -> Permutation l l' ->
  find (fun e => sp_port e =? p) l' = find (fun e => sp_port e =? p) l.
Proof.
  intros Hnd Hperm.
  destruct (find (fun e => sp_port e =? p) l) as [e |] eqn:El.
  - apply find_some in El as [He Hp]. apply Z.eqb_eq in Hp.
    destruct (find (fun e => sp_port e =? p) l') as [e' |] eqn:El'.
    + apply find_some in El' as [He' Hp']. apply Z.eqb_eq in Hp'.
      f_equal. eapply (NoDup_map_inj sp_port l); eauto.
      * eapply Permutation_in; [apply Permutation_sym, Hperm | exact He'].
      * congruence.
    + pose proof (find_none _ _ El' e
                    (Permutation_in _ Hperm He)) as Hn.
      cbv beta in Hn. rewrite Hp, Z.eqb_refl in Hn. discriminate.
  - destruct (find (fun e => sp_port e =? p) l') as [e' |] eqn:El';
      [| reflexivity].
    apply find_some in El' as [He' Hp'].
    pose proof (find_none _ _ El e'
                  (Permutation_in _ (Permutation_sym Hperm) He')) as Hn.
    cbv beta in Hn. congruence.
Qed.

(** X13. The listing [getSystemPorts] builds from the output of [lsof]
    is in strictly ascending port order, so no port appears twice, and
    for every port it holds the first of the parsed lines with that
    port (none when no line has it). [getSystemPorts] therefore keeps
    an ascending cache ascending, and answers in ascending order. *)
Theorem system_ports_listing_ascending (os : OS) (stdout : string)
    (w : World) :
  ascending (map sp_port (listing_ports stdout))
  /\ (forall p,
        find (fun e => sp_port e =? p) (listing_ports stdout)
        = find (fun e => sp_port e =? p)
            (parse_lines
               (firstn 1000 (tl (split_char newline (trim stdout))))))
  /\ (cache_sorted w ->
      cache_sorted (snd (getSystemPorts os w))
      /\ exists l, fst (getSystemPorts os w) = Return l
                   /\ ascending (map sp_port l)).
Proof.
  assert (forall out, ascending (map sp_port (listing_ports out))) as Hasc.
  { intros out. unfold listing_ports. apply sort_by_port_ascending.
    apply dedupe_NoDup. }
  split; [apply Hasc |]. split.
  - intros p. unfold listing_ports.
    rewrite (find_port_perm _ _ p (dedupe_NoDup _ [])
               (Permutation_sym (sort_by_port_perm _))).
    rewrite dedupe_first. reflexivity.
  - unfold cache_sorted. intros Hw.
    assert (forall now w1,
               systemPortsCache w1 = systemPortsCache w ->
               ascending (map sp_port
                            (data_or_empty
                               (systemPortsCache
                                  (snd (scan_system_ports os now w1)))))
               /\ exists l, fst (scan_system_ports os now w1) = Return l
                            /\ ascending (map sp_port l)) as Hscan.
    { intros now w1 Hc.
      unfold scan_system_ports, bind, gets, spawn_lsof_listen, modify, ret.
      destruct (os_lsof_listen os (tick w1)) as [result |].
      - destruct (negb (sr_status result =? 0)
                  || is_empty (sr_stdout result)).
        + cbn [fst snd systemPortsCache log_call]. rewrite Hc.
          split; [exact Hw |]. eexists. split; [reflexivity | exact Hw].
        + cbn [fst snd systemPortsCache log_call set_cache data_or_empty data].
          split; [apply Hasc |]. eexists. split; [reflexivity | apply Hasc].
      - cbn [fst snd systemPortsCache log_call]. rewrite Hc.
        split; [exact Hw |]. eexists. split; [reflexivity | exact Hw]. }
    unfold getSystemPorts, bind, Date_now, gets.
    cbn [systemPortsCache log_call].
    destruct (data (systemPortsCache w)) as [d |] eqn:Hd;
      [| apply Hscan; reflexivity].
    destruct (os_now os (tick w) - timestamp (systemPortsCache w)
              <? SYSTEM_PORTS_CACHE_TTL); [| apply Hscan; reflexivity].
    cbn [fst snd ret systemPortsCache log_call].
    unfold data_or_empty in Hw. rewrite Hd in Hw.
    split; [unfold data_or_empty; rewrite Hd; exact Hw |].
    exists d. split; [reflexivity | exact Hw].
Qed.

(** *** Rows and counted assignments *)

Lemma length_insert_row r d :
  List.length (insert_row r d) = S (List.length d).
Proof. apply (Permutation_length (insert_row_perm r d)). Qed.

Lemma length_cleared pp d d1 :
  cleared pp d d1 -> (List.length d1 <= List.length d)%nat.
Proof.
  intros [-> | [p [_ ->]]]; [lia |]. apply filter_length_le.
Qed.

Section Accounting.
Variable cfg : Config.
Variable os : OS.

Lemma handle_counts_rows rq w :
  Z.of_nat (List.length (db (snd (handle cfg os rq w))))
  - Z.of_nat (List.length (db w))
  <= total_assignments (metrics (snd (handle cfg os rq w)))
     - total_assignments (metrics w).
Proof.
  destruct rq as [project preferred x_pid | port project | |]; cbn [handle].
  - assert (Z.of_nat (List.length
                        (db (snd (post_ports_request cfg os project
                                    preferred x_pid w))))
            - Z.of_nat (List.length (db w))
            <= total_assignments
                 (metrics (snd (post_ports_request cfg os project
                                  preferred x_pid w)))
               - total_assignments (metrics w)) as H.
    { destruct (claim_cases cfg os project preferred x_pid w)
        as [[e [_ Hrun]] | [name [pid [pp [-> [Hv [Hpid [Hport Heff]]]]]]]].
      - rewrite Hrun. cbn. lia.
      - unfold valid_claim_effect in Heff.
        assert (forall d0,
                   (List.length d0 <= List.length (db w))%nat ->
                   fresh_claim_effect cfg name pp (pid_or_self cfg pid) d0
                     (metrics w)
                     (post_ports_request cfg os (JStr name) preferred
                        x_pid w) ->
                   Z.of_nat (List.length
                               (db (snd (post_ports_request cfg os
                                           (JStr name) preferred x_pid w))))
                   - Z.of_nat (List.length (db w))
                   <= total_assignments
                        (metrics (snd (post_ports_request cfg os (JStr name)
                                         preferred x_pid w)))
                      - total_assignments (metrics w)) as Hfresh.
        { intros d0 Hd0 [d1 [Hc H]]. apply length_cleared in Hc.
          destruct H as [[port [msg [started [_ [Hdb [_ [_ Hm]]]]]]]
                        | [e [_ [_ [Hdb Hm]]]]]; rewrite Hdb, Hm.
          - rewrite length_insert_row. cbn [total_assignments
                                             inc_total_assignments]. lia.
          - cbn [total_assignments inc_errors]. lia. }
        destruct (find (has_project name) (db w)) as [e |].
        + destruct Heff as [[_ [Hdb Hm]] | H].
          * rewrite Hdb, Hm. unfold update_last_seen. rewrite length_map.
            lia.
          * apply (Hfresh _ (filter_length_le _ _) H).
        + apply (Hfresh _ (le_n _) Heff). }
    destruct (post_ports_request _ _ _ _ _ w) as [[r | e] w']; exact H.
  - destruct (release_effect port project w)
      as [r [keep [m' [Hrun [_ Hm]]]]].
    rewrite Hrun. cbn [snd db metrics].
    pose proof (filter_length_le keep (db w)).
    destruct Hm as [-> | [-> | [n [_ ->]]]]; cbn; lia.
  - pose proof (keeps_cleanupStale_filter os
                  (fun d => (List.length d <= List.length (db w))%nat)
                  (fun p d H => Nat.le_trans _ _ _ (filter_length_le p d) H)
                  w (le_n _)) as Hlen.
    unfold post_ports_cleanup, try_catch, bind.
    destruct (cleanupStale_runs os w) as [freed [w' [Hrun [_ Hm]]]].
    rewrite Hrun in Hlen |- *. unfold on_db in Hlen.
    cbn [snd ret] in Hlen |- *. rewrite Hm.
    destruct (0 <? _); cbn [total_assignments note_cleanup]; lia.
  - pose proof (keeps_cleanupStale_filter os
                  (fun d => (List.length d <= List.length (db w))%nat)
                  (fun p d H => Nat.le_trans _ _ _ (filter_length_le p d) H)
                  w (le_n _)) as Hlen.
    destruct (cleanupStale_runs os w) as [freed [w' [Hrun [_ Hm]]]].
    rewrite Hrun in Hlen |- *. unfold on_db in Hlen.
    cbn [snd] in Hlen |- *. rewrite Hm.
    destruct (0 <? _); cbn [total_assignments note_cleanup]; lia.
Qed.

End Accounting.

(** X26. Rows come from counted assignments only: over any sequence of
    requests the number of rows grows by no more than the counter
    [total_assignments] does, so a server started on an empty table
    never reports more active ports than total assignments. *)
Theorem rows_come_from_counted_assignments (cfg : Config) (os : OS)
    (rqs : list request) :
  forall w,
    Z.of_nat (List.length (db (run cfg os rqs w)))
    - Z.of_nat (List.length (db w))
    <= total_assignments (metrics (run cfg os rqs w))
       - total_assignments (metrics w).
Proof.
  induction rqs as [| rq rest IH]; intros w; cbn [run]; [lia |].
  pose proof (IH (snd (handle cfg os rq w))) as H1.
  pose proof (handle_counts_rows cfg os rq w) as H2. lia.
Qed.

(* ================================================================== *)
(** ** Further properties of the changelog *)
(* ================================================================== *)

Module ChangelogProperties.
Import Changelog ChangelogFacts ChangelogQueries ChangelogExamples.

(** *** Ancestors *)

Lemma lastIndexOf_none_count s :
  lastIndexOf ":" s = None -> count_char ":" s = O.
Proof.
  induction s as [| d r IH]; cbn [lastIndexOf count_char]; [reflexivity |].
  destruct (lastIndexOf ":" r) as [i |]; [discriminate |].
  destruct (Ascii.eqb d ":"); [discriminate |]. intros _.
  rewrite (IH eq_refl). reflexivity.
Qed.

(** The text before the last colon, the colon, and a last segment free
    of colons make up the identity. *)
Lemma lastIndexOf_split s : forall i,
  lastIndexOf ":" s = Some i ->
  exists c, s = substring 0 i s ++ ":" ++ c /\ count_char ":" c = O.
Proof.
  induction s as [| d r IH]; intros i H; cbn [lastIndexOf] in H;
    [discriminate |].
  destruct (lastIndexOf ":" r) as [j |] eqn:E.
  - inversion H; subst i. destruct (IH j eq_refl) as [c [Hr Hc]].
    exists c. split; [| exact Hc]. cbn [substring append]. f_equal.
    exact Hr.
  - destruct (Ascii.eqb d ":") eqn:Ed; [| discriminate].
    inversion H; subst i. apply Ascii.eqb_eq in Ed. subst d.
    exists r. split; [reflexivity | apply lastIndexOf_none_count, E].
Qed.

Lemma getParentIdentity_split ident p :
  getParentIdentity ident = Some p ->
  exists c, ident = p ++ ":" ++ c /\ count_char ":" c = O.
Proof.
  unfold getParentIdentity.
  destruct (lastIndexOf ":" ident) as [i |] eqn:E; [| discriminate].
  intros H. inversion H; subst p. apply lastIndexOf_split, E.
Qed.

Lemma ancestors_split n : forall ident a,
  (String.length ident <= n)%nat ->
  In a (getAncestors ident) ->
  a <> EmptyString /\ exists rest, ident = a ++ ":" ++ rest.
Proof.
  induction n as [| n IH]; intros ident a Hlen Hin;
    rewrite getAncestors_unfold in Hin.
  - destruct ident; [| cbn in Hlen; lia]. contradiction.
  - destruct (getParentIdentity ident) as [p |] eqn:Ep; [| contradiction].
    destruct (is_empty p) eqn:Ee; [contradiction |].
    destruct (getParentIdentity_split _ _ Ep) as [c [Hident _]].
    destruct Hin as [<- | Hin].
    + split; [intros ->; discriminate |]. exists c. exact Hident.
    + pose proof (getParentIdentity_shorter _ _ Ep) as Hshort.
      destruct (IH p a ltac:(lia) Hin) as [Hne [rest Hp]].
      split; [exact Hne |]. exists (rest ++ ":" ++ c).
      rewrite Hident, Hp, !append_assoc. reflexivity.
Qed.

Lemma prefix_append p s : String.prefix p (p ++ s) = true.
Proof.
  induction p as [| c p IH]; cbn [append String.prefix].
  - destruct s; reflexivity.
  - destruct (ascii_dec c c) as [_ | Hne]; [exact IH | contradiction].
Qed.

Section WithParser.
Variable JSON_parse : string -> jsval.

(** X14. Every ancestor [add] reports for an identity is a non-empty
    proper prefix of it that ends just before a colon, and the tree
    query of that ancestor selects the entry: it matches the pattern of
    the query, and is among the entries listed when the limit binds and
    does not cut the listing. *)
Theorem ancestors_are_colon_prefixes (ident a : string) :
  In a (getAncestors ident) ->
  a <> EmptyString
  /\ (exists rest, ident = a ++ ":" ++ rest)
  /\ like (a ++ "%") ident = true
  /\ (forall t limit r,
        In r (rows t) -> row_identity r = ident ->
        limit_binds limit = true ->
        limit < 0
        \/ Z.of_nat (List.length
                       (filter (fun x => like (a ++ "%") (row_identity x))
                               (rows t))) <= limit ->
        In (formatEntry JSON_parse r)
           (list_entries (listTree JSON_parse t a limit))).
Proof.
  intros Hin.
  destruct (ancestors_split (String.length ident) ident a (le_n _) Hin)
    as [Hne [rest Hident]].
  assert (String.prefix a ident = true) as Hpre
    by (rewrite Hident; apply prefix_append).
  split; [exact Hne |]. split; [exists rest; exact Hident |].
  split; [apply like_prefix, Hpre |].
  intros t limit r Hr Hid _ Hlimit.
  apply ChangelogClaims.listTree_complete; [exact Hlimit | exact Hr |].
  rewrite Hid. exact Hpre.
Qed.

End WithParser.

Lemma count_char_append c x y :
  count_char c (x ++ y) = (count_char c x + count_char c y)%nat.
Proof.
  induction x as [| d x IH]; cbn [append count_char]; [reflexivity |].
  rewrite IH. lia.
Qed.

Lemma ancestors_count n : forall ident,
  (String.length ident <= n)%nat ->
  (forall r, ident <> String ":" r) ->
  List.length (getAncestors ident) = count_char ":" ident.
Proof.
  induction n as [| n IH]; intros ident Hlen Hfirst;
    rewrite getAncestors_unfold.
  - destruct ident; [reflexivity | cbn in Hlen; lia].
  - destruct (getParentIdentity ident) as [p |] eqn:Ep.
    + destruct (getParentIdentity_split _ _ Ep) as [c [Hident Hc]].
      pose proof (getParentIdentity_shorter _ _ Ep) as Hshort.
      destruct p as [| d p'] eqn:Hp.
      * exfalso. apply (Hfirst c). exact Hident.
      * cbn [is_empty List.length]. rewrite <- Hp in *.
        rewrite IH; [| lia |].
        -- rewrite Hident, !count_char_append, Hc.
           cbn [count_char]. rewrite Ascii.eqb_refl. lia.
        -- intros r Hr. apply (Hfirst (r ++ ":" ++ c)).
           rewrite Hident, Hr. reflexivity.
    + unfold getParentIdentity in Ep.
      destruct (lastIndexOf ":" ident) eqn:E; [discriminate |].
      rewrite (lastIndexOf_none_count _ E). reflexivity.
Qed.

(** X15. An identity that does not begin with a colon has as many
    ancestors as it has colons, one less than its depth; a leading
    colon makes the walk stop early, so that [:a] has no ancestor at
    all. In every case the ancestors come nearest first: the first is
    the parent, the rest are the ancestors of the parent. *)
Theorem ancestors_count_is_depth_minus_one (ident : string) :
  ((forall r, ident <> String ":" r) ->
   S (List.length (getAncestors ident)) = getDepth ident)
  /\ (forall r, count_char ":" r = O -> getAncestors (String ":" r) = [])
  /\ (forall a rest,
        getAncestors ident = a :: rest ->
        getParentIdentity ident = Some a /\ rest = getAncestors a).
Proof.
  split; [| split].
  - intros Hfirst. unfold getDepth. f_equal.
    apply (ancestors_count (String.length ident)); [lia | exact Hfirst].
  - intros r Hr. rewrite getAncestors_unfold.
    pose proof (getParentIdentity_segment EmptyString r Hr) as Hp.
    cbn [append] in Hp. rewrite Hp. reflexivity.
  - intros a rest H. rewrite getAncestors_unfold in H.
    destruct (getParentIdentity ident) as [p |]; [| discriminate].
    destruct (is_empty p); [discriminate |].
    inversion H; subst. split; reflexivity.
Qed.

(** *** Order of the answers *)

Lemma insert_desc_latest_first r l :
  latest_first (map row_created_at l) ->
  latest_first (map row_created_at (insert_desc r l)).
Proof.
  induction l as [| x t IH]; intros Hl; cbn [insert_desc].
  - cbn. split; [intros y [] | exact I].
  - cbn [map latest_first] in Hl. destruct Hl as [Hx Ht].
    destruct (row_created_at x <=? row_created_at r) eqn:E.
    + cbn [map latest_first]. split; [| split; assumption].
      intros y [<- | Hy]; [lia |]. specialize (Hx y Hy). lia.
    + cbn [map latest_first]. split; [| apply IH, Ht].
      intros y Hy.
      apply (Permutation_in _ (Permutation_map row_created_at
                                 (insert_desc_perm r t))) in Hy.
      destruct Hy as [<- | Hy]; [lia | apply Hx, Hy].
Qed.

Lemma order_by_created_desc_latest_first l :
  latest_first (map row_created_at (order_by_created_desc l)).
Proof.
  unfold order_by_created_desc. induction l as [| x t IH]; [exact I |].
  cbn [fold_right]. apply insert_desc_latest_first, IH.
Qed.

Lemma In_firstn_part {A} n : forall (l : list A) x,
  In x (firstn n l) -> In x l.
Proof.
  induction n as [| n IH]; intros l x H; [contradiction |].
  destruct l as [| a t]; [contradiction |]. cbn [firstn] in H.
  destruct H as [-> | H]; [left; reflexivity | right; apply IH, H].
Qed.

Lemma firstn_latest_first n : forall l,
  latest_first l -> latest_first (firstn n l).
Proof.
  induction n as [| n IH]; intros l Hl; [exact I |].
  destruct l as [| x t]; [exact I |]. cbn [firstn latest_first].
  destruct Hl as [Hx Ht]. split; [| apply IH, Ht].
  intros y Hy. apply Hx. eapply In_firstn_part. exact Hy.
Qed.

Section Listings.
Variable JSON_parse : string -> jsval.

Lemma createdAt_formatEntry rs :
  map createdAt (map (formatEntry JSON_parse) rs) = map row_created_at rs.
Proof. rewrite map_map. reflexivity. Qed.

Lemma limited_latest_first limit l :
  latest_first
    (map createdAt
       (map (formatEntry JSON_parse)
            (sql_limit limit (order_by_created_desc l)))).
Proof.
  rewrite createdAt_formatEntry. unfold sql_limit.
  destruct (limit <? 0).
  - apply order_by_created_desc_latest_first.
  - rewrite <- firstn_map. apply firstn_latest_first.
    apply order_by_created_desc_latest_first.
Qed.

(** X16. Every listing of the changelog comes latest first: in the
    answers of [list], [listTree], [recent], [listBySession],
    [listByAgent] and [since], no entry is followed by one with a later
    timestamp, whatever the limit. *)
Theorem listings_come_latest_first (t : Table) :
  (forall q limit,
     latest_first
       (map createdAt (list_entries (list_exact JSON_parse t q limit))))
  /\ (forall q limit,
        latest_first
          (map createdAt (list_entries (listTree JSON_parse t q limit))))
  /\ (forall limit,
        latest_first
          (map createdAt (recent_entries (recent JSON_parse t limit))))
  /\ (forall session,
        latest_first
          (map createdAt
               (session_entries (listBySession JSON_parse t session))))
  /\ (forall agent limit,
        latest_first
          (map createdAt
               (agent_entries (listByAgent JSON_parse t agent limit))))
  /\ (forall timestamp limit,
        latest_first
          (map createdAt
               (since_entries (since JSON_parse t timestamp limit)))).
Proof.
  repeat split; intros; try apply limited_latest_first.
  cbn [listBySession session_entries]. rewrite createdAt_formatEntry.
  apply order_by_created_desc_latest_first.
Qed.

End Listings.

(** *** Adding, then reading back *)

Lemma find_app_none {A} (f : A -> bool) l l' :
  find f l = None -> find f (l ++ l') = find f l'.
Proof.
  induction l as [| x t IH]; intros H; [reflexivity |].
  cbn [find app] in H |- *. destruct (f x); [discriminate | apply IH, H].
Qed.

Lemma find_app_some {A} (f : A -> bool) l l' x :
  find f l = Some x -> find f (l ++ l') = Some x.
Proof.
  induction l as [| y t IH]; intros H; [discriminate |].
  cbn [find app] in H |- *. destruct (f y); [exact H | apply IH, H].
Qed.

Section RoundTrip.
Variable JSON_parse : string -> jsval.
Variable JSON_stringify : jsval -> string.

(** X17. [add], then [get] with the id it returned, gives back the entry
    that was added: the identity and summary as given, the type given
    or [feature] when it was absent or empty, the clock reading of the
    call. The id is above the id of every row stored before, and [get]
    with any other id answers as it did before the call. *)
Theorem add_then_get (options : AddOptions) (now : Z) (t : Table) :
  table_ok t ->
  let res := fst (add JSON_stringify options now t) in
  let t' := snd (add JSON_stringify options now t) in
  table_ok t'
  /\ (forall r, In r (rows t) -> row_id r < add_id res)
  /\ (exists e,
        get JSON_parse t' (add_id res) = Found e
        /\ id e = add_id res
        /\ identity e = opt_identity options
        /\ summary e = opt_summary options
        /\ type e = match or_null (opt_type options) with
                    | Some ty => ty
                    | None => "feature"
                    end
        /\ sessionId e = or_null (opt_sessionId options)
        /\ agentId e = or_null (opt_agentId options)
        /\ description e = or_null (opt_description options)
        /\ createdAt e = now)
  /\ (forall i, i <> add_id res ->
                get JSON_parse t' i = get JSON_parse t i).
Proof.
  intros [Hle Hnd] res t'. subst res t'. cbn [add fst snd add_id].
  assert (find (fun r => row_id r =? last_rowid t + 1) (rows t) = None)
    as Hfresh.
  { destruct (find _ (rows t)) as [r |] eqn:E; [| reflexivity].
    apply find_some in E as [Hin Hid]. specialize (Hle r Hin). lia. }
  split; [| split; [| split]].
  - split; cbn [rows last_rowid].
    + intros r Hin. apply in_app_or in Hin as [Hin | [<- | []]].
      * specialize (Hle r Hin). lia.
      * cbn [row_id]. lia.
    + rewrite map_app. cbn [map row_id].
      apply NoDup_app_remove_l with (l := []).
      apply (Permutation_NoDup (l := (last_rowid t + 1) :: map row_id (rows t))).
      * apply Permutation_cons_append.
      * constructor; [| exact Hnd]. intros Hin.
        apply in_map_iff in Hin as [r [Hr Hin]]. specialize (Hle r Hin). lia.
  - intros r Hin. specialize (Hle r Hin). lia.
  - unfold get, stmt_get. cbn [rows].
    rewrite (find_app_none _ _ _ Hfresh). cbn [find row_id].
    rewrite Z.eqb_refl. eexists. split; [reflexivity |].
    repeat split.
  - intros i Hi. unfold get, stmt_get. cbn [rows].
    destruct (find (fun r => row_id r =? i) (rows t)) as [r |] eqn:E.
    + rewrite (find_app_some _ _ _ _ E). reflexivity.
    + rewrite (find_app_none _ _ _ E). cbn [find row_id].
      destruct (last_rowid t + 1 =? i) eqn:Ei; [lia | reflexivity].
Qed.

Lemma order_desc_newest l r :
  (forall x, In x l -> row_created_at x < row_created_at r) ->
  order_by_created_desc (l ++ [r]) = r :: order_by_created_desc l.
Proof.
  unfold order_by_created_desc. induction l as [| x t IH]; intros H;
    [reflexivity |].
  cbn [app fold_right]. rewrite IH by (intros y Hy; apply H; right; exact Hy).
  cbn [insert_desc].
  pose proof (H x (or_introl eq_refl)) as Hx.
  destruct (row_created_at r <=? row_created_at x) eqn:E; [lia | reflexivity].
Qed.

Lemma sql_limit_head {A} limit (x : A) l :
  limit <> 0 -> exists rest, sql_limit limit (x :: l) = x :: rest.
Proof.
  intros Hl. unfold sql_limit. destruct (limit <? 0) eqn:E.
  - exists l. reflexivity.
  - destruct (Z.to_nat limit) as [| n] eqn:En; [lia |].
    exists (firstn n l). reflexivity.
Qed.

(** X18. When the clock is ahead of every stored entry, the entry just
    added is the first one in the answers of [list] and [listTree] for
    its identity and of [recent], for any limit that binds other than
    0. *)
Theorem added_entry_heads_the_listings (options : AddOptions) (now : Z)
    (t : Table) (limit : Z) :
  (forall r, In r (rows t) -> row_created_at r < now) ->
  limit_binds limit = true ->
  limit <> 0 ->
  let res := fst (add JSON_stringify options now t) in
  let t' := snd (add JSON_stringify options now t) in
  exists e,
    id e = add_id res /\ createdAt e = now
    /\ (exists rest,
          list_entries (list_exact JSON_parse t' (opt_identity options) limit)
          = e :: rest)
    /\ (exists rest,
          list_entries (listTree JSON_parse t' (opt_identity options) limit)
          = e :: rest)
    /\ (exists rest,
          recent_entries (recent JSON_parse t' limit) = e :: rest).
Proof.
  intros Hclock _ Hlimit res t'. subst res t'. cbn [add fst snd add_id].
  match goal with
  | |- context [mkTable (rows t ++ [?r])%list _] => set (row := r)
  end.
  exists (formatEntry JSON_parse row).
  split; [reflexivity |]. split; [reflexivity |].
  assert (forall keep : ChangelogRow -> bool,
             keep row = true ->
             exists rest,
               map (formatEntry JSON_parse)
                 (sql_limit limit
                    (order_by_created_desc
                       (filter keep (rows t ++ [row]))))
               = formatEntry JSON_parse row :: rest) as Hhead.
  { intros keep Hkeep. rewrite filter_app. cbn [filter]. rewrite Hkeep.
    rewrite order_desc_newest.
    - destruct (sql_limit_head limit row
                  (order_by_created_desc (filter keep (rows t))) Hlimit)
        as [rest ->].
      eexists. reflexivity.
    - intros x Hx. apply filter_In in Hx as [Hx _].
      subst row. cbn [row_created_at]. apply Hclock, Hx. }
  split; [| split].
  - apply (Hhead (fun r => String.eqb (row_identity r)
                                      (opt_identity options))).
    subst row. cbn [row_identity]. apply String.eqb_refl.
  - apply (Hhead (fun r => like (opt_identity options ++ "%")
                                (row_identity r))).
    subst row. cbn [row_identity]. apply like_prefix.
    rewrite <- (prefix_append (opt_identity options) EmptyString) at 1.
    f_equal. clear. induction (opt_identity options) as [| c s IH];
      [reflexivity | cbn [append]; rewrite <- IH at 1; reflexivity].
  - destruct (Hhead (fun _ => true) eq_refl) as [rest Hrest].
    exists rest. rewrite <- Hrest. unfold recent, stmt_listRecent.
    cbn [recent_entries rows]. rewrite filter_all. reflexivity.
Qed.

End RoundTrip.

(** *** Cleanup of old entries *)

Lemma filter_split_length {A} (f : A -> bool) (l : list A) :
  List.length l
  = (List.length (filter (fun x => negb (f x)) l)
     + List.length (filter f l))%nat.
Proof.
  induction l as [| x t IH]; [reflexivity |]. cbn [filter].
  destruct (f x); cbn [negb List.length]; lia.
Qed.

(** X19. [cleanup(olderThan)] deletes exactly the entries created before
    [now - olderThan]: the entries left are those of the table created
    at or after that instant, [cleaned] is the number of entries
    deleted, and a second cleanup at the same instant deletes nothing.
    The id counter is not taken back, so an entry added afterwards gets
    an id above every id ever stored, deleted ones included. *)
Theorem cleanup_deletes_older_entries (JSON_stringify : jsval -> string)
    (olderThan now : Z) (t : Table) :
  let cutoff := now - olderThan in
  let cleaned := fst (cleanup olderThan now t) in
  let t' := snd (cleanup olderThan now t) in
  (forall r, In r (rows t') <-> In r (rows t) /\ cutoff <= row_created_at r)
  /\ Z.of_nat (List.length (rows t))
     = Z.of_nat (List.length (rows t')) + cleaned
  /\ cleanup olderThan now t' = (0, t')
  /\ (table_ok t -> table_ok t')
  /\ (table_ok t ->
      forall options now' r,
        In r (rows t) ->
        row_id r < add_id (fst (add JSON_stringify options now' t'))).
Proof.
  intros cutoff cleaned t'. subst cleaned t'.
  unfold cleanup, stmt_cleanup. cbn [fst snd rows last_rowid]. fold cutoff.
  split; [| split; [| split; [| split]]].
  - intros r. rewrite filter_In. split; intros [Hin H]; (split; [exact Hin |]).
    + destruct (row_created_at r <? cutoff) eqn:E; [discriminate | lia].
    + destruct (row_created_at r <? cutoff) eqn:E; [lia | reflexivity].
  - rewrite (filter_split_length (fun r => row_created_at r <? cutoff)
               (rows t)). lia.
  - f_equal.
    + rewrite filter_none; [reflexivity |]. intros r Hin.
      apply filter_In in Hin as [_ H].
      destruct (row_created_at r <? cutoff); [discriminate | reflexivity].
    + f_equal. rewrite filter_filter_and. apply filter_ext. intros r.
      destruct (row_created_at r <? cutoff); reflexivity.
  - intros [Hle Hnd]. split; cbn [rows last_rowid].
    + intros r Hin. apply filter_In in Hin as [Hin _]. apply Hle, Hin.
    + clear Hle. induction (rows t) as [| x l IH]; [constructor |].
      cbn [map] in Hnd. inversion Hnd as [| ? ? Hnin Hnd']; subst.
      cbn [filter]. destruct (negb (row_created_at x <? cutoff));
        [| apply IH, Hnd'].
      cbn [map]. constructor; [| apply IH, Hnd'].
      intros Hin. apply Hnin. apply in_map_iff in Hin as [y [Hy Hin]].
      apply filter_In in Hin as [Hin _]. apply in_map_iff. eauto.
  - intros [Hle _] options now' r Hin. cbn [add fst add_id last_rowid].
    specialize (Hle r Hin). lia.
Qed.

(** *** The list of identities *)

Lemma ascii_compare_refl c : Ascii.compare c c = Eq.
Proof. unfold Ascii.compare. apply N.compare_refl. Qed.

Lemma string_compare_refl s : String.compare s s = Eq.
Proof.
  induction s as [| c s IH]; [reflexivity |]. cbn [String.compare].
  rewrite ascii_compare_refl. exact IH.
Qed.

Lemma ascii_compare_lt_trans a b c :
  Ascii.compare a b = Lt -> Ascii.compare b c = Lt -> Ascii.compare a c = Lt.
Proof.
  unfold Ascii.compare. rewrite !N.compare_lt_iff. apply N.lt_trans.
Qed.

Lemma string_compare_lt_trans a : forall b c,
  String.compare a b = Lt -> String.compare b c = Lt ->
  String.compare a c = Lt.
Proof.
  induction a as [| x a IH]; intros b c Hab Hbc.
  - destruct b as [| y b]; [discriminate |].
    destruct c as [| z c]; [discriminate | reflexivity].
  - destruct b as [| y b]; [discriminate |].
    destruct c as [| z c]; [discriminate |].
    cbn [String.compare] in *.
    destruct (Ascii.compare x y) eqn:Exy; try discriminate.
    + apply Ascii.compare_eq_iff in Exy. subst y.
      destruct (Ascii.compare x z); try discriminate; [| reflexivity].
      eapply IH; eauto.
    + destruct (Ascii.compare y z) eqn:Eyz; try discriminate.
      * apply Ascii.compare_eq_iff in Eyz. subst z. rewrite Exy.
        reflexivity.
      * rewrite (ascii_compare_lt_trans _ _ _ Exy Eyz). reflexivity.
Qed.

Lemma In_insert_identity s l y :
  In y (insert_identity s l) <-> y = s \/ In y l.
Proof.
  induction l as [| x t IH]; cbn [insert_identity].
  - cbn. intuition.
  - destruct (String.compare s x) eqn:E.
    + apply String.compare_eq_iff in E. subst x. cbn [In]. intuition.
    + cbn [In]. intuition.
    + cbn [In]. rewrite IH. intuition.
Qed.

Lemma insert_identity_ascending s l :
  strings_ascending l -> strings_ascending (insert_identity s l).
Proof.
  induction l as [| x t IH]; intros Hl; cbn [insert_identity].
  - cbn. split; [intros y [] | exact I].
  - cbn [strings_ascending] in Hl. destruct Hl as [Hx Ht].
    destruct (String.compare s x) eqn:E.
    + split; assumption.
    + cbn [strings_ascending]. split; [| split; assumption].
      intros y [<- | Hy]; [exact E |].
      eapply string_compare_lt_trans; [exact E | apply Hx, Hy].
    + cbn [strings_ascending]. split; [| apply IH, Ht].
      intros y Hy. apply In_insert_identity in Hy as [-> | Hy];
        [| apply Hx, Hy].
      rewrite String.compare_antisym, E. reflexivity.
Qed.

Lemma strings_ascending_NoDup l : strings_ascending l -> NoDup l.
Proof.
  induction l as [| x t IH]; intros Hl; [constructor |].
  destruct Hl as [Hx Ht]. constructor; [| apply IH, Ht].
  intros Hin. specialize (Hx x Hin). rewrite string_compare_refl in Hx.
  discriminate.
Qed.

Lemma In_distinct l s :
  In s (fold_right insert_identity [] l) <-> In s l.
Proof.
  induction l as [| x t IH]; cbn [fold_right]; [reflexivity |].
  rewrite In_insert_identity, IH. cbn [In]. intuition.
Qed.

Lemma distinct_ascending l :
  strings_ascending (fold_right insert_identity [] l).
Proof.
  induction l as [| x t IH]; [exact I |]. cbn [fold_right].
  apply insert_identity_ascending, IH.
Qed.

(** X20. [identities()] lists every identity that has an entry, each
    once, in ascending order of their characters, and [count] is their
    number. *)
Theorem identities_are_distinct_and_sorted (t : Table) :
  (forall s, In s (identities_list (identities t))
             <-> exists r, In r (rows t) /\ row_identity r = s)
  /\ NoDup (identities_list (identities t))
  /\ strings_ascending (identities_list (identities t))
  /\ identities_count (identities t)
     = Z.of_nat (List.length (identities_list (identities t))).
Proof.
  cbn [identities identities_list identities_count].
  unfold stmt_distinctIdentities.
  split; [| split; [| split]].
  - intros s. rewrite In_distinct, in_map_iff. split.
    + intros [r [Hr Hin]]. exists r. split; assumption.
    + intros [r [Hin Hr]]. exists r. split; assumption.
  - apply strings_ascending_NoDup, distinct_ascending.
  - apply distinct_ascending.
  - reflexivity.
Qed.

(** *** Sessions, and what a cleanup leaves *)

Section Sessions.
Variable JSON_parse : string -> jsval.
Variable JSON_stringify : jsval -> string.

Lemma In_order_by_created_desc r l :
  In r (order_by_created_desc l) <-> In r l.
Proof.
  split; apply Permutation_in;
    [| apply Permutation_sym]; apply order_by_created_desc_perm.
Qed.

(** X27. [listBySession] has no limit: it answers every entry stored
    with that session id, and nothing else. An entry just added is in
    the listing of a session exactly when it was added with that
    session id and the id is not the empty string, which [add] stores
    as no session at all; the entries listed before are still
    listed. *)
Theorem added_entry_is_listed_by_its_session (options : AddOptions)
    (now : Z) (t : Table) (session : string) :
  table_ok t ->
  let res := fst (add JSON_stringify options now t) in
  let t' := snd (add JSON_stringify options now t) in
  (forall e, In e (session_entries (listBySession JSON_parse t session))
             <-> exists r, In r (rows t)
                           /\ row_session_id r = Some session
                           /\ e = formatEntry JSON_parse r)
  /\ session_count (listBySession JSON_parse t session)
     = Z.of_nat
         (List.length
            (filter (fun r => column_is (row_session_id r) session)
                    (rows t)))
  /\ ((exists e, In e (session_entries (listBySession JSON_parse t' session))
                 /\ id e = add_id res)
      <-> opt_sessionId options = Some session /\ session <> EmptyString)
  /\ (forall e, In e (session_entries (listBySession JSON_parse t session)) ->
                In e (session_entries (listBySession JSON_parse t' session))).
Proof.
  intros [Hle _] res t'. subst res t'.
  assert (forall tb e,
             In e (session_entries (listBySession JSON_parse tb session))
             <-> exists r, In r (rows tb)
                           /\ row_session_id r = Some session
                           /\ e = formatEntry JSON_parse r) as Hsel.
  { intros tb e. cbn [listBySession session_entries].
    unfold stmt_listBySession. rewrite in_map_iff. split.
    - intros [r [<- Hin]].
      apply (proj1 (In_order_by_created_desc _ _)) in Hin.
      apply filter_In in Hin as [Hin Hs]. exists r.
      split; [exact Hin |]. split; [| reflexivity].
      unfold column_is in Hs. destruct (row_session_id r) as [x |];
        [| discriminate].
      apply String.eqb_eq in Hs. subst x. reflexivity.
    - intros [r [Hin [Hs ->]]]. exists r. split; [reflexivity |].
      apply (proj2 (In_order_by_created_desc _ _)), filter_In.
      split; [exact Hin |].
      unfold column_is. rewrite Hs. apply String.eqb_refl. }
  split; [apply Hsel |]. split; [| split].
  - cbn [listBySession session_count]. unfold stmt_listBySession.
    rewrite (Permutation_length (order_by_created_desc_perm _)).
    reflexivity.
  - cbn [add fst snd add_id]. split.
    + intros [e [Hin Hid]]. apply Hsel in Hin as [r [Hin [Hs ->]]].
      cbn [rows] in Hin. cbn [formatEntry id] in Hid.
      apply in_app_or in Hin as [Hin | [<- | []]].
      * specialize (Hle r Hin). lia.
      * cbn [row_session_id] in Hs. unfold or_null in Hs.
        destruct (opt_sessionId options) as [x |]; [| discriminate].
        destruct (is_empty x) eqn:E; [discriminate |].
        inversion Hs; subst x. split; [reflexivity |].
        intros ->. discriminate.
    + intros [Hopt Hne]. eexists. split.
      * apply Hsel. eexists. split; [cbn [rows]; apply in_or_app; right;
                                     left; reflexivity |].
        split; [| reflexivity]. cbn [row_session_id]. rewrite Hopt.
        unfold or_null. destruct session; [contradiction | reflexivity].
      * reflexivity.
  - intros e Hin. apply Hsel in Hin as [r [Hin [Hs ->]]]. apply Hsel.
    exists r. split; [| split; [exact Hs | reflexivity]].
    cbn [add snd rows]. apply in_or_app. left. exact Hin.
Qed.

(** X28. What a cleanup leaves is what [since] showed: for any limit,
    [recent] after [cleanup(olderThan)] at the instant [now] answers the
    entries that [since(now - olderThan)] answered before it, in the
    same order. *)
Theorem cleanup_leaves_what_since_listed (olderThan now limit : Z)
    (t : Table) :
  recent_entries
    (recent JSON_parse (snd (cleanup olderThan now t)) limit)
  = since_entries (since JSON_parse t (now - olderThan) limit)
  /\ recent_count
       (recent JSON_parse (snd (cleanup olderThan now t)) limit)
     = since_count (since JSON_parse t (now - olderThan) limit).
Proof.
  cbn [recent since recent_entries since_entries recent_count since_count].
  unfold stmt_listRecent, stmt_listSince, cleanup, stmt_cleanup.
  cbn [snd rows].
  assert (filter (fun r => negb (row_created_at r <? now - olderThan))
                 (rows t)
          = filter (fun r => now - olderThan <=? row_created_at r) (rows t))
    as ->.
  { apply filter_ext. intros r.
    destruct (row_created_at r <? now - olderThan) eqn:E1,
             (now - olderThan <=? row_created_at r) eqn:E2;
      try reflexivity; lia. }
  split; reflexivity.
Qed.

End Sessions.

(** *** Grouping entries under a key *)

Lemma map_get_set m k v k' :
  map_get (map_set m k v) k'
  = if String.eqb k k' then Some v else map_get m k'.
Proof.
  induction m as [| [k0 v0] m IH]; cbn [map_set map_get].
  - reflexivity.
  - destruct (String.eqb k0 k) eqn:E0; cbn [map_get].
    + apply String.eqb_eq in E0. subst k0.
      destruct (String.eqb k k'); reflexivity.
    + rewrite IH. destruct (String.eqb k0 k') eqn:E1; [| reflexivity].
      apply String.eqb_eq in E1. subst k0. rewrite String.eqb_sym, E0.
      reflexivity.
Qed.

Lemma keys_map_set m k v key :
  In key (map fst (map_set m k v)) <-> key = k \/ In key (map fst m).
Proof.
  induction m as [| [k0 v0] m IH]; cbn [map_set map fst In].
  - intuition.
  - destruct (String.eqb k0 k) eqn:E0; cbn [map fst In].
    + apply String.eqb_eq in E0. subst k0. intuition.
    + rewrite IH. intuition.
Qed.

Section Grouping.
Variable key : ChangelogEntry -> string.
Variable step : byIdentity_t -> ChangelogEntry -> byIdentity_t.
Hypothesis step_eq : forall m e,
  step m e
  = map_set m (key e)
      ((match map_get m (key e) with Some es => es | None => [] end)
       ++ [e])%list.

(** After the loop, a key holds the entries with that key, in the order
    of the array, and keys without an entry are absent. *)
Lemma grouped es : forall m k,
  map_get (fold_left step es m) k
  = match filter (fun e => String.eqb (key e) k) es with
    | [] => map_get m k
    | new =>
        Some ((match map_get m k with Some old => old | None => [] end)
              ++ new)%list
    end.
Proof.
  induction es as [| e es IH]; intros m k; cbn [fold_left filter];
    [reflexivity |].
  rewrite IH, step_eq, map_get_set.
  destruct (String.eqb (key e) k) eqn:E.
  - apply String.eqb_eq in E. subst k.
    destruct (filter (fun e0 => String.eqb (key e0) (key e)) es);
      [reflexivity |].
    rewrite <- app_assoc. reflexivity.
  - reflexivity.
Qed.

Lemma grouped_from_empty es k :
  map_get (fold_left step es []) k
  = match filter (fun e => String.eqb (key e) k) es with
    | [] => None
    | new => Some new
    end.
Proof. rewrite grouped. reflexivity. Qed.

Lemma grouped_keys es : forall m k,
  In k (map fst (fold_left step es m))
  <-> In k (map fst m) \/ exists e, In e es /\ key e = k.
Proof.
  induction es as [| e es IH]; intros m k; cbn [fold_left].
  - split; [intros H; left; exact H | intros [H | [e [[] _]]]; exact H].
  - rewrite IH, step_eq, keys_map_set. split.
    + intros [[-> | H] | [e' [He' Hk]]].
      * right. exists e. split; [left; reflexivity | reflexivity].
      * left. exact H.
      * right. exists e'. split; [right; exact He' | exact Hk].
    + intros [H | [e' [[<- | He'] Hk]]].
      * left. right. exact H.
      * left. left. symmetry. exact Hk.
      * right. exists e'. split; assumption.
Qed.

End Grouping.

(** *** The rollup *)

Lemma prefix_trans a : forall b c,
  String.prefix a b = true -> String.prefix b c = true ->
  String.prefix a c = true.
Proof.
  induction a as [| x a IH]; intros b c Hab Hbc.
  - destruct c; reflexivity.
  - destruct b as [| y b]; [discriminate |].
    destruct c as [| z c]; [discriminate |].
    cbn [String.prefix] in *.
    destruct (ascii_dec x y) as [<- | ]; [| discriminate].
    destruct (ascii_dec x z) as [<- | ]; [| discriminate].
    eapply IH; eauto.
Qed.

Section Rollup.
Variable JSON_parse : string -> jsval.

Lemma buildNode_holds_its_entries fuel m ident e :
  In e (match map_get m ident with Some es => es | None => [] end) ->
  In e (rollup_entries (buildNode fuel m ident)).
Proof.
  intros H. destruct fuel; cbn [buildNode rollup_entries];
    apply in_or_app; left; exact H.
Qed.

Lemma buildNode_sound m (all : list ChangelogEntry) :
  (forall k es e, map_get m k = Some es -> In e es ->
                  In e all /\ identity e = k) ->
  forall fuel ident e,
    In e (rollup_entries (buildNode fuel m ident)) ->
    In e all
    /\ (identity e = ident
        \/ String.prefix (ident ++ ":") (identity e) = true).
Proof.
  intros Hm. induction fuel as [| fuel IH]; intros ident e Hin.
  - cbn [buildNode rollup_entries flat_map] in Hin.
    rewrite app_nil_r in Hin.
    destruct (map_get m ident) as [es |] eqn:E; [| contradiction].
    destruct (Hm _ _ _ E Hin) as [Ha Hi]. split; [exact Ha | left; exact Hi].
  - rewrite buildNode_step in Hin. cbn [rollup_entries] in Hin.
    apply in_app_or in Hin as [Hin | Hin].
    + destruct (map_get m ident) as [es |] eqn:E; [| contradiction].
      destruct (Hm _ _ _ E Hin) as [Ha Hi].
      split; [exact Ha | left; exact Hi].
    + apply in_flat_map in Hin as [node [Hnode Hin]].
      apply in_map_iff in Hnode as [k [<- Hk]].
      unfold childIdentities in Hk. apply filter_In in Hk as [_ Hk].
      apply andb_true_iff in Hk as [Hpre _].
      destruct (IH k e Hin) as [Ha [Hi | Hi]]; (split; [exact Ha | right]).
      * rewrite Hi. exact Hpre.
      * eapply prefix_trans; [exact Hpre |].
        eapply prefix_trans; [| exact Hi]. apply prefix_append.
Qed.

(** X21. The rollup of [root] holds nothing but entries of the tree
    query for [root] (limit 1000) whose identity is [root] or begins
    with [root] and a colon, so an entry of [myapp2:api] is never in the
    rollup of [myapp]. It holds every such entry recorded under [root]
    itself or one level below [root]. *)
Theorem rollup_holds_root_and_children (t : Table) (root : string) :
  let listed := list_entries (listTree JSON_parse t root 1000) in
  let held := rollup_entries (rollup JSON_parse t root) in
  (forall e, In e held ->
             In e listed
             /\ (identity e = root
                 \/ String.prefix (root ++ ":") (identity e) = true))
  /\ (forall e, In e listed ->
                identity e = root
                \/ getParentIdentity (identity e) = Some root ->
                In e held).
Proof.
  intros listed held. subst listed held.
  unfold rollup, listTree. cbn [list_entries].
  set (all := map (formatEntry JSON_parse)
                (stmt_listByPrefix t (root ++ "%") 1000)).
  set (m := fold_left group_entry all []).
  assert (forall k,
             map_get m k
             = match filter (fun e => String.eqb (identity e) k) all with
               | [] => None
               | new => Some new
               end) as Hget.
  { intros k. subst m.
    apply (grouped_from_empty identity group_entry (fun _ _ => eq_refl)). }
  assert (forall k e, In e all -> identity e = k ->
                      In e (match map_get m k with
                            | Some es => es
                            | None => []
                            end)) as Hin_group.
  { intros k e He Hk. rewrite Hget.
    assert (In e (filter (fun e0 => String.eqb (identity e0) k) all)) as Hf
      by (apply filter_In; split; [exact He | apply String.eqb_eq, Hk]).
    destruct (filter (fun e0 => String.eqb (identity e0) k) all);
      [contradiction | exact Hf]. }
  split.
  - apply (buildNode_sound m all). intros k es e Hk He.
    rewrite Hget in Hk.
    assert (In e (filter (fun e0 => String.eqb (identity e0) k) all)) as Hf.
    { destruct (filter (fun e0 => String.eqb (identity e0) k) all);
        [discriminate |]. inversion Hk; subst es. exact He. }
    apply filter_In in Hf as [Ha Hi]. split; [exact Ha |].
    apply String.eqb_eq, Hi.
  - intros e He [Hroot | Hparent].
    + apply buildNode_holds_its_entries, Hin_group; assumption.
    + assert (In (identity e) (map fst m)) as Hkey.
      { subst m.
        apply (grouped_keys identity group_entry (fun _ _ => eq_refl)).
        right. exists e. split; [exact He | reflexivity]. }
      pose proof (getDepth_le_max_depth m (identity e) Hkey) as Hdeep.
      fold (max_depth m) in Hdeep.
      destruct (max_depth m) as [| fuel] eqn:Ef;
        [unfold getDepth in Hdeep; lia |].
      rewrite buildNode_step. cbn [rollup_entries].
      apply in_or_app. right. apply in_flat_map.
      exists (buildNode fuel m (identity e)). split.
      * apply in_map. unfold childIdentities. apply filter_In.
        split; [exact Hkey |].
        destruct (getParentIdentity_split _ _ Hparent) as [c [Hid Hc]].
        apply andb_true_iff. split.
        -- rewrite Hid, <- append_assoc. apply prefix_append.
        -- apply Nat.eqb_eq. unfold getDepth. rewrite Hid.
           rewrite !count_char_append, Hc. cbn [count_char].
           rewrite Ascii.eqb_refl. lia.
      * apply buildNode_holds_its_entries, Hin_group; [exact He | reflexivity].
Qed.

End Rollup.

(** *** The export in Keep a Changelog format *)

Lemma type_section_filter (entries : list ChangelogEntry) (ty : string) :
  type_section (fold_left group_by_type entries []) ty
  = match filter (fun e => String.eqb (type e) ty) entries with
    | [] => []
    | es =>
        ("### " ++ match typeLabels ty with
                   | Some label => label
                   | None => ty
                   end)%string
        :: EmptyString :: (map entry_line es ++ [EmptyString])%list
    end.
Proof.
  unfold type_section.
  rewrite (grouped_from_empty type group_by_type (fun _ _ => eq_refl)).
  destruct (filter (fun e => String.eqb (type e) ty) entries);
    reflexivity.
Qed.

(** X22. The Keep a Changelog export has one section for each of the six
    known types that has entries, in the fixed order of the types, and
    under it one line for each entry of that type, in the order given.
    An entry of a known type always has its line; entries of any other
    type are left out without a word, so that a list of such entries
    exports as the empty changelog. *)
Theorem keep_a_changelog_sections (entries : list ChangelogEntry) :
  keepAChangelog_lines entries
  = (keepAChangelog_header
     ++ flat_map
          (fun ty =>
             match filter (fun e => String.eqb (type e) ty) entries with
             | [] => []
             | es =>
                 ("### " ++ match typeLabels ty with
                            | Some label => label
                            | None => ty
                            end)%string
                 :: EmptyString :: (map entry_line es ++ [EmptyString])%list
             end) typeOrder)%list
  /\ (forall e, In e entries -> In (type e) typeOrder ->
                In (entry_line e) (keepAChangelog_lines entries))
  /\ ((forall e, In e entries -> ~ In (type e) typeOrder) ->
      exportKeepAChangelog entries = exportKeepAChangelog []).
Proof.
  assert (keepAChangelog_lines entries
          = (keepAChangelog_header
             ++ flat_map
                  (fun ty =>
                     match filter (fun e => String.eqb (type e) ty) entries
                     with
                     | [] => []
                     | es =>
                         ("### " ++ match typeLabels ty with
                                    | Some label => label
                                    | None => ty
                                    end)%string
                         :: EmptyString
                         :: (map entry_line es ++ [EmptyString])%list
                     end) typeOrder)%list) as Hlines.
  { unfold keepAChangelog_lines. f_equal. apply flat_map_ext.
    intros ty. apply type_section_filter. }
  split; [exact Hlines |]. split.
  - intros e He Hty. rewrite Hlines. apply in_or_app. right.
    apply in_flat_map. exists (type e). split; [exact Hty |].
    assert (In e (filter (fun e0 => String.eqb (type e0) (type e)) entries))
      as Hf by (apply filter_In; split; [exact He | apply String.eqb_refl]).
    destruct (filter (fun e0 => String.eqb (type e0) (type e)) entries)
      as [| x l] eqn:E; [contradiction |].
    right. right. apply in_or_app. left. apply in_map. exact Hf.
  - intros Hunknown. unfold exportKeepAChangelog. f_equal.
    rewrite Hlines.
    assert (forall ty, In ty typeOrder ->
                       filter (fun e => String.eqb (type e) ty) entries = [])
      as Hnone.
    { intros ty Hty. apply filter_none. intros e He.
      apply String.eqb_neq. intros Heq. apply (Hunknown e He).
      rewrite Heq. exact Hty. }
    unfold typeOrder in *. cbn [flat_map].
    rewrite !Hnone by (cbn; tauto). reflexivity.
Qed.

End ChangelogProperties.

(* ================================================================== *)
(** ** The limit of the listing routes *)
(* ================================================================== *)

Module RouteProperties.
Import Changelog ChangelogFacts ChangelogRoutes.

(** X23. The limit the listing routes pass on is never above 500 and
    never 0: an absent or unreadable [limit], and [limit=0], give 50; a
    positive one is cut at 500. A negative [limit] that [parseInt]
    reads without rounding, one from [- MAX_SAFE_INTEGER] on, is passed
    on as it is, and since a negative LIMIT means no limit, [list] and
    [listTree] then answer every matching entry, however many. *)
Theorem route_limit_bounds (JSON_parse : string -> jsval)
    (query_limit : jsval) (t : Table) (q : string) :
  route_limit query_limit <= 500
  /\ route_limit query_limit <> 0
  /\ (parseInt_auto query_limit = None \/ parseInt_auto query_limit = Some 0 ->
      route_limit query_limit = 50)
  /\ (forall n, parseInt_auto query_limit = Some n -> 0 < n ->
                route_limit query_limit = Z.min n 500)
  /\ (forall n, parseInt_auto query_limit = Some n ->
                - MAX_SAFE_INTEGER <= n < 0 ->
                route_limit query_limit = n
                /\ list_count (listTree JSON_parse t q
                                 (route_limit query_limit))
                   = Z.of_nat
                       (List.length
                          (filter (fun r => like (q ++ "%") (row_identity r))
                                  (rows t)))
                /\ list_count (list_exact JSON_parse t q
                                 (route_limit query_limit))
                   = Z.of_nat
                       (List.length
                          (filter (fun r => String.eqb (row_identity r) q)
                                  (rows t)))).
Proof.
  unfold route_limit.
  destruct (parseInt_auto query_limit) as [n |].
  - destruct (n =? 0) eqn:E.
    + repeat split; try lia.
      * intros m Hm Hpos. inversion Hm; subst. lia.
      * inversion H; subst. lia.
      * inversion H; subst. lia.
      * inversion H; subst. lia.
    + split; [lia |]. split; [lia |]. split; [intros [H | H]; [discriminate |];
        inversion H; subst; lia |].
      split.
      * intros m Hm Hpos. inversion Hm; subst. reflexivity.
      * intros m Hm [_ Hneg]. inversion Hm; subst m.
        assert (Z.min n 500 = n) as -> by lia.
        split; [reflexivity |].
        unfold listTree, list_exact, stmt_listByPrefix, stmt_listByIdentity.
        cbn [list_count].
        rewrite !sql_limit_all by (left; exact Hneg).
        rewrite !(Permutation_length (order_by_created_desc_perm _)).
        split; reflexivity.
  - repeat split; try lia; intros; discriminate.
Qed.

End RouteProperties.

(* ================================================================== *)
(** ** Host names of the local DNS *)
(* ================================================================== *)

Module DnsProperties.
Import Dns.

Lemma map_chars_append f a b :
  map_chars f (a ++ b) = map_chars f a ++ map_chars f b.
Proof.
  induction a as [| c a IH]; cbn [append map_chars]; [reflexivity |].
  rewrite IH. reflexivity.
Qed.

Lemma keep_chars_append p a b :
  keep_chars p (a ++ b) = keep_chars p a ++ keep_chars p b.
Proof.
  induction a as [| c a IH]; cbn [append keep_chars]; [reflexivity |].
  rewrite IH. destruct (p c); reflexivity.
Qed.

Lemma all_chars_keep p s : all_chars p (keep_chars p s) = true.
Proof.
  induction s as [| c s IH]; cbn [keep_chars]; [reflexivity |].
  destruct (p c) eqn:E; [| exact IH]. cbn [all_chars]. rewrite E. exact IH.
Qed.

Lemma all_chars_map (p q : ascii -> bool) f s :
  (forall c, p c = true -> q (f c) = true) ->
  all_chars p s = true -> all_chars q (map_chars f s) = true.
Proof.
  intros H. induction s as [| c s IH]; cbn [all_chars map_chars];
    [reflexivity |].
  intros Hs. apply andb_true_iff in Hs as [Hc Hs].
  rewrite (H c Hc). apply IH, Hs.
Qed.

Lemma all_chars_substring p n : forall s,
  all_chars p s = true -> all_chars p (substring 0 n s) = true.
Proof.
  induction n as [| n IH]; intros s Hs; destruct s as [| c s];
    cbn [substring all_chars]; try reflexivity.
  cbn [all_chars] in Hs. apply andb_true_iff in Hs as [Hc Hs].
  rewrite Hc. apply IH, Hs.
Qed.

Lemma substring_all n : forall s,
  (String.length s <= n)%nat -> substring 0 n s = s.
Proof.
  induction n as [| n IH]; intros s Hs; destruct s as [| c s];
    cbn [substring]; try reflexivity.
  - cbn in Hs. lia.
  - f_equal. apply IH. cbn in Hs. lia.
Qed.

Lemma map_chars_fixed (p : ascii -> bool) f s :
  (forall c, p c = true -> f c = c) ->
  all_chars p s = true -> map_chars f s = s.
Proof.
  intros H. induction s as [| c s IH]; cbn [all_chars map_chars];
    [reflexivity |].
  intros Hs. apply andb_true_iff in Hs as [Hc Hs].
  rewrite (H c Hc), (IH Hs). reflexivity.
Qed.

Lemma keep_chars_fixed (p q : ascii -> bool) s :
  (forall c, p c = true -> q c = true) ->
  all_chars p s = true -> keep_chars q s = s.
Proof.
  intros H. induction s as [| c s IH]; cbn [all_chars keep_chars];
    [reflexivity |].
  intros Hs. apply andb_true_iff in Hs as [Hc Hs].
  rewrite (H c Hc), (IH Hs). reflexivity.
Qed.

(** Lower-case letters, digits and the dash. *)
Lemma lowered_char c :
  hostname_char c = true ->
  (in_range 97 122 (Changelog.to_lower c)
   || in_range 48 57 (Changelog.to_lower c)
   || Ascii.eqb (Changelog.to_lower c) "-") = true.
Proof.
  destruct c as [[] [] [] [] [] [] [] []]; vm_compute;
    intros H; first [reflexivity | discriminate H].
Qed.

Lemma host_char_fixed c :
  (in_range 97 122 c || in_range 48 57 c || Ascii.eqb c "-") = true ->
  colon_to_dash c = c /\ hostname_char c = true /\ Changelog.to_lower c = c.
Proof.
  destruct c as [[] [] [] [] [] [] [] []]; vm_compute;
    intros H; first [discriminate H | repeat split].
Qed.

(** X24. A host name made from an identity is at most 63 characters
    long and consists of lower-case letters, digits and dashes only.
    Making a host name from a host name changes nothing. An identity
    without a letter, a digit, a dash or a colon gets the empty host
    name. *)
Theorem hostname_shape (ident : string) :
  (String.length (identityToHostname ident) <= 63)%nat
  /\ all_chars (fun c => in_range 97 122 c || in_range 48 57 c
                         || Ascii.eqb c "-")
       (identityToHostname ident) = true
  /\ identityToHostname (identityToHostname ident) = identityToHostname ident
  /\ (all_chars (fun c => negb (hostname_char c) && negb (Ascii.eqb c ":"))
        ident = true ->
      identityToHostname ident = EmptyString).
Proof.
  assert (all_chars (fun c => in_range 97 122 c || in_range 48 57 c
                              || Ascii.eqb c "-")
            (identityToHostname ident) = true) as Hshape.
  { unfold identityToHostname. apply all_chars_substring.
    apply (all_chars_map hostname_char); [apply lowered_char |].
    apply all_chars_keep. }
  assert (String.length (identityToHostname ident) <= 63)%nat as Hlen
    by apply ChangelogFacts.substring_length_le.
  split; [exact Hlen |]. split; [exact Hshape |]. split.
  2:{ intros Hnone. unfold identityToHostname.
      assert (keep_chars hostname_char (map_chars colon_to_dash ident)
              = EmptyString) as ->; [| reflexivity].
      clear Hshape Hlen. induction ident as [| c s IH]; [reflexivity |].
      cbn [all_chars] in Hnone.
      apply andb_true_iff in Hnone as [Hc Hs].
      apply andb_true_iff in Hc as [Hc1 Hc2].
      cbn [map_chars keep_chars]. unfold colon_to_dash at 1.
      destruct (Ascii.eqb c ":"); [discriminate |].
      destruct (hostname_char c); [discriminate |]. apply IH, Hs. }
  set (h := identityToHostname ident) in *. unfold identityToHostname.
  rewrite (map_chars_fixed _ colon_to_dash h
             (fun c H => proj1 (host_char_fixed c H)) Hshape).
  rewrite (keep_chars_fixed _ hostname_char h
             (fun c H => proj1 (proj2 (host_char_fixed c H))) Hshape).
  rewrite (map_chars_fixed _ Changelog.to_lower h
             (fun c H => proj2 (proj2 (host_char_fixed c H))) Hshape).
  apply substring_all, Hlen.
Qed.

(** X25. Different identities can get the same host name: a colon and a
    dash give the same name, a character that is neither a letter, a
    digit, a dash nor a colon (a dot or an underscore of a project
    name, say) is dropped, and an upper-case letter gives the same name
    as its lower-case form. *)
Theorem hostname_collisions (a b : string) :
  identityToHostname (a ++ ":" ++ b) = identityToHostname (a ++ "-" ++ b)
  /\ (forall c, hostname_char c = false -> c <> ":"%char ->
                identityToHostname (a ++ String c b)
                = identityToHostname (a ++ b))
  /\ (forall c, identityToHostname (a ++ String (Changelog.to_lower c) b)
                = identityToHostname (a ++ String c b)).
Proof.
  unfold identityToHostname. split; [| split].
  - rewrite !map_chars_append. reflexivity.
  - intros c Hc Hcolon. rewrite !map_chars_append, !keep_chars_append.
    cbn [map_chars keep_chars].
    assert (colon_to_dash c = c) as ->.
    { unfold colon_to_dash. destruct (Ascii.eqb c ":") eqn:E;
        [| reflexivity].
      apply Ascii.eqb_eq in E. contradiction. }
    rewrite Hc. reflexivity.
  - intros c. rewrite !map_chars_append, !keep_chars_append.
    cbn [map_chars keep_chars].
    assert (forall r,
               map_chars Changelog.to_lower
                 (if hostname_char (colon_to_dash (Changelog.to_lower c))
                  then String (colon_to_dash (Changelog.to_lower c)) r
                  else r)
               = map_chars Changelog.to_lower
                   (if hostname_char (colon_to_dash c)
                    then String (colon_to_dash c) r
                    else r)) as Hc.
    { intros r. destruct c as [[] [] [] [] [] [] [] []]; reflexivity. }
    rewrite !map_chars_append, Hc. reflexivity.
Qed.

End DnsProperties.

(* ================================================================== *)
(** ** Examples for the further properties *)
(* ================================================================== *)

(** A pid header that is not a number. *)
Lemma claim_pid_validation_witness :
  post_ports_request cfg0 os_quiet (JStr "myapp") JUndefined (JStr "abc")
    initial_world
  = (Return (mkResponse 400
               [("error", JStr "PID must be between 1 and 99999")]),
     set_metrics (inc_validation_failures (metrics initial_world))
                 initial_world).
Proof.
  apply (proj2 (claim_pid_validation cfg0 os_quiet (JStr "myapp") JUndefined
                  (JStr "abc") initial_world eq_refl)).
  reflexivity.
Defined.

(** A name with a colon is turned down and changes one counter. *)
Lemma rejected_claim_changes_nothing_witness :
  snd (post_ports_request cfg0 os_quiet (JStr "a:b") JUndefined JUndefined
         w_live)
  = set_metrics (inc_validation_failures (metrics w_live)) w_live.
Proof.
  apply (proj2 (rejected_claim_changes_nothing cfg0 os_quiet (JStr "a:b")
                  JUndefined JUndefined w_live)).
  eexists. split; reflexivity.
Defined.

Lemma rows_stay_in_range_witness :
  ports_in_range cfg0
    (db (run cfg0 os_quiet
           [PostPortsRequest (JStr "myapp") JUndefined (JStr "42");
            PostPortsCleanup]
           initial_world)).
Proof.
  apply (rows_stay_in_range cfg0 os_quiet
           [PostPortsRequest (JStr "myapp") JUndefined (JStr "42");
            PostPortsCleanup]
           initial_world).
  simpl. intros r [].
Defined.

(** The row of [other] on port 3102 outlives a claim of [myapp]. *)
Lemma claim_leaves_other_projects_witness :
  In (mkRow 3102 "other" 42 500 500)
     (db (snd (post_ports_request cfg0 os_quiet (JStr "myapp") JUndefined
                 (JStr "42") w_other))).
Proof.
  apply (proj2 (claim_leaves_other_projects cfg0 os_quiet (JStr "myapp")
                  JUndefined (JStr "42") w_other
                  (mkRow 3102 "other" 42 500 500)
                  ltac:(simpl; repeat constructor; simpl; tauto)
                  ltac:(simpl; discriminate))).
  - left. reflexivity.
  - vm_compute. discriminate.
Defined.

Lemma claim_then_release_restores_witness :
  db (snd (delete_ports_release JUndefined (JStr "myapp")
             (snd (post_ports_request cfg0 os_quiet (JStr "myapp")
                     JUndefined (JStr "42") w_other))))
  = db w_other
  \/ exists p,
       parseInt JUndefined = Some p
       /\ db (snd (delete_ports_release JUndefined (JStr "myapp")
                     (snd (post_ports_request cfg0 os_quiet (JStr "myapp")
                             JUndefined (JStr "42") w_other))))
          = delete_where (has_port p) (db w_other).
Proof.
  apply (claim_then_release_restores cfg0 os_quiet "myapp" JUndefined
           (JStr "42") w_other).
  - reflexivity.
  - simpl. intros [H | []]. discriminate H.
Defined.

Lemma release_dispatch_witness :
  delete_ports_release JUndefined JUndefined w_live
  = (Return (mkResponse 400 [("error", JStr "port or project required")]),
     w_live).
Proof.
  apply (proj2 (proj2 (proj2 (release_dispatch JUndefined JUndefined
                                w_live))));
    reflexivity.
Defined.

(** Port 0 is turned down. *)
Lemma release_by_port_validation_witness :
  fst (delete_ports_release (JNum 0) JUndefined w_live)
  = Return (mkResponse 400
              [("error", JStr "port must be between 1 and 65535")]).
Proof.
  apply (proj1 (release_by_port_validation (JNum 0) JUndefined w_live
                  ltac:(discriminate))).
  - discriminate.
  - intros p Hp. vm_compute in Hp. inversion Hp; subst. lia.
Defined.

Lemma cleanup_frees_what_it_reports_witness :
  exists freed w',
    cleanupStale os_quiet w_mixed = (Return freed, w')
    /\ Permutation (db w' ++ freed) (db w_mixed)
    /\ post_ports_cleanup os_quiet w_mixed
       = (Return (mkResponse 200
                    [("freed", JArr (map freed_json freed));
                     ("count", JNum (Z.of_nat (List.length freed)))]), w')
    /\ metrics w'
       = (if 0 <? Z.of_nat (List.length freed)
          then note_cleanup (Z.of_nat (List.length freed)) (metrics w_mixed)
          else metrics w_mixed).
Proof.
  apply (cleanup_frees_what_it_reports os_quiet w_mixed).
  simpl. repeat constructor; simpl; intuition discriminate.
Defined.

Lemma system_ports_listing_ascending_witness :
  cache_sorted (snd (getSystemPorts os_listening initial_world))
  /\ exists l, fst (getSystemPorts os_listening initial_world) = Return l
               /\ ascending (map sp_port l).
Proof.
  apply (proj2 (proj2 (system_ports_listing_ascending os_listening
                         lsof_listing initial_world))).
  exact I.
Defined.

Lemma ancestors_are_colon_prefixes_witness :
  Changelog.like ("a" ++ "%") "a:b:c" = true.
Proof.
  apply (proj1 (proj2 (proj2
           (ChangelogProperties.ancestors_are_colon_prefixes
              ChangelogExamples.json_parse_stub "a:b:c" "a"
              ltac:(right; left; reflexivity))))).
Defined.

Lemma ancestors_count_is_depth_minus_one_witness :
  S (List.length (Changelog.getAncestors "a:b:c"))
  = Changelog.getDepth "a:b:c".
Proof.
  apply (proj1 (ChangelogProperties.ancestors_count_is_depth_minus_one
                  "a:b:c")).
  intros r H. discriminate H.
Defined.

Lemma add_then_get_witness :
  table_ok
    (snd (Changelog.add ChangelogExamples.json_stringify_stub
            (ChangelogExamples.entry_options "a:b" "change") 20
            ChangelogExamples.t_abc)).
Proof.
  apply (proj1 (ChangelogProperties.add_then_get
                  ChangelogExamples.json_parse_stub
                  ChangelogExamples.json_stringify_stub
                  (ChangelogExamples.entry_options "a:b" "change") 20
                  ChangelogExamples.t_abc
                  ltac:(split;
                        [intros r [<- | []]; simpl; lia
                        | simpl; repeat constructor; simpl; tauto]))).
Defined.

Lemma added_entry_heads_the_listings_witness :
  exists e,
    Changelog.id e = 2 /\ Changelog.createdAt e = 20
    /\ (exists rest,
          Changelog.list_entries
            (Changelog.list_exact ChangelogExamples.json_parse_stub
               (ChangelogExamples.add_entry "a:b" 20 ChangelogExamples.t_abc)
               "a:b" 50)
          = e :: rest)
    /\ (exists rest,
          Changelog.list_entries
            (Changelog.listTree ChangelogExamples.json_parse_stub
               (ChangelogExamples.add_entry "a:b" 20 ChangelogExamples.t_abc)
               "a:b" 50)
          = e :: rest)
    /\ (exists rest,
          ChangelogQueries.recent_entries
            (ChangelogQueries.recent ChangelogExamples.json_parse_stub
               (ChangelogExamples.add_entry "a:b" 20 ChangelogExamples.t_abc)
               50)
          = e :: rest).
Proof.
  apply (ChangelogProperties.added_entry_heads_the_listings
           ChangelogExamples.json_parse_stub
           ChangelogExamples.json_stringify_stub
           (ChangelogExamples.entry_options "a:b" "change") 20
           ChangelogExamples.t_abc 50).
  - intros r [<- | []]. simpl. lia.
  - reflexivity.
  - lia.
Defined.

(** Of the entries created at 10 and at 20, a cleanup at 115 of what is
    older than 100 leaves the second. *)
Lemma cleanup_deletes_older_entries_witness :
  table_ok (snd (ChangelogQueries.cleanup 100 115 ChangelogExamples.t_apps)).
Proof.
  apply (proj1 (proj2 (proj2 (proj2
           (ChangelogProperties.cleanup_deletes_older_entries
              ChangelogExamples.json_stringify_stub 100 115
              ChangelogExamples.t_apps))))).
  split.
  - intros r [<- | [<- | []]]; simpl; lia.
  - simpl. repeat constructor; simpl; intuition discriminate.
Defined.

Lemma rollup_holds_root_and_children_witness :
  In (Changelog.formatEntry ChangelogExamples.json_parse_stub
        (Changelog.mkChangelogRow 2 "a:b" None None "feature" "change"
           None None 20))
     (Changelog.rollup_entries
        (Changelog.rollup ChangelogExamples.json_parse_stub
           (ChangelogExamples.add_entry "a:b" 20 ChangelogExamples.t_abc)
           "a")).
Proof.
  apply (proj2 (ChangelogProperties.rollup_holds_root_and_children
                  ChangelogExamples.json_parse_stub
                  (ChangelogExamples.add_entry "a:b" 20
                     ChangelogExamples.t_abc) "a")).
  - left. reflexivity.
  - right. reflexivity.
Defined.

Lemma keep_a_changelog_sections_witness :
  In (ChangelogQueries.entry_line
        (Changelog.mkChangelogEntry 1 "myapp" None None "fix" "no crash"
           None None 10))
     (ChangelogQueries.keepAChangelog_lines
        [Changelog.mkChangelogEntry 1 "myapp" None None "fix" "no crash"
           None None 10]).
Proof.
  apply (proj1 (proj2 (ChangelogProperties.keep_a_changelog_sections
                         [Changelog.mkChangelogEntry 1 "myapp" None None
                            "fix" "no crash" None None 10]))).
  - left. reflexivity.
  - right. right. left. reflexivity.
Defined.

(** [limit=-1] lifts the limit. *)
Lemma route_limit_bounds_witness :
  ChangelogRoutes.route_limit (JStr "-1") = -1
  /\ Changelog.list_count
       (Changelog.listTree ChangelogExamples.json_parse_stub
          ChangelogExamples.t_apps "myapp"
          (ChangelogRoutes.route_limit (JStr "-1")))
     = Z.of_nat
         (List.length
            (filter (fun r => Changelog.like ("myapp" ++ "%")
                                (Changelog.row_identity r))
                    (Changelog.rows ChangelogExamples.t_apps)))
  /\ Changelog.list_count
       (Changelog.list_exact ChangelogExamples.json_parse_stub
          ChangelogExamples.t_apps "myapp"
          (ChangelogRoutes.route_limit (JStr "-1")))
     = Z.of_nat
         (List.length
            (filter (fun r => String.eqb (Changelog.row_identity r) "myapp")
                    (Changelog.rows ChangelogExamples.t_apps))).
Proof.
  apply (proj2 (proj2 (proj2 (proj2
           (RouteProperties.route_limit_bounds
              ChangelogExamples.json_parse_stub (JStr "-1")
              ChangelogExamples.t_apps "myapp")))) (-1)).
  - reflexivity.
  - unfold MAX_SAFE_INTEGER. lia.
Defined.

(** [my.app] and [myapp] get one host name. *)
Lemma hostname_collisions_witness :
  Dns.identityToHostname ("my" ++ String "." "app")
  = Dns.identityToHostname ("my" ++ "app").
Proof.
  apply (proj1 (proj2 (DnsProperties.hostname_collisions "my" "app"))
           "."%char).
  - reflexivity.
  - discriminate.
Defined.

(** Nothing of [._!] is left in a host name. *)
Lemma hostname_shape_witness :
  Dns.identityToHostname "._!" = EmptyString.
Proof.
  apply (proj2 (proj2 (proj2 (DnsProperties.hostname_shape "._!")))).
  reflexivity.
Defined.

(** An entry added for session [s1] is listed under [s1]. *)
Lemma added_entry_is_listed_by_its_session_witness :
  exists e,
    In e (ChangelogQueries.session_entries
            (ChangelogQueries.listBySession ChangelogExamples.json_parse_stub
               (snd (Changelog.add ChangelogExamples.json_stringify_stub
                       (Changelog.mkAddOptions "a:b" "change" None None
                          (Some "s1") None None)
                       20 ChangelogExamples.t_abc))
               "s1"))
    /\ Changelog.id e
       = Changelog.add_id
           (fst (Changelog.add ChangelogExamples.json_stringify_stub
                   (Changelog.mkAddOptions "a:b" "change" None None
                      (Some "s1") None None)
                   20 ChangelogExamples.t_abc)).
Proof.
  apply (proj2 (proj1 (proj2 (proj2
           (ChangelogProperties.added_entry_is_listed_by_its_session
              ChangelogExamples.json_parse_stub
              ChangelogExamples.json_stringify_stub
              (Changelog.mkAddOptions "a:b" "change" None None
                 (Some "s1") None None)
              20 ChangelogExamples.t_abc "s1"
              ltac:(split;
                    [intros r [<- | []]; simpl; lia
                    | simpl; repeat constructor; simpl; tauto])))))).
  split; [reflexivity | discriminate].
Defined.
